(** * CodeSlim: the tree rewriter and the two code generators

    A shallow embedding of [codeslim/codegen.py]: the [Rewriter] built on
    Python's [ast.NodeTransformer], the class merging pass, and the
    file-level and segment-level generators, followed by the properties
    of the specification that concern them. *)

From Stdlib Require Import Ascii String ZArith.
From stdpp Require Import gmap strings list fin_maps.

Open Scope string_scope.
Open Scope list_scope.

(** ** Python values and syntax trees

    An [ast.AST] object is a class name, the fields listed in the class's
    [_fields] (in that order, each with its current value) and the names
    of the other attributes set on the object ([lineno], or the
    [is_target] mark that the parser puts on imports of corpus files).
    A field holds [None], a string, an integer, a list or another node. *)

#[local] Unset Elimination Schemes.
Inductive value : Type :=
| VNone
| VStr (s : string)
| VInt (z : Z)
| VList (items : list value)
| VAst (cls : string) (fields : list (string * value)) (attrs : list string).
#[local] Set Elimination Schemes.

(** [node.__class__.__name__] *)
Definition class_name (v : value) : string :=
  match v with
  | VNone => "NoneType"
  | VStr _ => "str"
  | VInt _ => "int"
  | VList _ => "list"
  | VAst cls _ _ => cls
  end.

(** [isinstance(v, AST)] *)
Definition is_ast (v : value) : bool :=
  match v with VAst _ _ _ => true | _ => false end.

(** [REMOVE_NODE = None] *)
Definition REMOVE_NODE : value := VNone.

Definition CODEGEN_PREFIX : string :=
  "# Generated by CodeSlim" +:+ String (Ascii.ascii_of_nat 10) "".

(** Dictionaries whose iteration order the code relies on are kept as
    association lists in insertion order; [assoc] is [d[k]] on the first
    binding of [k]. *)
Fixpoint assoc {A : Type} (k : string) (d : list (string * A)) : option A :=
  match d with
  | [] => None
  | (k', x) :: d' => if String.eqb k k' then Some x else assoc k d'
  end.

(** [d[k] = x]: replaces the binding in place or adds one at the end. *)
Fixpoint assoc_set {A : Type} (k : string) (x : A) (d : list (string * A))
  : list (string * A) :=
  match d with
  | [] => [(k, x)]
  | (k', y) :: d' =>
      if String.eqb k k' then (k', x) :: d' else (k', y) :: assoc_set k x d'
  end.

(** [name in l] for a list of strings. *)
Definition mem (name : string) (l : list string) : bool :=
  existsb (String.eqb name) l.

(** ** Exceptions and the state of the run

    Python code mutates objects and may raise at any point; what was
    mutated before the exception stays mutated.  A computation takes the
    state and yields the new state with an exception or a result. *)

Inductive exn : Type :=
| AttributeError (what : string)
| KeyError (key : string)
| IndexError
| TypeError (what : string)
| RuntimeError (msg : string)
| ValueError (msg : string)
| FileNotFoundError (path : string).

Definition M (St A : Type) : Type := St -> St * (exn + A).

Definition ret {St A} (a : A) : M St A := fun s => (s, inr a).
Definition raise {St A} (e : exn) : M St A := fun s => (s, inl e).
Definition bind {St A B} (m : M St A) (k : A -> M St B) : M St B :=
  fun s => match m s with
           | (s', inl e) => (s', inl e)
           | (s', inr a) => k a s'
           end.
Definition get {St} : M St St := fun s => (s, inr s).
Definition put {St} (s : St) : M St unit := fun _ => (s, inr tt).
Definition lift {St A} (r : exn + A) : M St A := fun s => (s, r).

Arguments bind {St A B} m k s : simpl never.

Notation "'let*' x ':=' c 'in' k" := (bind c (fun x => k))
  (at level 10, x name, c at level 100, k at level 200).
Notation "c ';;;' k" := (bind c (fun _ => k))
  (at level 100, k at level 200, right associativity).

(** [getattr(node, f)] on a field. *)
Definition getattr (node : value) (f : string) : exn + value :=
  match node with
  | VAst _ fields _ =>
      match assoc f fields with
      | Some v => inr v
      | None => inl (AttributeError f)
      end
  | _ => inl (AttributeError f)
  end.

(** [setattr(node, f, v)] on a field. *)
Definition setattr (node : value) (f : string) (v : value) : value :=
  match node with
  | VAst cls fields attrs => VAst cls (assoc_set f v fields) attrs
  | _ => node
  end.

(** [hasattr(node, a)] for an attribute that is not a field. *)
Definition hasattr (node : value) (a : string) : bool :=
  match node with
  | VAst _ fields attrs =>
      mem a attrs || bool_decide (is_Some (assoc a fields))
  | _ => false
  end.

(** ** [ast.NodeTransformer.generic_visit]

    The loop over a list field: every item that is a node is visited;
    a [None] result drops the item, a node result takes its place, and
    any other result is spliced in with [list.extend]. *)

Fixpoint chars (s : string) : list value :=
  match s with
  | EmptyString => []
  | String c s' => VStr (String c "") :: chars s'
  end.

(** What [new_values.extend(r)] adds for a result [r] that is neither
    [None] nor a node: the items of a list, the characters of a string;
    an integer cannot be iterated. *)
Definition extend_with (r : value) : exn + list value :=
  match r with
  | VList l => inr l
  | VStr s => inr (chars s)
  | VInt _ => inl (TypeError "'int' object is not iterable")
  | VNone | VAst _ _ _ => inl (TypeError "object is not iterable")
  end.

(** The fields that the abstract grammar of Python marks as optional
    ([Parser/Python.asdl], Python 3.8 to 3.13), by node class.  The class
    of the node gives each of them the default [None]: once the
    attribute is deleted from a node, reading it yields [None] again,
    whereas a field that is not optional is gone and reading it raises
    [AttributeError].  ([FormattedValue.conversion], optional up to
    Python 3.9 only, holds an integer and is left out.) *)
Definition optional_fields : list (string * list string) :=
  [("FunctionDef", ["returns"; "type_comment"]);
   ("AsyncFunctionDef", ["returns"; "type_comment"]);
   ("Return", ["value"]);
   ("Assign", ["type_comment"]);
   ("AnnAssign", ["value"]);
   ("For", ["type_comment"]);
   ("AsyncFor", ["type_comment"]);
   ("With", ["type_comment"]);
   ("AsyncWith", ["type_comment"]);
   ("Raise", ["exc"; "cause"]);
   ("Assert", ["msg"]);
   ("ImportFrom", ["module"; "level"]);
   ("Yield", ["value"]);
   ("FormattedValue", ["format_spec"]);
   ("Constant", ["kind"]);
   ("Slice", ["lower"; "upper"; "step"]);
   ("ExceptHandler", ["type"; "name"]);
   ("arguments", ["vararg"; "kwarg"]);
   ("arg", ["annotation"; "type_comment"]);
   ("keyword", ["arg"]);
   ("alias", ["asname"]);
   ("withitem", ["optional_vars"]);
   ("match_case", ["guard"]);
   ("MatchMapping", ["rest"]);
   ("MatchStar", ["name"]);
   ("MatchAs", ["pattern"; "name"]);
   ("TypeVar", ["bound"; "default_value"]);
   ("ParamSpec", ["default_value"]);
   ("TypeVarTuple", ["default_value"])].

Definition optional_field (cls field : string) : bool :=
  match assoc cls optional_fields with
  | Some fields => mem field fields
  | None => false
  end.

(** What [generic_visit] does with the result of the visit of a node
    held by the field [field] of a node of class [cls], given the fields
    that follow: [delattr(node, field)] when the result is [None], after
    which an optional field reads [None] and any other field is missing;
    [setattr(node, field, new_node)] otherwise. *)
Definition replace_field (cls field : string) (new_node : value)
  (rest : list (string * value)) : list (string * value) :=
  match new_node with
  | VNone => if optional_field cls field then (field, VNone) :: rest else rest
  | _ => (field, new_node) :: rest
  end.

(** A handler or hook: it receives the node and returns the object that
    takes its place. *)
Abbreviation handler St := (value -> M St value) (only parsing).

Section Traversal.
Context {St : Type}.

Definition visit_items (vis : value -> M St value)
  : list value -> M St (list value) :=
  fix go (old_value : list value) : M St (list value) :=
    match old_value with
    | [] => ret []
    | value :: rest =>
        match value with
        | VAst _ _ _ =>
            let* r := vis value in
            match r with
            | VNone => go rest
            | VAst _ _ _ =>
                let* new_values := go rest in ret (r :: new_values)
            | _ =>
                let* ext := lift (extend_with r) in
                let* new_values := go rest in ret (ext ++ new_values)
            end
        | _ => let* new_values := go rest in ret (value :: new_values)
        end
    end.

(** The loop over [iter_fields(node)] for a node of class [cls]: a list
    field is rebuilt in place, a node field is replaced by the visit's
    result, or deleted when the result is [None], and anything else is
    left alone. *)
Definition visit_fields (vis : value -> M St value) (cls : string)
  : list (string * value) -> M St (list (string * value)) :=
  fix go (fs : list (string * value)) : M St (list (string * value)) :=
    match fs with
    | [] => ret []
    | (field, old_value) :: rest =>
        match old_value with
        | VList items =>
            let* new_values := visit_items vis items in
            let* rest' := go rest in
            ret ((field, VList new_values) :: rest')
        | VAst _ _ _ =>
            let* new_node := vis old_value in
            let* rest' := go rest in
            ret (replace_field cls field new_node rest')
        | _ => let* rest' := go rest in ret ((field, old_value) :: rest')
        end
    end.

(** [generic_visit(node)], given the [visit] it calls on the children;
    an object that is not a node has no [_fields]. *)
Definition generic_visit_with (vis : value -> M St value) (node : value)
  : M St value :=
  match node with
  | VAst cls fields attrs =>
      let* fields' := visit_fields vis cls fields in
      ret (VAst cls fields' attrs)
  | _ => raise (AttributeError "_fields")
  end.

(** ** [class Rewriter(NodeTransformer)]

    [targets] are installed as [visit_<name>] attributes; the hooks
    are kept in two tables.  A handler receives the node and returns
    the object that takes its place. *)

Record Rewriter : Type := mkRewriter {
  targets : gmap string (handler St);
  pre_hooks : gmap string (handler St);
  post_hooks : gmap string (handler St)
}.

(** [self.pre_hooks[node_name](node)]: the hook's result is dropped. *)
Definition run_pre_hook (rw : Rewriter) (node : value) : M St unit :=
  match pre_hooks rw !! class_name node with
  | Some hook => hook node ;;; ret tt
  | None => ret tt
  end.

(** [node = self.post_hooks[node_name](node)] *)
Definition run_post_hook (rw : Rewriter) (node_name : string)
  (node : value) : M St value :=
  match post_hooks rw !! node_name with
  | Some hook => hook node
  | None => ret node
  end.

Fixpoint visit (rw : Rewriter) (node : value) {struct node} : M St value :=
  let node_name := class_name node in
  run_pre_hook rw node ;;;
  match node with
  | VNone => ret node
  | _ =>
      let* node' :=
        match targets rw !! node_name with
        | Some visitor => visitor node
        | None => generic_visit_with (visit rw) node
        end in
      run_post_hook rw node_name node'
  end.

(** What the loop over a list does after a first part of the list has
    been visited with outcome [r]: it goes on with [rest]. *)
Definition then_items (vis : value -> M St value) (rest : list value)
  (r : St * (exn + list value)) : St * (exn + list value) :=
  match r with
  | (s1, inl e) => (s1, inl e)
  | (s1, inr new1) =>
      match visit_items vis rest s1 with
      | (s2, inl e) => (s2, inl e)
      | (s2, inr new2) => (s2, inr (new1 ++ new2))
      end
  end.

Definition generic_visit (rw : Rewriter) : value -> M St value :=
  generic_visit_with (visit rw).

(** [getattr(self, "visit_" + node_name, self.generic_visit)]: the
    [visit_<name>] attributes are those that [__init__] installs from
    [targets].  ([ast.NodeVisitor] brings none of its own, but for the
    [visit_Constant] of Python 3.8 to 3.13, which reads the value of a
    [Constant] node and ends in [generic_visit] unless a handler is
    installed under the former name of that kind of constant; see
    [former_constant_kinds] below.  [dispatch] is the lookup for the
    rewriters that install no such handler, as those of the generators,
    on trees whose constants hold their value.) *)
Definition dispatch (rw : Rewriter) (node : value) : M St value :=
  match targets rw !! class_name node with
  | Some visitor => visitor node
  | None => generic_visit rw node
  end.

End Traversal.

Arguments Rewriter : clear implicits.

(** ** Induction over syntax trees

    [value] is nested through [list] and pairs, so the induction
    principle carries the hypothesis for every item of a list and every
    field of a node. *)

Section ValueInd.
Variable P : value -> Prop.
Hypothesis HNone : P VNone.
Hypothesis HStr : forall s, P (VStr s).
Hypothesis HInt : forall z, P (VInt z).
Hypothesis HList : forall items, Forall P items -> P (VList items).
Hypothesis HAst : forall cls fields attrs,
    Forall (fun fv => P (snd fv)) fields -> P (VAst cls fields attrs).

Fixpoint value_ind (v : value) : P v :=
  match v with
  | VNone => HNone
  | VStr s => HStr s
  | VInt z => HInt z
  | VList items =>
      HList items
        ((fix go (l : list value) : Forall P l :=
            match l with
            | [] => @List.Forall_nil _ P
            | x :: l' => @List.Forall_cons _ P x l' (value_ind x) (go l')
            end) items)
  | VAst cls fields attrs =>
      HAst cls fields attrs
        ((fix go (l : list (string * value))
            : Forall (fun fv => P (snd fv)) l :=
            match l with
            | [] => @List.Forall_nil _ _
            | fv :: l' =>
                @List.Forall_cons _ (fun fv => P (snd fv)) fv l'
                  (value_ind (snd fv)) (go l')
            end) fields)
  end.
End ValueInd.

(** ** Strings and paths *)

Fixpoint occurs (sep : ascii) (s : string) : bool :=
  match s with
  | EmptyString => false
  | String c s' => Ascii.eqb c sep || occurs sep s'
  end.

(** [s.split(sep)[-1]]: what follows the last separator. *)
Fixpoint after_last (sep : ascii) (s : string) : string :=
  match s with
  | EmptyString => EmptyString
  | String c s' =>
      if Ascii.eqb c sep || occurs sep s' then after_last sep s' else s
  end.

(** [osp.basename] *)
Definition basename (path : string) : string := after_last "/"%char path.

(** [osp.join(dir, filename)] for a file name without a leading slash. *)
Definition osp_join (dir filename : string) : string :=
  if String.eqb dir "" then filename
  else if String.eqb (after_last "/"%char dir) "" then dir +:+ filename
  else dir +:+ "/" +:+ filename.

(** ** The parser objects

    Module [codeslim.parse] is not among the sources; the generators
    only read attributes of its objects, which are taken as data.  For a
    definition in [_local_defs] only its [node] is kept, for [_calls]
    only the keys; [get_target_import_names] is the list the method of
    that name returns. *)

Record DefaultASTParser : Type := mkParser {
  file_name : string;
  ast : value;
  _local_defs : list (string * value);
  _calls : list string;
  _to_merge_classes : list (string * list string);
  get_target_import_names : list string
}.

Definition set_ast (t : value) (p : DefaultASTParser) : DefaultASTParser :=
  mkParser (file_name p) t (_local_defs p) (_calls p) (_to_merge_classes p)
    (get_target_import_names p).

Definition set_local_def (name : string) (n : value) (p : DefaultASTParser)
  : DefaultASTParser :=
  mkParser (file_name p) (ast p) (assoc_set name n (_local_defs p)) (_calls p)
    (_to_merge_classes p) (get_target_import_names p).

(** [d[k]] with its [KeyError]. *)
Definition dict_get {A : Type} (k : string) (d : list (string * A)) : exn + A :=
  match assoc k d with
  | Some x => inr x
  | None => inl (KeyError k)
  end.

(** [k in d] *)
Definition has_key {A : Type} (k : string) (d : list (string * A)) : bool :=
  mem k (map fst d).

(** The position of the first binding of [k]: parser objects are shared
    between [self.parsers], [self.cur_parser] and [self.base_parsers],
    so the latter two refer to them by their position in [self.parsers]. *)
Fixpoint index_of {A : Type} (k : string) (d : list (string * A)) : option nat :=
  match d with
  | [] => None
  | (k', _) :: d' =>
      if String.eqb k k' then Some 0 else S <$> index_of k d'
  end.

(** ** [_ClassVisitor(NodeVisitor)]

    [ast.NodeVisitor.generic_visit] calls [visit] on every node found in
    a field or in a list field; [visit_FunctionDef] records the name and
    goes on into the function.  Only the keys of [methods] are read
    afterwards.  [ast] gives every definition a string for its name; a
    name of another type is reported as a [TypeError]. *)

Definition get_name (node : value) : exn + string :=
  match getattr node "name" with
  | inr (VStr s) => inr s
  | inr _ => inl (TypeError "name")
  | inl e => inl e
  end.

Definition each_item {St} (vis : value -> M St unit) : list value -> M St unit :=
  fix go (l : list value) : M St unit :=
    match l with
    | [] => ret tt
    | item :: rest =>
        match item with
        | VAst _ _ _ => vis item ;;; go rest
        | _ => go rest
        end
    end.

Definition each_field {St} (vis : value -> M St unit)
  : list (string * value) -> M St unit :=
  fix go (fs : list (string * value)) : M St unit :=
    match fs with
    | [] => ret tt
    | (_, value) :: rest =>
        match value with
        | VList l => each_item vis l ;;; go rest
        | VAst _ _ _ => vis value ;;; go rest
        | _ => go rest
        end
    end.

(** [methods[name] = node] on the list of keys. *)
Definition add_key (name : string) (keys : list string) : list string :=
  if mem name keys then keys else keys ++ [name].

Fixpoint class_visit (node : value) {struct node} : M (list string) unit :=
  match node with
  | VAst cls fields _ =>
      (if String.eqb cls "FunctionDef"
       then let* name := lift (get_name node) in
            let* methods := get in put (add_key name methods)
       else ret tt) ;;;
      each_field class_visit fields
  | _ => raise (AttributeError "_fields")
  end.

(** [_ClassVisitor(cls_node).methods] *)
Definition _ClassVisitor (cls_node : value) : exn + list string :=
  match class_visit cls_node [] with
  | (_, inl e) => inl e
  | (methods, inr _) => inr methods
  end.

(** ** [class ClassMerging] *)

Module ClassMerging.

Record t : Type := mk {
  cls_node : value;
  methods : list string;
  cur_base : option string
}.

Definition set_cls_node (n : value) (cm : t) : t :=
  mk n (methods cm) (cur_base cm).
Definition set_cur_base (b : string) (cm : t) : t :=
  mk (cls_node cm) (methods cm) (Some b).

(** [self.cls_node.body.append(node)] *)
Definition body_append (cls : value) (node : value) : exn + value :=
  match getattr cls "body" with
  | inr (VList body) => inr (setattr cls "body" (VList (body ++ [node])))
  | inr _ => inl (AttributeError "append")
  | inl e => inl e
  end.

Definition _merge_methods (node : value) : M t value :=
  let* name := lift (get_name node) in
  let* self := get in
  if negb (mem name (methods self)) then
    let* cls := lift (body_append (cls_node self) node) in
    put (set_cls_node cls self) ;;; ret node
  else ret node.

Definition _rewrite_name (node : value) : M t value := ret node.

Definition rewriter : Rewriter t :=
  mkRewriter
    {[ "FunctionDef" := _merge_methods; "Name" := _rewrite_name ]} ∅ ∅.

(** [__init__]: the class node is looked up in the parser of the file
    being generated and its methods are collected once. *)
Definition init (parser : DefaultASTParser) (class_name : string) : exn + t :=
  match dict_get class_name (_local_defs parser) with
  | inl e => inl e
  | inr node =>
      match _ClassVisitor node with
      | inl e => inl e
      | inr ms => inr (mk node ms None)
      end
  end.

(** [merge]: for every base in the order of [base_parsers], the bases of
    the class become those of the base and the base is visited; the
    visit's result is dropped. *)
Fixpoint merge (base_parsers : list (string * DefaultASTParser)) : M t unit :=
  match base_parsers with
  | [] => ret tt
  | (base_name, base_parser) :: rest =>
      (let* self := get in put (set_cur_base base_name self)) ;;;
      let* base_node := lift (dict_get base_name (_local_defs base_parser)) in
      let* bases := lift (getattr base_node "bases") in
      (let* self := get in
       put (set_cls_node (setattr (cls_node self) "bases" bases) self)) ;;;
      visit rewriter base_node ;;;
      merge rest
  end.

End ClassMerging.

(** ** The generator object and the target directory

    [extern_used], [local_used], [class_merge_info] and [cur_parser] are
    only set by [_preprocess], and [base_parsers] only by the class hook
    when a class is merged: until then the attribute does not exist and
    reading it raises [AttributeError].  [files] is the file system, from
    path to contents. *)

Record Gen : Type := mkGen {
  target_dir : string;
  parsers : list (string * DefaultASTParser);
  module_mapper : gmap string string;
  merge_level : option Z;
  imports_info : list (string * list string);
  relation : list (string * list string);
  extern_used : option (list string);
  local_used : option (list string);
  class_merge_info : option (list (string * list (string * string)));
  cur_parser : option nat;
  base_parsers : option (list (string * nat));
  files : gmap string string
}.

Definition set_parsers (ps : list (string * DefaultASTParser)) (g : Gen) : Gen :=
  mkGen (target_dir g) ps (module_mapper g) (merge_level g) (imports_info g)
    (relation g) (extern_used g) (local_used g) (class_merge_info g)
    (cur_parser g) (base_parsers g) (files g).

Definition set_preprocessed (ext loc : list string)
  (info : list (string * list (string * string))) (cur : nat) (g : Gen) : Gen :=
  mkGen (target_dir g) (parsers g) (module_mapper g) (merge_level g)
    (imports_info g) (relation g) (Some ext) (Some loc) (Some info) (Some cur)
    (base_parsers g) (files g).

Definition set_base_parsers (bp : list (string * nat)) (g : Gen) : Gen :=
  mkGen (target_dir g) (parsers g) (module_mapper g) (merge_level g)
    (imports_info g) (relation g) (extern_used g) (local_used g)
    (class_merge_info g) (cur_parser g) (Some bp) (files g).

Definition set_imports_info (info : list (string * list string)) (g : Gen)
  : Gen :=
  mkGen (target_dir g) (parsers g) (module_mapper g) (merge_level g) info
    (relation g) (extern_used g) (local_used g) (class_merge_info g)
    (cur_parser g) (base_parsers g) (files g).

Definition set_files (fs : gmap string string) (g : Gen) : Gen :=
  mkGen (target_dir g) (parsers g) (module_mapper g) (merge_level g)
    (imports_info g) (relation g) (extern_used g) (local_used g)
    (class_merge_info g) (cur_parser g) (base_parsers g) fs.

(** Changes the parser object at position [idx]. *)
Definition alter_parser (f : DefaultASTParser -> DefaultASTParser) (idx : nat)
  (g : Gen) : Gen :=
  set_parsers (alter (fun kp => (fst kp, f (snd kp))) idx (parsers g)) g.

Definition parser_at (idx : nat) : M Gen DefaultASTParser :=
  fun g => match parsers g !! idx with
           | Some kp => (g, inr (snd kp))
           | None => (g, inl IndexError)
           end.

(** Reading an attribute of [self] that may not have been set. *)
Definition self_attr {A} (proj : Gen -> option A) (name : string) : M Gen A :=
  fun g => match proj g with
           | Some x => (g, inr x)
           | None => (g, inl (AttributeError name))
           end.

(** [name in l] where [name] is any object and [l] holds strings. *)
Definition vmem (name : value) (l : list string) : bool :=
  match name with
  | VStr s => mem s l
  | _ => false
  end.

(** Truth value of an object in [a or b]. *)
Definition truthy (v : value) : bool :=
  match v with
  | VNone => false
  | VStr s => negb (String.eqb s "")
  | VInt z => negb (Z.eqb z 0)
  | VList l => match l with [] => false | _ => true end
  | VAst _ _ _ => true
  end.

(** [seq[0]] *)
Definition first_item (v : value) : exn + value :=
  match v with
  | VList (x :: _) => inr x
  | VList [] => inl IndexError
  | VStr (String c _) => inr (VStr (String c ""))
  | VStr EmptyString => inl IndexError
  | _ => inl (TypeError "object is not subscriptable")
  end.

Fixpoint foldM {St A B} (f : B -> A -> M St B) (l : list A) (b : B) : M St B :=
  match l with
  | [] => ret b
  | a :: l' => let* b' := f b a in foldM f l' b'
  end.

Fixpoint for_each {St A} (l : list A) (body : A -> M St unit) : M St unit :=
  match l with
  | [] => ret tt
  | a :: l' => body a ;;; for_each l' body
  end.

(** *** [FileLevelCodeGenerator] *)

(** [_get_imports_info]: the reverse index, from a file to the files
    that import from it.  It is a [defaultdict(list)]: a file that
    nobody imports from has no entry and reads as the empty list, and
    reading it with [imports_info[file]] makes the entry
    ([imports_info_read] below). *)
Definition _get_imports_info (relation : list (string * list string))
  : list (string * list string) :=
  fold_left
    (fun extra_info '(file, target_file) =>
       fold_left
         (fun extra_info f =>
            assoc_set f (default [] (assoc f extra_info) ++ [file]) extra_info)
         target_file extra_info)
    relation [].

Definition rewrite_imports (node : value) : M Gen value :=
  if String.eqb (class_name node) "ImportFrom" && hasattr node "is_target" then
    let* module_name := lift (getattr node "module") in
    let* self := get in
    match module_name with
    | VStr m =>
        match module_mapper self !! m with
        | Some mapped => ret (setattr node "module" (VStr mapped))
        | None =>
            let module_name := after_last "."%char m in
            ret (setattr (setattr node "level" (VInt 0)) "module"
                   (VStr module_name))
        end
    | VList _ => raise (TypeError "unhashable type: 'list'")
    | _ => raise (AttributeError "split")
    end
  else ret node.

(** *** [SegmentCodeGenerator] *)

Definition _analyze_local_calls (parser : DefaultASTParser) : list string :=
  let calls := _calls parser in
  let defs := _local_defs parser in
  match calls, defs with
  | _ :: _, _ :: _ => List.filter (fun name => has_key name defs) calls
  | _, _ => []
  end.

Definition rewrite_defs (node : value) : M Gen value :=
  let* name := lift (getattr node "name") in
  let* extern := self_attr extern_used "extern_used" in
  if negb (vmem name extern) then
    let* local := self_attr local_used "local_used" in
    if negb (vmem name local) then ret REMOVE_NODE else ret node
  else ret node.

(** [target_files[m][base] = path] on a [defaultdict(OrderedDict)] *)
Definition merge_info_set (m base path : string)
  (target_files : list (string * list (string * string)))
  : list (string * list (string * string)) :=
  assoc_set m (assoc_set base path (default [] (assoc m target_files)))
    target_files.

(** The generator once [self.imports_info[file]] has been evaluated:
    [imports_info] is a [defaultdict(list)], in which the lookup of a
    file that has no entry creates one, with an empty list. *)
Definition imports_info_read (file : string) (g : Gen) : Gen :=
  match assoc file (imports_info g) with
  | Some _ => g
  | None => set_imports_info (imports_info g ++ [(file, [])]) g
  end.

(** [self.imports_info[file]] *)
Definition imports_info_at (file : string) : M Gen (list string) :=
  fun g => (imports_info_read file g,
            inr (default [] (assoc file (imports_info g)))).

(** [_preprocess] of the segment-level generator.  The four attributes
    are assigned at the end, when both loops are through; the entry that
    the second loop may add to [imports_info] is there as soon as the
    loop starts. *)
Definition segment_preprocess (file : string) (idx : nat) : M Gen unit :=
  let* parser := parser_at idx in
  let merge_class := _to_merge_classes parser in
  let* self := get in
  let* targets_of_file := lift (dict_get file (relation self)) in
  let* target_files :=
    foldM (fun target_files path =>
             let* p := lift (dict_get path (parsers self)) in
             ret (fold_left
                    (fun tf '(m, bases) =>
                       fold_left
                         (fun tf base =>
                            if has_key base (_local_defs p)
                            then merge_info_set m base path tf else tf)
                         bases tf)
                    merge_class target_files))
      targets_of_file [] in
  let* importers := imports_info_at file in
  let* extern_uesd :=
    foldM (fun ext i =>
             let* p := lift (dict_get i (parsers self)) in
             ret (ext ++ get_target_import_names p))
      importers [] in
  let* self := get in
  put (set_preprocessed extern_uesd (_analyze_local_calls parser)
         target_files idx self).

(** [{k: self.parsers[info[k]] for k in info}] *)
Definition resolve_bases (self : Gen) (info : list (string * string))
  : exn + list (string * nat) :=
  fold_right
    (fun '(k, path) acc =>
       match index_of path (parsers self), acc with
       | None, _ => inl (KeyError path)
       | _, inl e => inl e
       | Some i, inr l => inr ((k, i) :: l)
       end)
    (inr []) info.

(** The parser objects behind [base_parsers], as they stand. *)
Definition deref_bases (self : Gen) (bp : list (string * nat))
  : list (string * DefaultASTParser) :=
  omap (fun '(k, i) => (fun kp => (k, snd kp)) <$> parsers self !! i) bp.

(** [ClassMerging(self.cur_parser, rewrite_parsers, node.name).merge()]:
    the class node of the current parser is changed in place, also when
    the merge stops on an exception.  The merge works on the node that
    [_local_defs] holds for the class, and that is where its effect is
    kept; a merge changes neither the kind nor the name of the class,
    which is all that [rewrite_defs] reads of the node in the tree. *)
Definition run_merge (cur : nat) (bp : list (string * nat)) (name : string)
  : M Gen unit :=
  let* parser := parser_at cur in
  let* cm := lift (ClassMerging.init parser name) in
  fun self =>
    let '(cm', r) := ClassMerging.merge (deref_bases self bp) cm in
    (alter_parser (set_local_def name (ClassMerging.cls_node cm')) cur self, r).

Definition _classdef_hook (node : value) : M Gen value :=
  let* name := lift (getattr node "name") in
  let* info_all := self_attr class_merge_info "class_merge_info" in
  match name with
  | VStr name =>
      match assoc name info_all with
      | None => ret node
      | Some info =>
          let* self := get in
          let* rewrite_parsers := lift (resolve_bases self info) in
          put (set_base_parsers rewrite_parsers self) ;;;
          let* cur := self_attr cur_parser "cur_parser" in
          run_merge cur rewrite_parsers name ;;;
          ret REMOVE_NODE
      end
  | VList _ => raise (TypeError "unhashable type: 'list'")
  | _ => ret node
  end.

Definition _rewrite_class_imports (node : value) : M Gen value :=
  if String.eqb (class_name node) "ImportFrom" then
    let* names := lift (getattr node "names") in
    let* first := lift (first_item names) in
    let* asname := lift (getattr first "asname") in
    let* name := (if truthy asname then ret asname
                  else lift (getattr first "name")) in
    let* bases := self_attr base_parsers "base_parsers" in
    match name with
    | VList _ => raise (TypeError "unhashable type: 'list'")
    | _ => if vmem name (map fst bases) then ret REMOVE_NODE else ret node
    end
  else
    (* [raise NotImplemented]: the constant is not an exception class *)
    raise (TypeError "exceptions must derive from BaseException").

(** *** The two generators *)

Inductive GeneratorClass : Type :=
| FileLevelCodeGenerator
| SegmentCodeGenerator.

(** [rewrite_funcs.update(custom_rewriter)] *)
Definition update_funcs (rewrite_funcs : gmap string (handler Gen))
  (custom_rewriter : option (gmap string (handler Gen)))
  : gmap string (handler Gen) :=
  match custom_rewriter with
  | Some custom => custom ∪ rewrite_funcs
  | None => rewrite_funcs
  end.

Definition _build_rewriter (cls : GeneratorClass)
  (custom_rewriter : option (gmap string (handler Gen))) : Rewriter Gen :=
  match cls with
  | FileLevelCodeGenerator =>
      mkRewriter
        (update_funcs
           {[ "Import" := rewrite_imports; "ImportFrom" := rewrite_imports ]}
           custom_rewriter)
        ∅ ∅
  | SegmentCodeGenerator =>
      mkRewriter
        (update_funcs
           {[ "Import" := rewrite_imports; "ImportFrom" := rewrite_imports;
              "FunctionDef" := rewrite_defs; "ClassDef" := rewrite_defs ]}
           custom_rewriter)
        {[ "ClassDef" := _classdef_hook ]} ∅
  end.

(** What [__init__] reads of the [Parser] it is given. *)
Record Parser : Type := mkCorpus {
  get_parsers : list (string * DefaultASTParser);
  relations : list (string * list string)
}.

(** [FileLevelCodeGenerator.__init__], which [SegmentCodeGenerator]
    inherits.  [get_target_merge_class] is the method of that name of
    the parser objects and [fs] the file system at that time.  The
    rewriter is not kept in the state: it is
    [_build_rewriter cls custom_rewriter] throughout the run. *)
Definition __init__ (get_target_merge_class : DefaultASTParser -> DefaultASTParser)
  (cls : GeneratorClass) (target_dir : string) (parser : Parser)
  (module_mapper : option (gmap string string)) (class_merge_level : option Z)
  (fs : gmap string string) : exn + Gen :=
  match cls, class_merge_level with
  | FileLevelCodeGenerator, Some _ =>
      inl (ValueError "File level code slim do not support for class merging.")
  | _, _ =>
      let parsers :=
        match class_merge_level with
        | Some level =>
            if Z.eqb level 0 then get_parsers parser
            else map (fun kp => (fst kp, get_target_merge_class (snd kp)))
                   (get_parsers parser)
        | None => get_parsers parser
        end in
      inr (mkGen target_dir parsers (default ∅ module_mapper) class_merge_level
             (_get_imports_info (relations parser)) (relations parser)
             None None None None None fs)
  end.

(** The object a tree variable refers to after [rewriter.visit(tree)],
    whose result the generators drop: the rewriter changes the tree in
    place.  [generic_visit] and the generators' own handlers return the
    node they were given, or the sentinel without touching it. *)
Definition in_place (old result : value) : value :=
  match result with
  | VAst _ _ _ => result
  | _ => old
  end.

(** [rewriter.visit(parser.ast)] for the parser at position [idx].  When
    the visit returns, the parser holds the tree as the traversal has
    rebuilt it.  When the visit raises, the state is the one in which it
    raised, and the parser keeps here the tree of before the visit; the
    Python objects hold by then what the traversal has assigned to the
    lists and fields it was through with.  The exception ends the run
    and nothing reads that tree any more: of a pass that raises, the
    statements below tell the exception, the files and the other
    parsers, and the tree only where the traversal assigns nothing but
    what was there before it raises. *)
Definition visit_tree (rw : Rewriter Gen) (idx : nat) : M Gen unit :=
  let* parser := parser_at idx in
  let* result := visit rw (ast parser) in
  let* self := get in
  put (alter_parser (set_ast (in_place (ast parser) result)) idx self).

Definition _preprocess (cls : GeneratorClass) (file : string) (idx : nat)
  : M Gen unit :=
  match cls with
  | FileLevelCodeGenerator => ret tt
  | SegmentCodeGenerator => segment_preprocess file idx
  end.

(** The rewriter that [SegmentCodeGenerator._postprocess] builds. *)
Definition class_imports_rewriter : Rewriter Gen :=
  mkRewriter
    {[ "ImportFrom" := _rewrite_class_imports;
       "Import" := _rewrite_class_imports ]} ∅ ∅.

Definition _postprocess (cls : GeneratorClass) : M Gen unit :=
  match cls with
  | FileLevelCodeGenerator => ret tt
  | SegmentCodeGenerator =>
      let rewriter := class_imports_rewriter in
      let* cur := self_attr cur_parser "cur_parser" in
      visit_tree rewriter cur
  end.

Definition _is_file_exist (self : Gen) (dir filename : string) : bool :=
  bool_decide (is_Some (files self !! osp_join dir filename)).

Definition write_file (path contents : string) : M Gen unit :=
  let* self := get in put (set_files (<[path := contents]> (files self)) self).

Definition _generate_from_str (filename : string)
  (contends : option (list string)) : M Gen unit :=
  write_file filename
    (CODEGEN_PREFIX +:+ String.concat "" (default [] contends)).

Definition generate_init (target_path : string) (force : bool) : M Gen unit :=
  let* self := get in
  if negb force && _is_file_exist self target_path "__init__.py"
  then raise (RuntimeError "__init__.py exists!")
  else _generate_from_str (osp_join target_path "__init__.py") None.

Definition copy_file (source_file target_dir : string) (force : bool)
  : M Gen unit :=
  let* self := get in
  if negb force && _is_file_exist self target_dir (basename source_file)
  then raise (RuntimeError (source_file +:+ " exists!"))
  else match files self !! source_file with
       | Some contents =>
           write_file (osp_join target_dir (basename source_file)) contents
       | None => raise (FileNotFoundError source_file)
       end.

Section Generate.
(** [astor.to_source], the printer of syntax trees. *)
Variable to_source : value -> string.

(** [open(filename, "w")] truncates whatever the file held. *)
Definition _generate_from_ast (filename : string) (tree : value)
  : M Gen unit :=
  let source_code := to_source tree in
  write_file filename (CODEGEN_PREFIX +:+ source_code).

(** The body of the loop of [generate], run inside [cd(target_dir)]:
    a relative name is opened under the target directory. *)
Definition generate_file (cls : GeneratorClass)
  (custom_rewriter : option (gmap string (handler Gen))) (idx : nat)
  : M Gen unit :=
  let* self := get in
  match parsers self !! idx with
  | None => raise IndexError
  | Some (file, parser) =>
      let file_name := basename (file_name parser) in
      if String.eqb file_name "__init__.py" then ret tt
      else
        _preprocess cls file idx ;;;
        visit_tree (_build_rewriter cls custom_rewriter) idx ;;;
        _postprocess cls ;;;
        let* parser := parser_at idx in
        let* self := get in
        _generate_from_ast (osp_join (target_dir self) file_name)
          (ast parser)
  end.

(** [generate]: the loop over [self.parsers.items()].  [makedirs]
    only creates the directory, which [files] does not record. *)
Definition generate (cls : GeneratorClass)
  (custom_rewriter : option (gmap string (handler Gen))) : M Gen unit :=
  let* self := get in
  for_each (seq 0 (length (parsers self)))
    (generate_file cls custom_rewriter).

End Generate.

(** ** Syntax trees as [ast.parse] builds them *)

Module Ast.
Definition Module (body : list value) : value :=
  VAst "Module" [("body", VList body); ("type_ignores", VList [])] [].
Definition arguments : value :=
  VAst "arguments"
    [("posonlyargs", VList []); ("args", VList []); ("vararg", VNone);
     ("kwonlyargs", VList []); ("kw_defaults", VList []); ("kwarg", VNone);
     ("defaults", VList [])] [].
Definition FunctionDef (name : string) (body : list value) : value :=
  VAst "FunctionDef"
    [("name", VStr name); ("args", arguments); ("body", VList body);
     ("decorator_list", VList []); ("returns", VNone);
     ("type_comment", VNone)] ["lineno"].
Definition AsyncFunctionDef (name : string) (body : list value) : value :=
  VAst "AsyncFunctionDef"
    [("name", VStr name); ("args", arguments); ("body", VList body);
     ("decorator_list", VList []); ("returns", VNone);
     ("type_comment", VNone)] ["lineno"].
Definition Name (id : string) : value :=
  VAst "Name" [("id", VStr id); ("ctx", VAst "Load" [] [])] ["lineno"].
Definition ClassDef (name : string) (bases : list string) (body : list value)
  : value :=
  VAst "ClassDef"
    [("name", VStr name); ("bases", VList (map Name bases));
     ("keywords", VList []); ("body", VList body);
     ("decorator_list", VList [])] ["lineno"].
Definition alias (name : string) : value :=
  VAst "alias" [("name", VStr name); ("asname", VNone)] [].
Definition Import (names : list string) : value :=
  VAst "Import" [("names", VList (map alias names))] ["lineno"].
(** [is_target] is the mark of an import from a corpus file. *)
Definition ImportFrom (module : value) (names : list string) (level : Z)
  (is_target : bool) : value :=
  VAst "ImportFrom"
    [("module", module); ("names", VList (map alias names));
     ("level", VInt level)]
    (if is_target then ["lineno"; "is_target"] else ["lineno"]).
Definition Pass : value := VAst "Pass" [] ["lineno"].
Definition Constant (v : value) : value :=
  VAst "Constant" [("value", v); ("kind", VNone)] ["lineno"].
Definition Return (v : value) : value :=
  VAst "Return" [("value", v)] ["lineno"].
Definition Expr (v : value) : value :=
  VAst "Expr" [("value", v)] ["lineno"].
End Ast.

(** ** Statements about the traversal *)

(** Deletion from a list field, for a rewriter and one of its nodes:
    whenever the handler registered for the node's kind returns the
    sentinel, the list rebuilt by the traversal is what the items before
    the node gave followed by what the items after it give. *)
Definition handler_sentinel_drops {St : Type} (rw : Rewriter St) (c : value)
  : Prop :=
  forall (h : handler St) before after s0 s1 s1' s2 s3 new1 new2,
    targets rw !! class_name c = Some h ->
    visit_items (visit rw) before s0 = (s1, inr new1) ->
    run_pre_hook rw c s1 = (s1', inr tt) ->
    h c s1' = (s2, inr REMOVE_NODE) ->
    visit_items (visit rw) after s2 = (s3, inr new2) ->
    visit_items (visit rw) (before ++ c :: after) s0 = (s3, inr (new1 ++ new2)).

(** An exception raised while a tree is rewritten: by a hook or the
    handler of the node itself, or below it, in a node that the
    structural recursion reaches after everything before it went well.
    [raises_in rw v s s' e]: starting the visit of [v] in state [s], the
    exception [e] is raised in state [s']. *)
Inductive raises_in {St : Type} (rw : Rewriter St)
  : value -> St -> St -> exn -> Prop :=
| raises_pre_hook v s s' e :
    run_pre_hook rw v s = (s', inl e) ->
    raises_in rw v s s' e
| raises_handler v (h : handler St) s s1 s' e :
    v <> REMOVE_NODE ->
    run_pre_hook rw v s = (s1, inr tt) ->
    targets rw !! class_name v = Some h ->
    h v s1 = (s', inl e) ->
    raises_in rw v s s' e
| raises_post_hook v s s1 s2 s' r e :
    v <> REMOVE_NODE ->
    run_pre_hook rw v s = (s1, inr tt) ->
    dispatch rw v s1 = (s2, inr r) ->
    run_post_hook rw (class_name v) r s2 = (s', inl e) ->
    raises_in rw v s s' e
| raises_item cls fields1 f before c after fields2 attrs s s1 s2 s3 s' e
    fields1' before' :
    run_pre_hook rw (VAst cls (fields1 ++ (f, VList (before ++ c :: after)) :: fields2) attrs) s
      = (s1, inr tt) ->
    targets rw !! cls = None ->
    visit_fields (visit rw) cls fields1 s1 = (s2, inr fields1') ->
    visit_items (visit rw) before s2 = (s3, inr before') ->
    is_ast c = true ->
    raises_in rw c s3 s' e ->
    raises_in rw
      (VAst cls (fields1 ++ (f, VList (before ++ c :: after)) :: fields2) attrs)
      s s' e
| raises_field cls fields1 f c fields2 attrs s s1 s2 s' e fields1' :
    run_pre_hook rw (VAst cls (fields1 ++ (f, c) :: fields2) attrs) s
      = (s1, inr tt) ->
    targets rw !! cls = None ->
    visit_fields (visit rw) cls fields1 s1 = (s2, inr fields1') ->
    is_ast c = true ->
    raises_in rw c s2 s' e ->
    raises_in rw (VAst cls (fields1 ++ (f, c) :: fields2) attrs) s s' e.

(** Failures staying within their file: every file of the run whose own
    generation goes through is written by the run, whatever happens to
    the other files. *)
Definition per_file_fatality (to_source : value -> string)
  (cls : GeneratorClass) (g : Gen) : Prop :=
  forall k file parser g',
    parsers g !! k = Some (file, parser) ->
    basename (file_name parser) <> "__init__.py" ->
    generate_file to_source cls None k g = (g', inr tt) ->
    is_Some (files (fst (generate to_source cls None g))
               !! osp_join (target_dir g) (basename (file_name parser))).

(** ** Statements about the generated trees *)

Definition is_import (cls : string) : bool :=
  String.eqb cls "Import" || String.eqb cls "ImportFrom".


(** [reaches v w]: the node [w] is [v] itself or a node below it, through
    fields that hold a node or a list of nodes. *)
Inductive reaches : value -> value -> Prop :=
| reaches_self cls fields attrs :
    reaches (VAst cls fields attrs) (VAst cls fields attrs)
| reaches_field cls fields attrs f c w :
    In (f, c) fields -> is_ast c = true -> reaches c w ->
    reaches (VAst cls fields attrs) w
| reaches_item cls fields attrs f items c w :
    In (f, VList items) fields -> In c items -> is_ast c = true ->
    reaches c w ->
    reaches (VAst cls fields attrs) w.




(** What [raise NotImplemented] raises. *)
Definition not_an_exception : exn :=
  TypeError "exceptions must derive from BaseException".





(** A function or class definition. *)
Definition is_def_class (cls : string) : bool :=
  String.eqb cls "FunctionDef" || String.eqb cls "ClassDef".

Definition is_def (v : value) : bool := is_def_class (class_name v).

(** The definitions at the top level of a module, in order. *)
Definition top_defs (tree : value) : list value :=
  match getattr tree "body" with
  | inr (VList body) => List.filter is_def body
  | _ => []
  end.




(** [name in self.extern_used or name in self.local_used] for the name of
    a definition. *)
Definition is_live (extern local : list string) (d : value) : bool :=
  match getattr d "name" with
  | inr name => vmem name extern || vmem name local
  | inl _ => false
  end.





(** What the hooks and handlers of the segment-level rewriter leave as
    it was: the lists set by [_preprocess], the current parser, and the
    key and tree of every parser. *)
Definition key_and_tree (kp : string * DefaultASTParser) : string * value :=
  (fst kp, ast (snd kp)).

Definition same_analysis (s s' : Gen) : Prop :=
  extern_used s' = extern_used s /\ local_used s' = local_used s
  /\ cur_parser s' = cur_parser s
  /\ map key_and_tree (parsers s') = map key_and_tree (parsers s).

(** ** Statements used along the traversal *)

(** A property of the children that the traversal reaches from a field:
    the node the field holds, or the items of the list it holds. *)
Definition at_children (P : value -> Prop) (fv : string * value) : Prop :=
  P (snd fv) /\
  match snd fv with
  | VList items => Forall P items
  | _ => True
  end.

(** A computation keeps a relation between the state it starts in and
    the state it ends in, whatever its outcome. *)
Definition preserves {St : Type} (Inv : St -> St -> Prop) {A : Type}
  (m : M St A) : Prop :=
  forall s s' r, m s = (s', r) -> Inv s s'.

(** Every handler and hook of the rewriter keeps the relation. *)
Definition all_preserve {St : Type} (Inv : St -> St -> Prop)
  (rw : Rewriter St) : Prop :=
  forall k (h : handler St),
    targets rw !! k = Some h \/ pre_hooks rw !! k = Some h
    \/ post_hooks rw !! k = Some h ->
    forall v, preserves Inv (h v).





(** ** Sample rewriters and trees *)

Module Examples.

Definition statement : value := Ast.Expr (Ast.Name "x").

Definition delete_it : handler unit := fun _ => ret REMOVE_NODE.
Definition put_back : handler unit := fun _ => ret statement.

(** Deletes every expression statement; the post-hook hands on what it
    is given. *)
Definition pass_on : handler unit := fun result => ret result.
Definition deleting_checked : Rewriter unit :=
  mkRewriter {[ "Expr" := delete_it ]} ∅ {[ "Expr" := pass_on ]}.

(** The same handler, with a post-hook on the same kind that returns the
    statement. *)
Definition restoring : Rewriter unit :=
  mkRewriter {[ "Expr" := delete_it ]} ∅ {[ "Expr" := put_back ]}.

(** A rewriter that records the steps it takes on expression statements
    and on [None]; its pre-hook returns the sentinel, like the class
    hook of the segment-level generator. *)
Definition record (step : string) (result : value) : M (list string) value :=
  fun steps => (steps ++ [step], inr result).

Definition recording : Rewriter (list string) :=
  mkRewriter
    {[ "Expr" := fun node => record "handler" node;
       "NoneType" := fun node => record "handler" node ]}
    {[ "Expr" := fun _ => record "pre-hook" REMOVE_NODE;
       "NoneType" := fun _ => record "pre-hook" REMOVE_NODE ]}
    {[ "Expr" := fun result => record "post-hook" result;
       "NoneType" := fun result => record "post-hook" result ]}.

(** A printer standing for [astor.to_source]. *)
Definition printer (tree : value) : string :=
  match tree with
  | VAst cls [] _ => cls
  | VAst cls ((_, VList body) :: _) _ =>
      cls +:+ ":" +:+ String.concat "," (map class_name body)
  | _ => class_name tree
  end.

(** A generator as [__init__] leaves it. *)
Definition generator (ps : list (string * DefaultASTParser))
  (mapper : gmap string string) (relations : list (string * list string))
  (fs : gmap string string) : Gen :=
  mkGen "out" ps mapper None (_get_imports_info relations) relations
    None None None None None fs.

(** [from pkg.util import helper], an import of a corpus file. *)
Definition helper_import : value :=
  Ast.ImportFrom (VStr "pkg.util") ["helper"] 0 true.

(** [from requests import get], an import of an external package. *)
Definition external_import : value :=
  Ast.ImportFrom (VStr "requests") ["get"] 0 false.

(** [from . import helper], marked as an import of a corpus file. *)
Definition relative_import : value :=
  Ast.ImportFrom VNone ["helper"] 1 true.

Definition util_mapping : gmap string string := {[ "pkg.util" := "util" ]}.

Definition train_tree : value :=
  Ast.Module
    [helper_import; Ast.Import ["os"];
     Ast.FunctionDef "main" [Ast.Pass];
     Ast.ClassDef "Net" [] [Ast.FunctionDef "forward" [Ast.Pass]]].

Definition train_parser : DefaultASTParser :=
  mkParser "/src/train.py" train_tree
    [("main", Ast.FunctionDef "main" [Ast.Pass])] ["main"] [] ["helper"].

(** A file-level run of one file into an empty directory, and into a
    directory that already holds a file of that name. *)
Definition train_run : Gen :=
  generator [("/src/train.py", train_parser)] util_mapping
    [("/src/train.py", [])] ∅.

Definition train_run_existing : Gen :=
  generator [("/src/train.py", train_parser)] util_mapping
    [("/src/train.py", [])]
    {[ "out/train.py" := "precious"; "out/__init__.py" := "precious" ]}.

(** Three files, the second of which makes [rewrite_imports] raise. *)
Definition plain_parser (path : string) : DefaultASTParser :=
  mkParser path (Ast.Module [Ast.Pass]) [] [] [] [].

Definition failing_parser : DefaultASTParser :=
  mkParser "/src/b.py" (Ast.Module [relative_import]) [] [] [] [].

Definition three_files : Gen :=
  generator
    [("/src/a.py", plain_parser "/src/a.py"); ("/src/b.py", failing_parser);
     ("/src/c.py", plain_parser "/src/c.py")]
    ∅ [("/src/a.py", []); ("/src/b.py", []); ("/src/c.py", [])] ∅.

(** A library with a called function, a function nobody uses and a
    class that another file imports. *)
Definition used_def : value := Ast.FunctionDef "used" [Ast.Pass].
Definition unused_def : value := Ast.FunctionDef "unused" [Ast.Pass].
Definition shared_def : value := Ast.ClassDef "Shared" [] [Ast.Pass].

Definition lib_tree : value :=
  Ast.Module [used_def; unused_def; shared_def; Ast.Expr (Ast.Name "used")].

Definition lib_parser : DefaultASTParser :=
  mkParser "/src/lib.py" lib_tree
    [("used", used_def); ("unused", unused_def); ("Shared", shared_def)]
    ["used"; "print"] [] [].

Definition main_parser : DefaultASTParser :=
  mkParser "/src/main.py" (Ast.Module [Ast.Pass]) [] [] [] ["Shared"].

Definition segment_run : Gen :=
  generator [("/src/lib.py", lib_parser); ("/src/main.py", main_parser)] ∅
    [("/src/lib.py", []); ("/src/main.py", ["/src/lib.py"])] ∅.

Definition segment_run_existing : Gen :=
  generator [("/src/lib.py", lib_parser); ("/src/main.py", main_parser)] ∅
    [("/src/lib.py", []); ("/src/main.py", ["/src/lib.py"])]
    {[ "out/lib.py" := "precious" ]}.



(** [class Child(Base1, Base2)] where both bases define [method1]. *)
Definition method1_of (owner : string) : value :=
  Ast.FunctionDef "method1" [Ast.Expr (Ast.Name owner)].
Definition own_method : value := Ast.FunctionDef "own" [Ast.Pass].

Definition child_class : value :=
  Ast.ClassDef "Child" ["Base1"; "Base2"] [own_method].
Definition overriding_child : value :=
  Ast.ClassDef "Child" ["Base1"] [method1_of "Child"].
Definition base_class (name : string) : value :=
  Ast.ClassDef name [] [method1_of name].

Definition class_parser (path : string) (cls : value) (name : string)
  : DefaultASTParser :=
  mkParser path (Ast.Module [cls]) [(name, cls)] [] [] [].

Definition two_bases : list (string * DefaultASTParser) :=
  [("Base1", class_parser "/src/base1.py" (base_class "Base1") "Base1");
   ("Base2", class_parser "/src/base2.py" (base_class "Base2") "Base2")].

Definition one_base : list (string * DefaultASTParser) :=
  [("Base1", class_parser "/src/base1.py" (base_class "Base1") "Base1")].

End Examples.

(** ** More of the code: helpers, and the statements about them *)

(** The files that import from [f]: every file of [relation], in order,
    once for every time [f] occurs among its targets. *)
Definition importers_of (f : string) (relation : list (string * list string))
  : list string :=
  flat_map
    (fun '(file, target_file) =>
       map (fun _ => file) (List.filter (String.eqb f) target_file))
    relation.

(** [s.split(sep)] for a separator of one character. *)
Fixpoint split (sep : ascii) (s : string) : list string :=
  match s with
  | EmptyString => [EmptyString]
  | String c s' =>
      if Ascii.eqb c sep then EmptyString :: split sep s'
      else match split sep s' with
           | w :: ws => String c w :: ws
           | [] => [String c EmptyString]
           end
  end.

(** [_get_file_name]: [osp.basename(file_path).split(".")[:-1]], joined
    with dots. *)
Definition _get_file_name (file_path : string) : string :=
  let file := removelast (split "."%char (basename file_path)) in
  String.concat "." file.


(** The names under which [ast.NodeVisitor.visit_Constant] (Python 3.8
    to 3.13) looks for a handler of a [Constant] node, by the type of
    the value of the node: [visit_Num], [visit_Str], [visit_Bytes],
    [visit_NameConstant] and [visit_Ellipsis].  A rewriter with a handler
    under one of them runs it on the constants of that type, although
    their kind is [Constant]. *)
Definition former_constant_kinds : list string :=
  ["Num"; "Str"; "Bytes"; "NameConstant"; "Ellipsis"].

Definition no_former_constant_handler {St : Type} (rw : Rewriter St) : bool :=
  forallb (fun k => negb (bool_decide (is_Some (targets rw !! k))))
    former_constant_kinds.

(** Every [Constant] node that the traversal reaches holds the value
    that [visit_Constant] reads. *)
Fixpoint constants_hold_values (v : value) : bool :=
  match v with
  | VAst cls fields _ =>
      (negb (String.eqb cls "Constant")
       || bool_decide (is_Some (assoc "value" fields)))
      && forallb
           (fun fv =>
              match snd fv with
              | VList items => forallb constants_hold_values items
              | VAst _ _ _ => constants_hold_values (snd fv)
              | _ => true
              end)
           fields
  | _ => true
  end.

(** A handler or a hook is registered for the kind. *)
Definition registered {St : Type} (rw : Rewriter St) (cls : string) : bool :=
  bool_decide (is_Some (targets rw !! cls))
  || bool_decide (is_Some (pre_hooks rw !! cls))
  || bool_decide (is_Some (post_hooks rw !! cls)).

(** Nothing is registered for the kind of the node, nor for the kind of
    any node that the traversal reaches below it. *)
Fixpoint unregistered {St : Type} (rw : Rewriter St) (v : value) : bool :=
  match v with
  | VAst cls fields _ =>
      negb (registered rw cls)
      && forallb
           (fun fv =>
              match snd fv with
              | VList items => forallb (unregistered rw) items
              | VAst _ _ _ => unregistered rw (snd fv)
              | _ => true
              end)
           fields
  | _ => true
  end.

(** The visit of a tree on whose kinds nothing is registered. *)
Definition left_alone {St : Type} (rw : Rewriter St) (v : value) : Prop :=
  is_ast v = true -> unregistered rw v = true ->
  forall s, visit rw v s = (s, inr v).

(** A function definition of that name sits at [v] or below it. *)
Definition defines_function (name : string) (v : value) : Prop :=
  exists w, reaches v w /\ class_name w = "FunctionDef"
            /\ getattr w "name" = inr (VStr name).

(** What [class_visit] adds to the names it has collected. *)
Definition collects_functions (v : value) : Prop :=
  forall acc acc',
    class_visit v acc = (acc', inr tt) ->
    (List.NoDup acc -> List.NoDup acc')
    /\ forall name, In name acc' <-> In name acc \/ defines_function name v.

(** Every handler and hook keeps the relation on the nodes it can be
    called on: a handler and a pre-hook on the nodes of the kind they are
    registered for, a post-hook on whatever the handler returned. *)
Definition all_preserve_on_kind {St : Type} (Inv : St -> St -> Prop)
  (rw : Rewriter St) : Prop :=
  (forall k (h : handler St),
      targets rw !! k = Some h \/ pre_hooks rw !! k = Some h ->
      forall v, class_name v = k -> preserves Inv (h v))
  /\ (forall k (h : handler St),
         post_hooks rw !! k = Some h -> forall v, preserves Inv (h v)).

(** A method that a merge copies: a function definition whose name is
    not among [methods]. *)
Definition copied_method (methods : list string) (n : value) : Prop :=
  class_name n = "FunctionDef"
  /\ exists name, getattr n "name" = inr (VStr name) /\ ~ In name methods.

(** What a merge does to the class: fields other than those of [kept_out]
    and [body] stay, and [body] receives copied methods at its end. *)
Definition merged_into (kept_out : list string) (cm cm' : ClassMerging.t)
  : Prop :=
  ClassMerging.methods cm' = ClassMerging.methods cm
  /\ is_ast (ClassMerging.cls_node cm') = is_ast (ClassMerging.cls_node cm)
  /\ class_name (ClassMerging.cls_node cm')
     = class_name (ClassMerging.cls_node cm)
  /\ (forall f, f <> "body" -> ~ In f kept_out ->
        getattr (ClassMerging.cls_node cm') f
        = getattr (ClassMerging.cls_node cm) f)
  /\ forall body,
       getattr (ClassMerging.cls_node cm) "body" = inr (VList body) ->
       exists added,
         getattr (ClassMerging.cls_node cm') "body" = inr (VList (body ++ added))
         /\ Forall (copied_method (ClassMerging.methods cm)) added.

(** ** Statements about a run *)

Definition key_and_file_name (kp : string * DefaultASTParser) : string * string :=
  (fst kp, file_name (snd kp)).

(** What the reads of the [defaultdict] [imports_info] do to it:
    [info'] is [info] followed by entries with an empty list, for files
    that had no entry. *)
Definition gained_empty_entries (info info' : list (string * list string))
  : Prop :=
  exists added,
    info' = info ++ map (fun f => (f, [])) added
    /\ Forall (fun f => assoc f info = None) added.

(** What no step of a run changes: the configuration of the generator,
    and the key and the file name of every parser.  Of [imports_info]
    the entries stay, and so does the order in which they come; a
    segment-level run adds an empty entry for every file it processes
    that nobody imports from. *)
Definition same_setup (s s' : Gen) : Prop :=
  target_dir s' = target_dir s /\ module_mapper s' = module_mapper s
  /\ merge_level s' = merge_level s
  /\ gained_empty_entries (imports_info s) (imports_info s')
  /\ relation s' = relation s
  /\ map key_and_file_name (parsers s') = map key_and_file_name (parsers s).

(** What the hooks and handlers of the generators keep while a file is
    rewritten: they write no file and change no parser but the current
    one. *)
Definition within_file (s s' : Gen) : Prop :=
  same_setup s s' /\ files s' = files s /\ cur_parser s' = cur_parser s
  /\ forall i, cur_parser s <> Some i -> parsers s' !! i = parsers s !! i.

(** What the passes over the file at position [idx] keep. *)
Definition file_step (idx : nat) (s s' : Gen) : Prop :=
  same_setup s s' /\ files s' = files s
  /\ forall i, i <> idx -> parsers s' !! i = parsers s !! i.

(** The file that [generate] writes for a parser. *)
Definition output_path (g : Gen) (p : DefaultASTParser) : string :=
  osp_join (target_dir g) (basename (file_name p)).

(** [path] is the output file of the parser at position [i], which is not
    an [__init__.py]. *)
Definition emitted (g : Gen) (i : nat) (path : string) : Prop :=
  exists file p,
    parsers g !! i = Some (file, p)
    /\ basename (file_name p) <> "__init__.py"
    /\ path = output_path g p.

(** An import statement of either form that the traversal of
    [class_imports_rewriter] reaches. *)
Fixpoint has_import (v : value) : bool :=
  match v with
  | VAst cls fields _ =>
      is_import cls
      || existsb
           (fun fv =>
              match snd fv with
              | VList items => existsb has_import items
              | VAst _ _ _ => has_import (snd fv)
              | _ => false
              end)
           fields
  | _ => false
  end.

(** The postprocess pass on a tree with an import, when no class has
    been merged in the run: [base_parsers] does not exist. *)
Definition needs_bases (v : value) : Prop :=
  has_import v = true ->
  forall s s' r,
    base_parsers s = None ->
    visit class_imports_rewriter v s = (s', r) -> exists e, r = inl e.

(** An import statement. *)
Definition is_import_stmt (v : value) : bool := is_import (class_name v).

(** While no class of the file is to be merged, the hooks and handlers of
    the segment-level rewriter leave the generator as it is. *)
Definition unless_merging (s s' : Gen) : Prop :=
  class_merge_info s = Some [] -> s' = s.

(** An entry [target_files[m][base] = path] that [_preprocess] may make
    for a file: [base] is a base of the class [m] to merge, [path] is a
    file the file imports from, and the parser of [path] defines [base]. *)
Definition merge_entry_ok (g : Gen) (file : string) (parser : DefaultASTParser)
  (m base path : string) : Prop :=
  (exists bases, In (m, bases) (_to_merge_classes parser) /\ In base bases)
  /\ (exists targets, assoc file (relation g) = Some targets /\ In path targets)
  /\ exists p, assoc path (parsers g) = Some p
               /\ has_key base (_local_defs p) = true.

(** What [resolve_bases] finds for an entry: the position of a parser
    under that path which defines the base. *)
Definition resolved (g : Gen) (entry : string * string) (found : string * nat)
  : Prop :=
  fst found = fst entry
  /\ exists p, parsers g !! snd found = Some (snd entry, p)
               /\ is_Some (assoc (fst entry) (_local_defs p)).

(** The entries of [class_merge_info] all satisfy [P]. *)
Definition entries_ok (P : string -> string -> string -> Prop)
  (tf : list (string * list (string * string))) : Prop :=
  forall m l base path, In (m, l) tf -> In (base, path) l -> P m base path.

(** The name under which an import statement binds its first alias:
    [node.names[0].asname or node.names[0].name]. *)
Definition first_bound_name (node : value) : exn + value :=
  match getattr node "names" with
  | inl e => inl e
  | inr names =>
      match first_item names with
      | inl e => inl e
      | inr first =>
          match getattr first "asname" with
          | inl e => inl e
          | inr asname =>
              if truthy asname then inr asname else getattr first "name"
          end
      end
  end.

(** The first alias of the statement is bound to the name of a merged
    base class. *)
Definition drops_import (bases : list (string * nat)) (node : value) : bool :=
  match first_bound_name node with
  | inr name => vmem name (map fst bases)
  | inl _ => false
  end.

(** The import statements at the top level of a module, in order. *)
Definition top_imports (tree : value) : list value :=
  match getattr tree "body" with
  | inr (VList body) => List.filter is_import_stmt body
  | _ => []
  end.

(** The classes that a parser wants merged. *)
Definition merge_classes_of (kp : string * DefaultASTParser)
  : list (string * list string) :=
  _to_merge_classes (snd kp).

(** No class has been merged since, and the parsers ask for the same
    merges. *)
Definition same_merging (s s' : Gen) : Prop :=
  base_parsers s' = base_parsers s
  /\ map merge_classes_of (parsers s') = map merge_classes_of (parsers s).

(** Every import of a corpus file that the file-level rewriter reaches
    names its module: the node is not a marked [ImportFrom], or its
    [module] is a string. *)
Fixpoint imports_named (v : value) : bool :=
  match v with
  | VAst cls fields attrs =>
      if String.eqb cls "ImportFrom" then
        negb (hasattr v "is_target")
        || match assoc "module" fields with
           | Some (VStr _) => true
           | _ => false
           end
      else if String.eqb cls "Import" then true
      else forallb
             (fun fv =>
                match snd fv with
                | VList items => forallb imports_named items
                | VAst _ _ _ => imports_named (snd fv)
                | _ => true
                end)
             fields
  | _ => true
  end.

(** The visit of the file-level rewriter goes through and returns a
    node. *)
Definition file_visit_returns (v : value) : Prop :=
  is_ast v = true -> imports_named v = true ->
  forall s,
    exists r,
      visit (_build_rewriter FileLevelCodeGenerator None) v s = (s, inr r)
      /\ is_ast r = true.

(** The tree that the file-level rewriting pass makes of a tree, for the
    mapping [mapper]: an [ImportFrom] that carries the mark and names its
    module gets the mapped module, or the last component of its module
    and level 0; any other import statement stays as it is, with what is
    below it; every other node keeps its class and attributes, and its
    fields hold what the pass makes of the nodes in them. *)
Fixpoint with_imports_rewritten (mapper : gmap string string) (v : value)
  {struct v} : value :=
  match v with
  | VAst cls fields attrs =>
      if is_import cls then
        if String.eqb cls "ImportFrom" && hasattr v "is_target" then
          match assoc "module" fields with
          | Some (VStr m) =>
              match mapper !! m with
              | Some mapped => setattr v "module" (VStr mapped)
              | None =>
                  setattr (setattr v "level" (VInt 0)) "module"
                    (VStr (after_last "."%char m))
              end
          | _ => v
          end
        else v
      else
        VAst cls
          (map (fun fv => (fst fv, with_imports_rewritten mapper (snd fv)))
             fields)
          attrs
  | VList items =>
      VList (map (fun x =>
                    match x with
                    | VAst _ _ _ => with_imports_rewritten mapper x
                    | _ => x
                    end) items)
  | _ => v
  end.


(** ** [entry.py]: the entry files and their trees

    [os.path.abspath] and [ast.parse] are Python's and [fs] is the file
    system, from path to contents. *)

Module Entry.
Section Files.
Variable abspath : string -> string.
Variable ast_parse : string -> exn + value.
Variable fs : gmap string string.

(** [parse_file]: the extension is looked at and nothing follows from
    it; the file is read and parsed whatever its name. *)
Definition parse_file (filename : string) : exn + value :=
  match fs !! filename with
  | Some source_code => ast_parse source_code
  | None => inl (FileNotFoundError filename)
  end.

Record t : Type := mk {
  entries : list string;
  asts : list value
}.

(** [[parse_file(f) for f in entries]] *)
Fixpoint convert_to_ast (entries : list string) : exn + list value :=
  match entries with
  | [] => inr []
  | f :: rest =>
      match parse_file f with
      | inl e => inl e
      | inr tree =>
          match convert_to_ast rest with
          | inl e => inl e
          | inr trees => inr (tree :: trees)
          end
      end
  end.

(** [FileEntry.__init__]: a single string stands for a list of one. *)
Definition FileEntry (entry_files : string + list string) : exn + t :=
  let entries :=
    match entry_files with inl f => [f] | inr l => l end in
  let entries := map abspath entries in
  match convert_to_ast entries with
  | inl e => inl e
  | inr asts => inr (mk entries asts)
  end.

(** [Entry.__iter__]: [zip(self.entries, self.asts)] *)
Definition __iter__ (self : t) : list (string * value) :=
  combine (entries self) (asts self).

Definition get_cache (self : t) : list string := entries self.

End Files.
End Entry.

(** ** More sample rewriters and runs *)

Module Samples.

(** Replaces every expression statement by two statements. *)
Definition split_it : handler unit :=
  fun _ => ret (VList [Ast.Pass; Examples.statement]).
Definition splitting : Rewriter unit :=
  mkRewriter {[ "Expr" := split_it ]} ∅ ∅.

(** Deletes every name. *)
Definition deleting_names : Rewriter unit :=
  mkRewriter {[ "Name" := Examples.delete_it ]} ∅ ∅.

(** A module without an expression statement: [def f(): return 1]. *)
Definition returning_module : value :=
  Ast.Module
    [Ast.Pass; Ast.FunctionDef "f" [Ast.Return (Ast.Constant (VInt 1))]].

(** [def f() -> int: pass], and what is left of it once the annotation
    of its result is deleted. *)
Definition annotated : value :=
  VAst "FunctionDef"
    [("name", VStr "f"); ("args", Ast.arguments); ("body", VList [Ast.Pass]);
     ("decorator_list", VList []); ("returns", Ast.Name "int");
     ("type_comment", VNone)] ["lineno"].

Definition unannotated : value :=
  VAst "FunctionDef"
    [("name", VStr "f"); ("args", Ast.arguments); ("body", VList [Ast.Pass]);
     ("decorator_list", VList []); ("returns", VNone);
     ("type_comment", VNone)] ["lineno"].

(** A class whose method holds a nested function. *)
Definition nesting_class : value :=
  Ast.ClassDef "Child" []
    [Ast.FunctionDef "run" [Ast.FunctionDef "helper" [Ast.Pass]]].

(** The merging of [class Child(Base1, Base2)] as [ClassMerging.__init__]
    leaves it. *)
Definition child_merging : ClassMerging.t :=
  ClassMerging.mk Examples.child_class ["own"] None.

(** Two corpus files of the same base name, and a printer that shows the
    name of the first definition of a module. *)
Definition util_parser (dir def : string) : DefaultASTParser :=
  mkParser (dir +:+ "/util.py") (Ast.Module [Ast.FunctionDef def [Ast.Pass]])
    [] [] [] [].

Definition same_name_run : Gen :=
  Examples.generator
    [("/a/util.py", util_parser "/a" "first");
     ("/b/util.py", util_parser "/b" "second")]
    ∅ [("/a/util.py", []); ("/b/util.py", [])] ∅.

Definition name_printer (tree : value) : string :=
  match top_defs tree with
  | d :: _ =>
      match getattr d "name" with
      | inr (VStr name) => name
      | _ => ""
      end
  | [] => ""
  end.

(** The run of [train.py] once [_preprocess] and the rewriting pass are
    through, no class having been merged. *)
Definition pending_run : Gen :=
  mkGen "out" [("/src/train.py", Examples.train_parser)] ∅ None
    [("/src/train.py", [])] [("/src/train.py", [])]
    (Some []) (Some ["main"]) (Some []) (Some 0) None ∅.

(** A file whose class [Child] is to be merged with its bases, which two
    other files of the corpus define. *)
Definition child_parser : DefaultASTParser :=
  mkParser "/src/child.py" (Ast.Module [Examples.child_class])
    [("Child", Examples.child_class)] [] [("Child", ["Base1"; "Base2"])] [].

Definition merging_run : Gen :=
  Examples.generator
    [("/src/child.py", child_parser);
     ("/src/base1.py",
      Examples.class_parser "/src/base1.py" (Examples.base_class "Base1") "Base1");
     ("/src/base2.py",
      Examples.class_parser "/src/base2.py" (Examples.base_class "Base2") "Base2")]
    ∅
    [("/src/child.py", ["/src/base1.py"; "/src/base2.py"]);
     ("/src/base1.py", []); ("/src/base2.py", [])]
    ∅.

(** The file of [Child] after the rewriting pass of a run in which the
    class was merged with [Base1]: its tree still imports the base, under
    two names, and a function of another file. *)
Definition merged_tree : value :=
  Ast.Module
    [Ast.ImportFrom (VStr "base1") ["Base1"; "tool"] 0 true;
     Ast.ImportFrom (VStr "tools") ["tool"; "Base1"] 0 true;
     Examples.child_class].

Definition merged_run : Gen :=
  mkGen "out"
    [("/src/child.py",
      mkParser "/src/child.py" merged_tree [("Child", Examples.child_class)]
        [] [("Child", ["Base1"])] []);
     ("/src/base1.py",
      Examples.class_parser "/src/base1.py" (Examples.base_class "Base1") "Base1")]
    ∅ None [("/src/base1.py", ["/src/child.py"]); ("/src/child.py", [])]
    [("/src/child.py", ["/src/base1.py"]); ("/src/base1.py", [])]
    (Some []) (Some ["Child"]) (Some [("Child", [("Base1", "/src/base1.py")])])
    (Some 0) (Some [("Base1", 1)]) ∅.







(** A file that holds [async def fetch(): pass] and [def unused(): pass],
    which nothing calls and nobody imports. *)
Definition async_tree : value :=
  Ast.Module
    [Ast.AsyncFunctionDef "fetch" [Ast.Pass]; Examples.unused_def].

Definition async_parser : DefaultASTParser :=
  mkParser "/src/aio.py" async_tree [("unused", Examples.unused_def)] [] [] [].

Definition async_run : Gen :=
  Examples.generator [("/src/aio.py", async_parser)] ∅ [("/src/aio.py", [])] ∅.





(** A file system with one readable source file, and a parser of source
    text that knows that file's text only. *)
Definition one_file : gmap string string := {[ "/src/a.py" := "pass" ]}.

Definition parse_pass (source_code : string) : exn + value :=
  if String.eqb source_code "pass" then inr (Ast.Module [Ast.Pass])
  else inl (ValueError "invalid syntax").

End Samples.

(** * Properties *)

(** ** Running computations *)

Lemma bind_ok {St A B} (m : M St A) (k : A -> M St B) s s' a :
  m s = (s', inr a) -> bind m k s = k a s'.
Proof. intros H. unfold bind. now rewrite H. Qed.

Lemma bind_err {St A B} (m : M St A) (k : A -> M St B) s s' e :
  m s = (s', inl e) -> bind m k s = (s', inl e).
Proof. intros H. unfold bind. now rewrite H. Qed.

Lemma bind_inv_ok {St A B} (m : M St A) (k : A -> M St B) s s2 b :
  bind m k s = (s2, inr b) ->
  exists s1 a, m s = (s1, inr a) /\ k a s1 = (s2, inr b).
Proof.
  unfold bind. destruct (m s) as [s1 [e | a]]; intros H.
  - discriminate.
  - eauto.
Qed.

Lemma assoc_set_same {A} k (x : A) d : assoc k (assoc_set k x d) = Some x.
Proof.
  induction d as [| [k' y] d IH]; simpl.
  - now rewrite String.eqb_refl.
  - destruct (String.eqb k k') eqn:E; simpl; rewrite E; auto.
Qed.

Lemma assoc_set_other {A} k k' (x : A) d :
  k' <> k -> assoc k' (assoc_set k x d) = assoc k' d.
Proof.
  intros Hne. induction d as [| [k0 y] d IH]; simpl.
  - destruct (String.eqb k' k) eqn:E; [apply String.eqb_eq in E; congruence | reflexivity].
  - destruct (String.eqb k k0) eqn:E; simpl.
    + apply String.eqb_eq in E. subst k0.
      destruct (String.eqb k' k) eqn:E'; [apply String.eqb_eq in E'; congruence | reflexivity].
    + destruct (String.eqb k' k0); auto.
Qed.

Lemma assoc_replace_field_other kind k r rest f :
  String.eqb f k = false ->
  assoc f (replace_field kind k r rest) = assoc f rest.
Proof.
  intros E. unfold replace_field.
  destruct r; try destruct (optional_field kind k); cbn [assoc];
    now rewrite ?E.
Qed.

Lemma getattr_setattr_same cls fields attrs f v :
  getattr (setattr (VAst cls fields attrs) f v) f = inr v.
Proof. simpl. now rewrite assoc_set_same. Qed.

Lemma getattr_setattr_other node f f' v :
  f' <> f -> getattr (setattr node f v) f' = getattr node f'.
Proof.
  intros Hne. destruct node; simpl; auto. now rewrite assoc_set_other.
Qed.

Lemma class_name_setattr node f v : class_name (setattr node f v) = class_name node.
Proof. now destruct node. Qed.

(** ** The order of the steps of [Rewriter.visit] *)



(** On a statement the three steps run in that order and the pre-hook's
    result is dropped; on the sentinel only the pre-hook runs. *)
Example recorded_steps :
  visit Examples.recording Examples.statement []
  = (["pre-hook"; "handler"; "post-hook"], inr Examples.statement)
  /\ visit Examples.recording REMOVE_NODE [] = (["pre-hook"], inr REMOVE_NODE)
  /\ visit Examples.recording (Ast.Module [Ast.Pass; Examples.statement]) []
     = (["pre-hook"; "handler"; "post-hook"],
        inr (Ast.Module [Ast.Pass; Examples.statement])).
Proof. repeat split; reflexivity. Qed.

(** ** Rewriting imports *)

Lemma after_last_no_sep sep s : occurs sep (after_last sep s) = false.
Proof.
  induction s as [| c s IH]; simpl; [reflexivity |].
  destruct (Ascii.eqb c sep || occurs sep s) eqn:E; [exact IH | exact E].
Qed.

Lemma after_last_suffix sep s :
  s = after_last sep s \/ exists pre, s = pre +:+ String sep (after_last sep s).
Proof.
  induction s as [| c s IH]; simpl; [now left |].
  destruct (Ascii.eqb c sep) eqn:Ec; simpl.
  - apply Ascii.eqb_eq in Ec. subst c. right.
    destruct IH as [IH | [pre IH]].
    + exists "". simpl. now rewrite <- IH.
    + exists (String sep pre).
      change (String sep s = String sep (pre +:+ String sep (after_last sep s))).
      now rewrite <- IH.
  - destruct (occurs sep s) eqn:Eo; [| now left].
    right. destruct IH as [IH | [pre IH]].
    + rewrite IH, after_last_no_sep in Eo. discriminate.
    + exists (String c pre).
      change (String c s = String c (pre +:+ String sep (after_last sep s))).
      now rewrite <- IH.
Qed.

(** X23: for an [ImportFrom] node that carries the [is_target] mark and
    names a module, [rewrite_imports] returns the node with its module
    replaced by the entry of the module mapping when there is one (the
    level is then left as it is), and otherwise by what follows the last
    dot of the module name, with the level set to 0; nothing else in
    the node changes. *)
Theorem rewrite_imports_target (node : value) (self : Gen) (m : string) :
  class_name node = "ImportFrom" ->
  hasattr node "is_target" = true ->
  getattr node "module" = inr (VStr m) ->
  let last := after_last "."%char m in
  let node' :=
    match module_mapper self !! m with
    | Some mapped => setattr node "module" (VStr mapped)
    | None => setattr (setattr node "level" (VInt 0)) "module" (VStr last)
    end in
  rewrite_imports node self = (self, inr node')
  /\ class_name node' = "ImportFrom"
  /\ (forall f, f <> "module" -> f <> "level" -> getattr node' f = getattr node f)
  /\ match module_mapper self !! m with
     | Some mapped =>
         getattr node' "module" = inr (VStr mapped)
         /\ getattr node' "level" = getattr node "level"
     | None =>
         getattr node' "module" = inr (VStr last)
         /\ getattr node' "level" = inr (VInt 0)
         /\ occurs "."%char last = false
         /\ (m = last \/ exists pre, m = pre +:+ "." +:+ last)
     end.
Proof.
  intros Hcls Hmark Hmod last node'.
  destruct node as [| | | | cls fields attrs]; try discriminate.
  simpl in Hcls. subst cls.
  split; [| split; [| split]].
  - unfold rewrite_imports. simpl class_name.
    rewrite String.eqb_refl, Hmark. cbn [andb].
    unfold bind, lift, get. rewrite Hmod. subst node' last.
    destruct (module_mapper self !! m); reflexivity.
  - subst node'. destruct (module_mapper self !! m); reflexivity.
  - intros f Hf1 Hf2. subst node'.
    destruct (module_mapper self !! m).
    + now rewrite getattr_setattr_other.
    + rewrite getattr_setattr_other by assumption.
      now rewrite getattr_setattr_other.
  - subst node'. destruct (module_mapper self !! m) as [mapped |].
    + split; [apply getattr_setattr_same |].
      now rewrite getattr_setattr_other.
    + split; [apply getattr_setattr_same |].
      split.
      * rewrite getattr_setattr_other by discriminate.
        apply getattr_setattr_same.
      * split; [apply after_last_no_sep | apply after_last_suffix].
Qed.

(** C9: an [Import] node, and an [ImportFrom] node without the
    [is_target] mark, come back from [rewrite_imports] as they went in:
    the same node, module and level untouched, and the generator's
    state is not changed. *)
Theorem rewrite_imports_external (node : value) (self : Gen) :
  class_name node = "Import"
  \/ (class_name node = "ImportFrom" /\ hasattr node "is_target" = false) ->
  rewrite_imports node self = (self, inr node).
Proof.
  intros [Hcls | [Hcls Hmark]]; unfold rewrite_imports; rewrite Hcls.
  - reflexivity.
  - rewrite Hmark. reflexivity.
Qed.

(** ** Deleting nodes from a list field *)

Section TraversalFacts.
Context {St : Type}.
Implicit Types (vis : value -> M St value) (rw : Rewriter St).

Lemma bind_cont {A B C} (m : M St A) (k1 : A -> M St B) (k2 : A -> M St C)
  (F : St * (exn + C) -> St * (exn + B)) :
  (forall s e, F (s, inl e) = (s, inl e)) ->
  (forall a s, k1 a s = F (k2 a s)) ->
  forall s, bind m k1 s = F (bind m k2 s).
Proof.
  intros HF Hk s. unfold bind. destruct (m s) as [s' [e | a]]; auto.
Qed.

Lemma visit_items_app vis l1 l2 s :
  visit_items vis (l1 ++ l2) s = then_items vis l2 (visit_items vis l1 s).
Proof.
  revert s. induction l1 as [| a l1 IH]; intros s.
  - simpl. destruct (visit_items vis l2 s) as [s2 [e | n2]]; reflexivity.
  - assert (Hrest : forall (pre : list value) s',
      (let* new_values := visit_items vis (l1 ++ l2) in ret (pre ++ new_values)) s' =
      then_items vis l2
        ((let* new_values := visit_items vis l1 in ret (pre ++ new_values)) s')).
    { intros pre s'. unfold bind, ret. rewrite IH.
      destruct (visit_items vis l1 s') as [s1 [e | n1]]; [reflexivity |].
      simpl. destruct (visit_items vis l2 s1) as [s2 [e | n2]]; [reflexivity |].
      now rewrite app_assoc. }
    destruct a as [| x | z | items | cls fields attrs];
      try (exact (Hrest [_] s)).
    cbn [app visit_items].
    apply bind_cont; [reflexivity |].
    intros r s'. destruct r as [| x | z | items | c f a].
    + apply IH.
    + apply bind_cont; [reflexivity |]. intros ext s''. apply Hrest.
    + apply bind_cont; [reflexivity |]. intros ext s''. apply Hrest.
    + apply bind_cont; [reflexivity |]. intros ext s''. apply Hrest.
    + exact (Hrest [_] s').
Qed.

(** A visit that yields the sentinel contributes nothing to the list. *)
Lemma visit_items_dropped vis cls fields attrs rest s s' :
  vis (VAst cls fields attrs) s = (s', inr REMOVE_NODE) ->
  visit_items vis (VAst cls fields attrs :: rest) s = visit_items vis rest s'.
Proof. intros H. simpl. unfold bind. now rewrite H. Qed.

(** An exception in the visit of an item leaves the loop. *)
Lemma visit_items_raises vis cls fields attrs rest s s' e :
  vis (VAst cls fields attrs) s = (s', inl e) ->
  visit_items vis (VAst cls fields attrs :: rest) s = (s', inl e).
Proof. intros H. simpl. unfold bind. now rewrite H. Qed.

Lemma visit_unfold rw node :
  visit rw node =
    (run_pre_hook rw node ;;;
     match node with
     | VNone => ret REMOVE_NODE
     | _ => let* result := dispatch rw node in
            run_post_hook rw (class_name node) result
     end).
Proof. destruct node; reflexivity. Qed.

(** With a handler registered for its kind, a node is not traversed:
    the visit is the pre-hook, the handler and the post-hook. *)
Lemma visit_handled rw cls fields attrs (h : handler St) s :
  targets rw !! cls = Some h ->
  visit rw (VAst cls fields attrs) s =
  (run_pre_hook rw (VAst cls fields attrs) ;;;
   let* result := h (VAst cls fields attrs) in
   run_post_hook rw cls result) s.
Proof.
  intros H. rewrite visit_unfold. unfold dispatch. cbn [class_name].
  now rewrite H.
Qed.

End TraversalFacts.

Lemma run_post_hook_none {St} (rw : Rewriter St) k r :
  post_hooks rw !! k = None -> run_post_hook rw k r = ret r.
Proof. intros H. unfold run_post_hook. now rewrite H. Qed.

(** C7 (as amended): when the handler registered for the kind of a node
    returns the deletion sentinel, and the post-hook of that kind, if
    there is one, returns the sentinel it is given, the list field the
    node sits in is rebuilt without it: the results of the items before
    it are followed directly by the results of the items after it.  The
    fields of the deleted node are not traversed: its visit is the
    pre-hook, the handler and the post-hook, nothing else. *)
Theorem sentinel_removes_node {St : Type} (rw : Rewriter St)
  (cls : string) (fields : list (string * value)) (attrs : list string)
  (h : handler St) (before after : list value)
  (s0 s1 s1' s2 s2' s3 : St) (new1 new2 : list value) :
  targets rw !! cls = Some h ->
  visit_items (visit rw) before s0 = (s1, inr new1) ->
  run_pre_hook rw (VAst cls fields attrs) s1 = (s1', inr tt) ->
  h (VAst cls fields attrs) s1' = (s2, inr REMOVE_NODE) ->
  run_post_hook rw cls REMOVE_NODE s2 = (s2', inr REMOVE_NODE) ->
  visit_items (visit rw) after s2' = (s3, inr new2) ->
  visit_items (visit rw) (before ++ VAst cls fields attrs :: after) s0
  = (s3, inr (new1 ++ new2))
  /\ (forall s,
         visit rw (VAst cls fields attrs) s =
         (run_pre_hook rw (VAst cls fields attrs) ;;;
          let* result := h (VAst cls fields attrs) in
          run_post_hook rw cls result) s).
Proof.
  intros Hh Hbefore Hpre Hdel Hpost Hafter.
  split; [| intros s; now apply visit_handled].
  rewrite visit_items_app, Hbefore. cbn [then_items].
  rewrite (visit_items_dropped (visit rw) cls fields attrs after s1 s2').
  - now rewrite Hafter.
  - rewrite (visit_handled rw cls fields attrs h s1 Hh).
    rewrite (bind_ok _ _ _ _ _ Hpre). now rewrite (bind_ok _ _ _ _ _ Hdel).
Qed.

Lemma sentinel_removes_node_witness :
  visit_items (visit Examples.deleting_checked)
    [Ast.Pass; Examples.statement; Ast.Pass] tt
  = (tt, inr [Ast.Pass; Ast.Pass])
  /\ (forall s,
         visit Examples.deleting_checked Examples.statement s =
         (run_pre_hook Examples.deleting_checked Examples.statement ;;;
          let* result := Examples.delete_it Examples.statement in
          run_post_hook Examples.deleting_checked "Expr" result) s).
Proof.
  apply (sentinel_removes_node Examples.deleting_checked "Expr"
           [("value", Ast.Name "x")] ["lineno"]
           Examples.delete_it [Ast.Pass] [Ast.Pass] tt tt tt tt tt tt
           [Ast.Pass] [Ast.Pass]);
    reflexivity.
Defined.

(** Without a post-hook for the kind, the handler's sentinel is the
    visit's. *)
Lemma no_post_hook_drops {St : Type} (rw : Rewriter St) cls fields attrs :
  post_hooks rw !! cls = None ->
  handler_sentinel_drops rw (VAst cls fields attrs).
Proof.
  intros Hpost h before after s0 s1 s1' s2 s3 new1 new2 Hh Hb Hpre Hdel Ha.
  rewrite visit_items_app, Hb. cbn [then_items].
  rewrite (visit_items_dropped (visit rw) cls fields attrs after s1 s2).
  - now rewrite Ha.
  - rewrite (visit_handled rw cls fields attrs h s1 Hh).
    rewrite (bind_ok _ _ _ _ _ Hpre), (bind_ok _ _ _ _ _ Hdel).
    now rewrite run_post_hook_none.
Qed.

(** Counterexample to C7 as worded: the handler returns the sentinel for
    the statement, a post-hook registered for the same kind returns the
    statement, and the list keeps it. *)
Lemma restored_node_not_removed :
  ~ handler_sentinel_drops Examples.restoring Examples.statement.
Proof.
  intros H.
  specialize (H Examples.delete_it [] [] tt tt tt tt tt [] []
                eq_refl eq_refl eq_refl eq_refl eq_refl).
  vm_compute in H. discriminate H.
Qed.

(** ** Induction along the traversal

    The traversal reaches the nodes held by the fields of a node and the
    nodes that are items of its list fields. *)

Lemma traversal_ind (P : value -> Prop) :
  P VNone -> (forall s, P (VStr s)) -> (forall z, P (VInt z)) ->
  (forall items, P (VList items)) ->
  (forall cls fields attrs,
      Forall (at_children P) fields -> P (VAst cls fields attrs)) ->
  forall v, P v.
Proof.
  intros HNone HStr HInt HList HAst v.
  enough (H : P v /\ match v with VList items => Forall P items | _ => True end)
    by apply H.
  induction v as [| s | z | items IH | cls fields attrs IH] using value_ind;
    split; auto.
  eapply Forall_impl; [exact IH |]. intros x Hx. apply Hx.
Qed.

(** ** Properties of the state kept by every step *)

Section Preserved.
Context {St : Type} (Inv : St -> St -> Prop).
Hypothesis Inv_refl : forall s, Inv s s.
Hypothesis Inv_trans : forall a b c, Inv a b -> Inv b c -> Inv a c.

Lemma preserves_ret {A} (a : A) : preserves Inv (ret a).
Proof. intros s s' r H. inversion H. apply Inv_refl. Qed.

Lemma preserves_raise {A} e : preserves Inv (@raise St A e).
Proof. intros s s' r H. inversion H. apply Inv_refl. Qed.

Lemma preserves_lift {A} (x : exn + A) : preserves Inv (lift x).
Proof. intros s s' r H. inversion H. apply Inv_refl. Qed.

Lemma preserves_get : preserves Inv get.
Proof. intros s s' r H. inversion H. apply Inv_refl. Qed.

Lemma preserves_bind {A B} (m : M St A) (k : A -> M St B) :
  preserves Inv m -> (forall a, preserves Inv (k a)) -> preserves Inv (bind m k).
Proof.
  intros Hm Hk s s' r. unfold bind.
  destruct (m s) as [s1 [e | a]] eqn:E; intros H.
  - inversion H; subst. eapply Hm; eauto.
  - eapply Inv_trans; [eapply Hm; eauto | eapply Hk; eauto].
Qed.

Lemma visit_items_preserves (vis : value -> M St value) items :
  Forall (fun v => preserves Inv (vis v)) items ->
  preserves Inv (visit_items vis items).
Proof.
  induction 1 as [| x l Hx Hl IH]; [apply preserves_ret |].
  destruct x; cbn [visit_items];
    try (apply preserves_bind; [exact IH | intros; apply preserves_ret]).
  apply preserves_bind; [exact Hx |].
  intros r. destruct r;
    try exact IH;
    repeat (apply preserves_bind;
            [first [exact IH | apply preserves_lift] | intros]);
    apply preserves_ret.
Qed.

Lemma visit_fields_preserves (vis : value -> M St value) kind fields :
  Forall (at_children (fun v => preserves Inv (vis v))) fields ->
  preserves Inv (visit_fields vis kind fields).
Proof.
  induction 1 as [| [f x] l [Hx Hitems] Hl IH]; [apply preserves_ret |].
  cbn [snd] in Hx, Hitems.
  destruct x; cbn [visit_fields];
    try (apply preserves_bind; [exact IH | intros; apply preserves_ret]).
  - apply preserves_bind; [now apply visit_items_preserves |].
    intros. apply preserves_bind; [exact IH | intros; apply preserves_ret].
  - apply preserves_bind; [exact Hx |].
    intros. apply preserves_bind; [exact IH | intros; apply preserves_ret].
Qed.

Lemma visit_preserves (rw : Rewriter St) :
  all_preserve Inv rw -> forall v, preserves Inv (visit rw v).
Proof.
  intros Hall.
  assert (Hpre : forall v, preserves Inv (run_pre_hook rw v)).
  { intros v. unfold run_pre_hook.
    destruct (pre_hooks rw !! class_name v) as [h |] eqn:E;
      [| apply preserves_ret].
    apply preserves_bind; [eapply Hall; eauto | intros; apply preserves_ret]. }
  assert (Hpost : forall k v, preserves Inv (run_post_hook rw k v)).
  { intros k v. unfold run_post_hook.
    destruct (post_hooks rw !! k) as [h |] eqn:E; [| apply preserves_ret].
    eapply Hall; eauto. }
  induction v as [| s | z | items | cls fields attrs IH] using traversal_ind;
    rewrite visit_unfold;
    (apply preserves_bind; [apply Hpre | intros _]);
    try apply preserves_ret;
    (apply preserves_bind; [| intros; apply Hpost]);
    unfold dispatch;
    (destruct (targets rw !! _) as [h |] eqn:E; [eapply Hall; eauto |]);
    try apply preserves_raise.
  cbn [generic_visit generic_visit_with]. unfold generic_visit, generic_visit_with.
  apply preserves_bind; [| intros; apply preserves_ret].
  now apply visit_fields_preserves.
Qed.

End Preserved.

(** ** File-level generation *)

Lemma rewrite_imports_state node : preserves eq (rewrite_imports node).
Proof.
  intros s s' r. unfold rewrite_imports.
  destruct (String.eqb (class_name node) "ImportFrom" && hasattr node "is_target");
    [| intros H; now inversion H].
  unfold bind, lift, get.
  destruct (getattr node "module") as [e | [| m | z | l | c f a]];
    try (intros H; now inversion H).
  destruct (module_mapper s !! m); intros H; now inversion H.
Qed.

Lemma rewrite_imports_class node s s' r :
  rewrite_imports node s = (s', inr r) -> class_name r = class_name node.
Proof.
  unfold rewrite_imports.
  destruct (String.eqb (class_name node) "ImportFrom" && hasattr node "is_target");
    [| intros H; now inversion H].
  unfold bind, lift, get.
  destruct (getattr node "module") as [e | [| m | z | l | c f a]];
    try (intros H; now inversion H).
  destruct (module_mapper s !! m); intros H; inversion H;
    now rewrite ?class_name_setattr.
Qed.

Lemma rewrite_imports_is_ast node s s' r :
  rewrite_imports node s = (s', inr r) -> is_ast node = true -> is_ast r = true.
Proof.
  unfold rewrite_imports.
  destruct (String.eqb (class_name node) "ImportFrom" && hasattr node "is_target");
    [| intros H; now inversion H].
  unfold bind, lift, get.
  destruct node as [| | | | cls fields attrs]; try discriminate 2.
  destruct (getattr _ "module") as [e | [| m | z | l | c f a]];
    try (intros H; now inversion H).
  destruct (module_mapper s !! m); intros H; now inversion H.
Qed.

Lemma file_targets cls :
  targets (_build_rewriter FileLevelCodeGenerator None) !! cls =
  if is_import cls then Some rewrite_imports else None.
Proof.
  cbn [_build_rewriter targets update_funcs]. unfold is_import.
  destruct (String.eqb cls "Import") eqn:E1.
  - apply String.eqb_eq in E1. subst cls. now rewrite lookup_insert_eq.
  - apply String.eqb_neq in E1. rewrite lookup_insert_ne by congruence.
    destruct (String.eqb cls "ImportFrom") eqn:E2; cbn [orb].
    + apply String.eqb_eq in E2. subst cls. now rewrite lookup_singleton_eq.
    + apply String.eqb_neq in E2. now rewrite lookup_singleton_ne by congruence.
Qed.

Lemma file_rewriter_state :
  all_preserve eq (_build_rewriter FileLevelCodeGenerator None).
Proof.
  intros k h [H | [H | H]] v.
  - rewrite file_targets in H. destruct (is_import k); [| discriminate].
    inversion H. apply rewrite_imports_state.
  - cbn in H. now rewrite lookup_empty in H.
  - cbn in H. now rewrite lookup_empty in H.
Qed.

Lemma run_pre_hook_none {St} (rw : Rewriter St) v :
  pre_hooks rw !! class_name v = None -> run_pre_hook rw v = ret tt.
Proof. intros H. unfold run_pre_hook. now rewrite H. Qed.








Lemma parser_at_alter f idx g file parser :
  parsers g !! idx = Some (file, parser) ->
  parser_at idx (alter_parser f idx g) = (alter_parser f idx g, inr (f parser)).
Proof.
  intros H. unfold parser_at, alter_parser. cbn [parsers set_parsers].
  rewrite list_lookup_alter, decide_True by reflexivity. now rewrite H.
Qed.


(** ** Exceptions leave the traversal and the run *)

Section Exceptions.
Context {St : Type}.
Implicit Types (vis : value -> M St value) (rw : Rewriter St).

Lemma visit_fields_app_raises vis kind fields1 fields2 s s1 s' fields1' e :
  visit_fields vis kind fields1 s = (s1, inr fields1') ->
  visit_fields vis kind fields2 s1 = (s', inl e) ->
  visit_fields vis kind (fields1 ++ fields2) s = (s', inl e).
Proof.
  revert s fields1'.
  induction fields1 as [| [f x] l IH]; intros s fields1' H1 H2.
  - inversion H1; subst. exact H2.
  - cbn [app]. destruct x as [| y | z | ys | cls fs attrs];
      cbn [visit_fields] in H1 |- *.
    1-3: apply bind_inv_ok in H1 as (s2 & l' & Hl & Hret);
         inversion Hret; subst; eapply bind_err; eauto.
    + apply bind_inv_ok in H1 as (s2 & ys' & Hys & H1).
      apply bind_inv_ok in H1 as (s3 & l' & Hl & Hret).
      inversion Hret; subst.
      rewrite (bind_ok _ _ _ _ _ Hys). eapply bind_err; eauto.
    + apply bind_inv_ok in H1 as (s2 & r & Hr & H1).
      apply bind_inv_ok in H1 as (s3 & l' & Hl & Hret).
      inversion Hret; subst.
      rewrite (bind_ok _ _ _ _ _ Hr). eapply bind_err; eauto.
Qed.

Lemma visit_items_app_raises vis before rest s s1 s' before' e :
  visit_items vis before s = (s1, inr before') ->
  visit_items vis rest s1 = (s', inl e) ->
  visit_items vis (before ++ rest) s = (s', inl e).
Proof.
  intros H1 H2. rewrite visit_items_app, H1. cbn [then_items]. now rewrite H2.
Qed.

(** The rewriter has no handler of exceptions of its own: whatever is
    raised while the tree is rewritten is raised by the visit of the
    root, in the state in which it was raised. *)
Lemma raises_in_visit rw v s s' e :
  raises_in rw v s s' e -> visit rw v s = (s', inl e).
Proof.
  induction 1 as
    [ v s s' e Hpre
    | v h s s1 s' e Hv Hpre Hh He
    | v s s1 s2 s' r e Hv Hpre Hd He
    | cls fields1 f before c after fields2 attrs s s1 s2 s3 s' e fields1' before'
        Hpre Htgt H1 Hb Hc _ IH
    | cls fields1 f c fields2 attrs s s1 s2 s' e fields1' Hpre Htgt H1 Hc _ IH ];
    rewrite visit_unfold.
  - now apply bind_err.
  - rewrite (bind_ok _ _ _ _ _ Hpre).
    destruct v; try (now contradiction Hv);
      (apply bind_err; unfold dispatch; now rewrite Hh).
  - rewrite (bind_ok _ _ _ _ _ Hpre).
    destruct v; try (now contradiction Hv);
      now rewrite (bind_ok _ _ _ _ _ Hd).
  - rewrite (bind_ok _ _ _ _ _ Hpre). apply bind_err.
    unfold dispatch. cbn [class_name]. rewrite Htgt.
    unfold generic_visit, generic_visit_with. apply bind_err.
    eapply visit_fields_app_raises; [exact H1 |].
    cbn [visit_fields]. apply bind_err.
    eapply visit_items_app_raises; [exact Hb |].
    destruct c as [| | | | c0 f0 a0]; try discriminate Hc.
    now apply visit_items_raises.
  - rewrite (bind_ok _ _ _ _ _ Hpre). apply bind_err.
    unfold dispatch. cbn [class_name]. rewrite Htgt.
    unfold generic_visit, generic_visit_with. apply bind_err.
    eapply visit_fields_app_raises; [exact H1 |].
    destruct c as [| | | | c0 f0 a0]; try discriminate Hc.
    cbn [visit_fields]. now apply bind_err.
Qed.

Lemma for_each_app {A} (l1 l2 : list A) (body : A -> M St unit) s :
  for_each (l1 ++ l2) body s =
  match for_each l1 body s with
  | (s1, inl e) => (s1, inl e)
  | (s1, inr _) => for_each l2 body s1
  end.
Proof.
  revert s. induction l1 as [| a l1 IH]; intros s; [reflexivity |].
  cbn [app for_each]. unfold bind.
  destruct (body a s) as [s1 [e | []]]; [reflexivity | apply IH].
Qed.

End Exceptions.

(** C5 (as amended): an exception raised by a hook or handler while the
    tree of a file is rewritten is not caught by the rewriter nor by
    [generate]: the run ends with that exception in the state in which
    it was raised.  The files before it in the run have been written;
    the file itself and the files after it are not processed. *)
Theorem handler_failure_ends_run (to_source : value -> string)
  (cls : GeneratorClass) (custom : option (gmap string (handler Gen)))
  (g g1 g1' g2 : Gen) (k : nat) (file : string) (parser : DefaultASTParser)
  (e : exn) :
  k < length (parsers g) ->
  for_each (seq 0 k) (generate_file to_source cls custom) g = (g1, inr tt) ->
  parsers g1 !! k = Some (file, parser) ->
  basename (file_name parser) <> "__init__.py" ->
  _preprocess cls file k g1 = (g1', inr tt) ->
  parser_at k g1' = (g1', inr parser) ->
  raises_in (_build_rewriter cls custom) (ast parser) g1' g2 e ->
  generate_file to_source cls custom k g1 = (g2, inl e)
  /\ generate to_source cls custom g = (g2, inl e).
Proof.
  intros Hk Hbefore Hidx Hname Hpre Hparser Hraise.
  assert (Hfile : generate_file to_source cls custom k g1 = (g2, inl e)).
  { unfold generate_file. unfold bind at 1. cbn [get]. rewrite Hidx.
    apply String.eqb_neq in Hname. rewrite Hname.
    rewrite (bind_ok _ _ _ _ _ Hpre). apply bind_err.
    unfold visit_tree. rewrite (bind_ok _ _ _ _ _ Hparser).
    apply bind_err. now apply raises_in_visit. }
  split; [exact Hfile |].
  unfold generate. unfold bind at 1. cbn [get].
  replace (length (parsers g)) with (k + S (length (parsers g) - S k)) by lia.
  rewrite seq_app, for_each_app, Hbefore.
  cbn [seq for_each plus]. now apply bind_err.
Qed.

(** ** The postprocess pass of segment-level generation *)

Lemma bind_inv {St A B} (m : M St A) (k : A -> M St B) s s' r :
  bind m k s = (s', r) ->
  (exists e, m s = (s', inl e) /\ r = inl e)
  \/ (exists s1 a, m s = (s1, inr a) /\ k a s1 = (s', r)).
Proof.
  unfold bind. destruct (m s) as [s1 [e | a]]; intros H.
  - left. inversion H; subst. eauto.
  - right. eauto.
Qed.

Lemma class_imports_targets cls :
  targets class_imports_rewriter !! cls =
  if is_import cls then Some _rewrite_class_imports else None.
Proof.
  cbn [class_imports_rewriter targets]. unfold is_import.
  destruct (String.eqb cls "ImportFrom") eqn:E1.
  - apply String.eqb_eq in E1. subst cls. now rewrite lookup_insert_eq.
  - apply String.eqb_neq in E1. rewrite lookup_insert_ne by congruence.
    rewrite orb_false_r.
    destruct (String.eqb cls "Import") eqn:E2.
    + apply String.eqb_eq in E2. subst cls. now rewrite lookup_singleton_eq.
    + apply String.eqb_neq in E2. now rewrite lookup_singleton_ne by congruence.
Qed.

(** The handler returns the node or the sentinel, never touches the
    state, and raises on every node that is not an [ImportFrom]. *)
Lemma _rewrite_class_imports_cases node s s' r :
  _rewrite_class_imports node s = (s', r) ->
  s' = s /\
  match r with
  | inr r' => class_name node = "ImportFrom" /\ (r' = REMOVE_NODE \/ r' = node)
  | inl e => class_name node = "ImportFrom" \/ e = not_an_exception
  end.
Proof.
  unfold _rewrite_class_imports.
  destruct (String.eqb (class_name node) "ImportFrom") eqn:E;
    [| intros H; inversion H; auto].
  apply String.eqb_eq in E. intros H.
  apply bind_inv in H as [(? & Hm & ->) | (? & names & Hm & H)];
    unfold lift in Hm; inversion Hm; subst; [auto |]. clear Hm.
  apply bind_inv in H as [(? & Hm & ->) | (? & first & Hm & H)];
    unfold lift in Hm; inversion Hm; subst; [auto |]. clear Hm.
  apply bind_inv in H as [(? & Hm & ->) | (? & asname & Hm & H)];
    unfold lift in Hm; inversion Hm; subst; [auto |]. clear Hm.
  apply bind_inv in H as [(? & Hm & ->) | (? & name & Hm & H)];
    (destruct (truthy asname); unfold lift, ret in Hm; inversion Hm; subst);
    auto; clear Hm.
  all: apply bind_inv in H as [(? & Hm & ->) | (? & bases & Hm & H)];
    unfold self_attr in Hm; destruct (base_parsers _); inversion Hm; subst;
    auto; clear Hm.
  all: destruct name; try (inversion H; auto; fail);
    destruct (vmem _ _); inversion H; auto.
Qed.

Lemma class_imports_state : all_preserve eq class_imports_rewriter.
Proof.
  intros k h [H | [H | H]] v.
  - rewrite class_imports_targets in H. destruct (is_import k); [| discriminate].
    inversion H. intros s s' r Hr.
    now destruct (_rewrite_class_imports_cases _ _ _ _ Hr) as [-> _].
  - cbn in H. now rewrite lookup_empty in H.
  - cbn in H. now rewrite lookup_empty in H.
Qed.

Lemma class_imports_visit_state v s s' r :
  visit class_imports_rewriter v s = (s', r) -> s' = s.
Proof.
  intros H. symmetry.
  exact (visit_preserves eq (fun s => eq_refl)
           (fun a b c H1 H2 => eq_trans H1 H2) _ class_imports_state _ _ _ _ H).
Qed.














(** ** Segment-level generation *)

Lemma same_analysis_refl s : same_analysis s s.
Proof. now repeat split. Qed.

Lemma same_analysis_trans a b c :
  same_analysis a b -> same_analysis b c -> same_analysis a c.
Proof.
  intros (H1 & H2 & H3 & H4) (H1' & H2' & H3' & H4').
  repeat split; congruence.
Qed.

Lemma preserves_eq_analysis {A} (m : M Gen A) :
  preserves eq m -> preserves same_analysis m.
Proof. intros H s s' r Hm. rewrite (H _ _ _ Hm). apply same_analysis_refl. Qed.

Lemma self_attr_state {A} (proj : Gen -> option A) name :
  preserves eq (self_attr proj name).
Proof.
  intros s s' r. unfold self_attr. destruct (proj s); intros H; now inversion H.
Qed.

Lemma eq_bind {St A B} (m : M St A) (k : A -> M St B) :
  preserves eq m -> (forall a, preserves eq (k a)) -> preserves eq (bind m k).
Proof. apply preserves_bind. intros a b c. apply eq_trans. Qed.

Lemma eq_ret {St A} (a : A) : preserves (St := St) eq (ret a).
Proof. now apply preserves_ret. Qed.

Lemma eq_lift {St A} (x : exn + A) : preserves (St := St) eq (lift x).
Proof. now apply preserves_lift. Qed.

Lemma rewrite_defs_state node : preserves eq (rewrite_defs node).
Proof.
  unfold rewrite_defs.
  apply eq_bind; [apply eq_lift |]. intros name.
  apply eq_bind; [apply self_attr_state |]. intros extern.
  destruct (negb (vmem name extern)); [| apply eq_ret].
  apply eq_bind; [apply self_attr_state |]. intros local.
  destruct (negb (vmem name local)); apply eq_ret.
Qed.

Lemma alter_parser_local_def name n cur s :
  same_analysis s (alter_parser (set_local_def name n) cur s).
Proof.
  repeat split. unfold alter_parser. cbn [parsers set_parsers].
  generalize (parsers s). clear s. intros l. revert cur.
  induction l as [| kp l IH]; intros [| cur]; cbn; try reflexivity.
  f_equal. apply IH.
Qed.

Lemma sa_bind {A B} (m : M Gen A) (k : A -> M Gen B) :
  preserves same_analysis m -> (forall a, preserves same_analysis (k a)) ->
  preserves same_analysis (bind m k).
Proof. apply preserves_bind. exact same_analysis_trans. Qed.

Lemma sa_eq {A} (m : M Gen A) : preserves eq m -> preserves same_analysis m.
Proof. apply preserves_eq_analysis. Qed.

Lemma set_base_parsers_analysis bp s : same_analysis s (set_base_parsers bp s).
Proof. now repeat split. Qed.

Lemma run_merge_state cur bp name : preserves same_analysis (run_merge cur bp name).
Proof.
  unfold run_merge. apply sa_bind.
  { apply sa_eq. intros s s' r. unfold parser_at.
    destruct (parsers s !! cur); intros H; now inversion H. }
  intros parser. apply sa_bind; [apply sa_eq, eq_lift |].
  intros cm s s' r.
  destruct (ClassMerging.merge (deref_bases s bp) cm) as [cm' r'].
  intros H. inversion H. apply alter_parser_local_def.
Qed.

Lemma seg_hook_state node : preserves same_analysis (_classdef_hook node).
Proof.
  unfold _classdef_hook.
  apply sa_bind; [apply sa_eq, eq_lift |]. intros name.
  apply sa_bind; [apply sa_eq, self_attr_state |]. intros info_all.
  destruct name as [| name | | |]; try (apply sa_eq, eq_ret).
  2: { apply sa_eq. now apply preserves_raise. }
  destruct (assoc name info_all) as [info |]; [| apply sa_eq, eq_ret].
  intros s s' r H.
  apply bind_inv in H as [(? & Hm & ->) | (? & self & Hm & H)];
    inversion Hm; subst; clear Hm.
  apply bind_inv in H as [(? & Hm & ->) | (? & bp & Hm & H)];
    unfold lift in Hm; inversion Hm; subst; clear Hm;
    [apply same_analysis_refl |].
  apply bind_inv in H as [(? & Hm & ->) | (? & ? & Hm & H)];
    inversion Hm; subst; clear Hm.
  eapply same_analysis_trans; [apply (set_base_parsers_analysis bp) |].
  set (s0 := set_base_parsers bp _) in *. clearbody s0.
  apply bind_inv in H as [(? & Hm & ->) | (s1 & cur & Hm & H)].
  { apply sa_eq in Hm; [exact Hm | apply self_attr_state]. }
  pose proof (self_attr_state _ _ _ _ _ Hm) as <-.
  apply bind_inv in H as [(? & Hm' & ->) | (s2 & ? & Hm' & H)].
  - exact (run_merge_state _ _ _ _ _ _ Hm').
  - inversion H; subst. exact (run_merge_state _ _ _ _ _ _ Hm').
Qed.

Lemma seg_targets cls :
  targets (_build_rewriter SegmentCodeGenerator None) !! cls =
  if is_import cls then Some rewrite_imports
  else if is_def_class cls then Some rewrite_defs else None.
Proof.
  cbn [_build_rewriter targets update_funcs]. unfold is_import, is_def_class.
  destruct (String.eqb cls "Import") eqn:E1.
  { apply String.eqb_eq in E1. subst cls. now rewrite lookup_insert_eq. }
  apply String.eqb_neq in E1. rewrite lookup_insert_ne by congruence.
  destruct (String.eqb cls "ImportFrom") eqn:E2.
  { apply String.eqb_eq in E2. subst cls. now rewrite lookup_insert_eq. }
  apply String.eqb_neq in E2. rewrite lookup_insert_ne by congruence.
  destruct (String.eqb cls "FunctionDef") eqn:E3.
  { apply String.eqb_eq in E3. subst cls. now rewrite lookup_insert_eq. }
  apply String.eqb_neq in E3. rewrite lookup_insert_ne by congruence.
  destruct (String.eqb cls "ClassDef") eqn:E4.
  { apply String.eqb_eq in E4. subst cls. now rewrite lookup_singleton_eq. }
  apply String.eqb_neq in E4. now rewrite lookup_singleton_ne by congruence.
Qed.

Lemma seg_pre_hooks cls :
  pre_hooks (_build_rewriter SegmentCodeGenerator None) !! cls =
  if String.eqb cls "ClassDef" then Some _classdef_hook else None.
Proof.
  cbn [_build_rewriter pre_hooks].
  destruct (String.eqb cls "ClassDef") eqn:E.
  - apply String.eqb_eq in E. subst cls. now rewrite lookup_singleton_eq.
  - apply String.eqb_neq in E. now rewrite lookup_singleton_ne by congruence.
Qed.

Lemma seg_rewriter_state :
  all_preserve same_analysis (_build_rewriter SegmentCodeGenerator None).
Proof.
  intros k h [H | [H | H]] v.
  - rewrite seg_targets in H. destruct (is_import k).
    + inversion H. apply preserves_eq_analysis, rewrite_imports_state.
    + destruct (is_def_class k); [| discriminate].
      inversion H. apply preserves_eq_analysis, rewrite_defs_state.
  - rewrite seg_pre_hooks in H. destruct (String.eqb k "ClassDef"); [| discriminate].
    inversion H. apply seg_hook_state.
  - cbn in H. now rewrite lookup_empty in H.
Qed.

Lemma seg_visit_state v s s' r :
  visit (_build_rewriter SegmentCodeGenerator None) v s = (s', r) ->
  same_analysis s s'.
Proof.
  exact (visit_preserves same_analysis same_analysis_refl same_analysis_trans
           _ seg_rewriter_state v s s' r).
Qed.


Lemma is_import_not_def cls : is_import cls = true -> is_def_class cls = false.
Proof.
  unfold is_import, is_def_class. intros H.
  apply orb_true_iff in H as [H | H]; apply String.eqb_eq in H; now subst.
Qed.

Lemma run_pre_hook_analysis v :
  preserves same_analysis
    (run_pre_hook (_build_rewriter SegmentCodeGenerator None) v).
Proof.
  unfold run_pre_hook. rewrite seg_pre_hooks.
  destruct (String.eqb (class_name v) "ClassDef"); [| apply sa_eq, eq_ret].
  apply sa_bind; [apply seg_hook_state | intros; apply sa_eq, eq_ret].
Qed.

(** What the segment-level rewriter returns for a node: a definition
    comes back untouched when it is live and is replaced by the sentinel
    when it is not; any other node comes back as a node of its kind. *)
Lemma seg_visit_node cls fields attrs extern local s s' r :
  visit (_build_rewriter SegmentCodeGenerator None) (VAst cls fields attrs) s
  = (s', inr r) ->
  extern_used s = Some extern -> local_used s = Some local ->
  if is_def_class cls
  then r = (if is_live extern local (VAst cls fields attrs)
            then VAst cls fields attrs else REMOVE_NODE)
  else is_ast r = true /\ class_name r = cls.
Proof.
  intros H Hext Hloc. rewrite visit_unfold in H.
  apply bind_inv_ok in H as (s1 & [] & Hpre & H).
  destruct (run_pre_hook_analysis _ _ _ _ Hpre) as (Hext1 & Hloc1 & _).
  rewrite Hext in Hext1. rewrite Hloc in Hloc1. clear Hpre.
  apply bind_inv_ok in H as (s2 & r' & Hd & Hpost).
  rewrite run_post_hook_none in Hpost by apply lookup_empty.
  inversion Hpost; subst. clear Hpost.
  unfold dispatch in Hd. rewrite seg_targets in Hd. cbn [class_name] in Hd.
  destruct (is_import cls) eqn:Ei.
  - rewrite (is_import_not_def _ Ei). split.
    + exact (rewrite_imports_is_ast _ _ _ _ Hd eq_refl).
    + exact (rewrite_imports_class _ _ _ _ Hd).
  - destruct (is_def_class cls) eqn:Ed.
    + unfold rewrite_defs in Hd. unfold is_live.
      apply bind_inv_ok in Hd as (? & name & Hm & Hd).
      unfold lift in Hm.
      destruct (getattr (VAst cls fields attrs) "name") as [e | name'];
        inversion Hm; subst; clear Hm.
      apply bind_inv_ok in Hd as (? & ext & Hm & Hd).
      unfold self_attr in Hm. rewrite Hext1 in Hm. inversion Hm; subst. clear Hm.
      destruct (vmem name ext); cbn [negb orb] in Hd |- *;
        [now inversion Hd |].
      apply bind_inv_ok in Hd as (? & loc & Hm & Hd).
      unfold self_attr in Hm. rewrite Hloc1 in Hm. inversion Hm; subst. clear Hm.
      destruct (vmem name loc); cbn [negb] in Hd; now inversion Hd.
    + unfold generic_visit, generic_visit_with in Hd.
      apply bind_inv_ok in Hd as (s3 & fields' & Hf & Hret).
      inversion Hret; subst. now split.
Qed.





Lemma post_visit_node cls fields attrs s s' r :
  visit class_imports_rewriter (VAst cls fields attrs) s = (s', inr r) ->
  if is_import cls then r = REMOVE_NODE \/ r = VAst cls fields attrs
  else exists fields',
      r = VAst cls fields' attrs
      /\ visit_fields (visit class_imports_rewriter) cls fields s
         = (s', inr fields').
Proof.
  intros H. rewrite visit_unfold in H.
  rewrite run_pre_hook_none in H by apply lookup_empty.
  apply bind_inv_ok in H as (s1 & [] & Hpre & H). inversion Hpre; subst s1.
  apply bind_inv_ok in H as (s2 & r' & Hd & Hpost).
  rewrite run_post_hook_none in Hpost by apply lookup_empty.
  inversion Hpost; subst. clear Hpost Hpre.
  unfold dispatch in Hd. rewrite class_imports_targets in Hd.
  cbn [class_name] in Hd. destruct (is_import cls).
  - now destruct (_rewrite_class_imports_cases _ _ _ _ Hd) as [_ [_ Hc]].
  - unfold generic_visit, generic_visit_with in Hd.
    apply bind_inv_ok in Hd as (s3 & fields' & Hf & Hret).
    inversion Hret; subst. eauto.
Qed.



Lemma foldM_state {St A B} (f : B -> A -> M St B) l :
  (forall b a, preserves eq (f b a)) -> forall b, preserves eq (foldM f l b).
Proof.
  intros Hf. induction l as [| a l IH]; intros b; cbn [foldM].
  - apply eq_ret.
  - apply eq_bind; [apply Hf | intros; apply IH].
Qed.


(** Reading [imports_info] changes nothing else in the generator. *)
Lemma imports_info_read_eq file g :
  imports_info_read file g
  = set_imports_info (imports_info (imports_info_read file g)) g.
Proof.
  unfold imports_info_read. destruct (assoc file (imports_info g)).
  - now destruct g.
  - reflexivity.
Qed.

Lemma imports_info_read_parsers file g :
  parsers (imports_info_read file g) = parsers g.
Proof. now rewrite imports_info_read_eq. Qed.


Lemma visit_module {St} (rw : Rewriter St) body others attrs s s' r :
  targets rw !! "Module" = None ->
  pre_hooks rw !! "Module" = None ->
  post_hooks rw !! "Module" = None ->
  visit rw (VAst "Module" (("body", VList body) :: others) attrs) s = (s', inr r) ->
  exists s1 body' others',
    visit_items (visit rw) body s = (s1, inr body')
    /\ r = VAst "Module" (("body", VList body') :: others') attrs.
Proof.
  intros Htgt Hpre Hpost H. rewrite visit_unfold in H.
  rewrite run_pre_hook_none in H by exact Hpre.
  apply bind_inv_ok in H as (s0 & [] & Hm & H). inversion Hm; subst s0.
  apply bind_inv_ok in H as (s2 & r' & Hd & Hp).
  rewrite run_post_hook_none in Hp by exact Hpost. inversion Hp; subst.
  unfold dispatch in Hd. cbn [class_name] in Hd. rewrite Htgt in Hd.
  unfold generic_visit, generic_visit_with in Hd.
  apply bind_inv_ok in Hd as (s3 & fields' & Hf & Hret).
  inversion Hret; subst. cbn [visit_fields] in Hf.
  apply bind_inv_ok in Hf as (s4 & body' & Hb & Hf).
  apply bind_inv_ok in Hf as (s5 & others' & Ho & Hret').
  inversion Hret'; subst. eauto.
Qed.

Lemma lookup_map {A B} (f : A -> B) (l : list A) idx :
  map f l !! idx = f <$> l !! idx.
Proof.
  revert idx. induction l as [| x l IH]; intros [| idx]; cbn; auto.
Qed.


Lemma lookup_alter_parser f idx g k p :
  parsers g !! idx = Some (k, p) ->
  parsers (alter_parser f idx g) !! idx = Some (k, f p).
Proof.
  intros H. unfold alter_parser. cbn [parsers set_parsers].
  rewrite list_lookup_alter, decide_True by reflexivity. now rewrite H.
Qed.





(** C3: on an [ImportFrom] node that carries the [is_target] mark and
    names no module ([from . import x], whose [module] is [None]),
    [rewrite_imports] raises, whatever the module mapping holds: [None]
    is no key of the mapping, and the other branch calls [split] on it.
    The module reference is not replaced and the level is not reset:
    the handler returns no node, and leaves the generator as it was. *)
Theorem rewrite_imports_fails_without_module (node : value) (self : Gen) :
  class_name node = "ImportFrom" ->
  hasattr node "is_target" = true ->
  getattr node "module" = inr VNone ->
  rewrite_imports node self = (self, inl (AttributeError "split"))
  /\ forall node', rewrite_imports node self <> (self, inr node').
Proof.
  intros Hcls Hmark Hmod.
  assert (H : rewrite_imports node self = (self, inl (AttributeError "split"))).
  { unfold rewrite_imports. rewrite Hcls, Hmark. cbn [String.eqb andb].
    unfold bind, lift, get. now rewrite Hmod. }
  split; [exact H |]. intros node'. rewrite H. discriminate.
Qed.

(** ** The properties on sample runs *)

Lemma rewrite_imports_target_witness :
  rewrite_imports Examples.helper_import Examples.train_run
  = (Examples.train_run, inr (Ast.ImportFrom (VStr "util") ["helper"] 0 true)).
Proof.
  exact (proj1 (rewrite_imports_target Examples.helper_import
                  Examples.train_run "pkg.util" eq_refl eq_refl eq_refl)).
Defined.

(** Without an entry in the mapping the last component is taken and the
    level reset. *)
Example rewrite_imports_fallback :
  rewrite_imports (Ast.ImportFrom (VStr "pkg.sub.tools") ["f"] 2 true)
    Examples.train_run
  = (Examples.train_run, inr (Ast.ImportFrom (VStr "tools") ["f"] 0 true)).
Proof. reflexivity. Qed.

(** [from . import helper] in a file of the corpus: the handler raises,
    with the mapping of the sample run and with any other. *)
Lemma rewrite_imports_fails_without_module_witness :
  rewrite_imports Examples.relative_import Examples.train_run
  = (Examples.train_run, inl (AttributeError "split"))
  /\ forall node',
       rewrite_imports Examples.relative_import Examples.train_run
       <> (Examples.train_run, inr node').
Proof.
  apply (rewrite_imports_fails_without_module Examples.relative_import
           Examples.train_run); reflexivity.
Defined.

Lemma rewrite_imports_external_witness :
  rewrite_imports (Ast.Import ["os"]) Examples.train_run
  = (Examples.train_run, inr (Ast.Import ["os"]))
  /\ rewrite_imports Examples.external_import Examples.train_run
     = (Examples.train_run, inr Examples.external_import).
Proof.
  split; apply rewrite_imports_external.
  - left. reflexivity.
  - right. split; reflexivity.
Defined.




(** An [async def] that nothing uses stays in the tree, next to which
    the unused [def] is deleted. *)
Example unused_async_def_kept :
  let g := Samples.async_run in
  let g1 := fst (_preprocess SegmentCodeGenerator "/src/aio.py" 0 g) in
  let run := visit_tree (_build_rewriter SegmentCodeGenerator None) 0 g1 in
  extern_used g1 = Some [] /\ local_used g1 = Some []
  /\ snd run = inr tt
  /\ (ast ∘ snd) <$> parsers (fst run) !! 0
     = Some (Ast.Module [Ast.AsyncFunctionDef "fetch" [Ast.Pass]]).
Proof. vm_compute. repeat split; reflexivity. Qed.

(** On that run the library keeps the called function and the imported
    class and loses the function nobody uses. *)
Example segment_run_output :
  let run := generate Examples.printer SegmentCodeGenerator None
               Examples.segment_run in
  snd run = inr tt
  /\ (fun kp => top_defs (ast (snd kp))) <$> parsers (fst run) !! 0
     = Some [Examples.used_def; Examples.shared_def].
Proof. vm_compute. split; reflexivity. Qed.



Lemma handler_failure_ends_run_witness :
  let g1 := fst (generate_file Examples.printer FileLevelCodeGenerator None 0
                   Examples.three_files) in
  generate_file Examples.printer FileLevelCodeGenerator None 1 g1
  = (g1, inl (AttributeError "split"))
  /\ generate Examples.printer FileLevelCodeGenerator None Examples.three_files
     = (g1, inl (AttributeError "split")).
Proof.
  intros g1.
  apply (handler_failure_ends_run Examples.printer FileLevelCodeGenerator None
           Examples.three_files g1 g1 g1 1 "/src/b.py" Examples.failing_parser
           (AttributeError "split")).
  - vm_compute. lia.
  - vm_compute. reflexivity.
  - vm_compute. reflexivity.
  - vm_compute. discriminate.
  - reflexivity.
  - vm_compute. reflexivity.
  - apply (raises_item _ "Module" [] "body" [] Examples.relative_import []
             [("type_ignores", VList [])] [] g1 g1 g1 g1 g1 _ [] []);
      try reflexivity.
    apply (raises_handler _ Examples.relative_import rewrite_imports g1 g1 g1);
      try reflexivity.
    discriminate.
Defined.

(** Counterexample to C5 as worded: the third file of the run goes
    through on its own, but the run stops at the second file and never
    writes it. *)
Lemma remaining_files_not_emitted :
  ~ per_file_fatality Examples.printer FileLevelCodeGenerator
      Examples.three_files.
Proof.
  intros H.
  destruct (H 2 "/src/c.py" (Examples.plain_parser "/src/c.py")
              (fst (generate_file Examples.printer FileLevelCodeGenerator None 2
                      Examples.three_files)))
    as [contents Hc].
  - reflexivity.
  - vm_compute. discriminate.
  - vm_compute. reflexivity.
  - vm_compute in Hc. discriminate Hc.
Qed.

(** ** Class merging *)

Lemma merge_methods_keeps_names node :
  preserves (fun s s' => ClassMerging.methods s' = ClassMerging.methods s)
    (ClassMerging._merge_methods node).
Proof.
  intros s s' r H. unfold ClassMerging._merge_methods in H.
  apply bind_inv in H as [(? & Hm & ->) | (? & name & Hm & H)];
    unfold lift in Hm; inversion Hm; subst; clear Hm; [reflexivity |].
  apply bind_inv in H as [(? & Hm & ->) | (? & self & Hm & H)];
    inversion Hm; subst; clear Hm.
  destruct (negb (mem name (ClassMerging.methods self)));
    [| now inversion H].
  apply bind_inv in H as [(? & Hm & ->) | (? & cls & Hm & H)];
    unfold lift in Hm; inversion Hm; subst; clear Hm; [reflexivity |].
  apply bind_inv in H as [(? & Hm & ->) | (? & ? & Hm & H)];
    inversion Hm; subst; clear Hm.
  now inversion H.
Qed.

(** The names against which [_merge_methods] checks are those collected
    when the [ClassMerging] object was built: a merge never adds the
    names of the methods it copies. *)
Lemma merge_keeps_methods bases :
  forall cm cm' r,
    ClassMerging.merge bases cm = (cm', r) ->
    ClassMerging.methods cm' = ClassMerging.methods cm.
Proof.
  assert (Hvisit : forall v,
    preserves (fun s s' => ClassMerging.methods s' = ClassMerging.methods s)
      (visit ClassMerging.rewriter v)).
  { apply visit_preserves; [reflexivity | intros a b c; congruence |].
    intros k h [H | [H | H]] v; cbn in H.
    - destruct (decide (k = "FunctionDef")) as [-> | Hk].
      + rewrite lookup_insert_eq in H. inversion H.
        apply merge_methods_keeps_names.
      + rewrite lookup_insert_ne in H by congruence.
        destruct (decide (k = "Name")) as [-> | Hk'].
        * rewrite lookup_singleton_eq in H. inversion H.
          intros s s' r Hr. now inversion Hr.
        * rewrite lookup_singleton_ne in H by congruence. discriminate H.
    - now rewrite lookup_empty in H.
    - now rewrite lookup_empty in H. }
  induction bases as [| [base_name base_parser] rest IH]; intros cm cm' r H;
    cbn [ClassMerging.merge] in H.
  - now inversion H.
  - apply bind_inv in H as [(? & Hm & ->) | (? & ? & Hm & H)];
      inversion Hm; subst; clear Hm.
    apply bind_inv in H as [(? & Hm & ->) | (? & base_node & Hm & H)];
      unfold lift in Hm; inversion Hm; subst; clear Hm; [reflexivity |].
    apply bind_inv in H as [(? & Hm & ->) | (? & bases & Hm & H)];
      unfold lift in Hm; inversion Hm; subst; clear Hm; [reflexivity |].
    apply bind_inv in H as [(? & Hm & ->) | (? & ? & Hm & H)];
      inversion Hm; subst; clear Hm.
    apply bind_inv in H as [(? & Hm & ->) | (s1 & ? & Hm & H)].
    + exact (Hvisit _ _ _ _ Hm).
    + rewrite (IH _ _ _ H). exact (Hvisit _ _ _ _ Hm).
Qed.

(** With one base, the method that the subclass lacks is copied once. *)
Example merge_single_base :
  exists cm cm',
    ClassMerging.init
      (Examples.class_parser "/src/child.py" Examples.child_class "Child")
      "Child" = inr cm
    /\ ClassMerging.merge Examples.one_base cm = (cm', inr tt)
    /\ getattr (ClassMerging.cls_node cm') "body"
       = inr (VList [Examples.own_method; Examples.method1_of "Base1"]).
Proof. do 2 eexists. repeat split; vm_compute; reflexivity. Qed.

(** A method that the subclass defines is not copied from the base. *)
Example merge_keeps_override :
  exists cm cm',
    ClassMerging.init
      (Examples.class_parser "/src/child.py" Examples.overriding_child "Child")
      "Child" = inr cm
    /\ ClassMerging.merge Examples.one_base cm = (cm', inr tt)
    /\ getattr (ClassMerging.cls_node cm') "body"
       = inr (VList [Examples.method1_of "Child"]).
Proof. do 2 eexists. repeat split; vm_compute; reflexivity. Qed.

(** C2: merging [class Child(Base1, Base2)], where both bases define
    [method1] and [Child] does not, copies the method of [Base1] and then
    the method of [Base2] as well: the names collected from [Child] are
    still [own] alone after the first copy, and the merged class holds
    two definitions of [method1]. *)
Theorem merge_copies_shared_method_twice :
  exists cm cm',
    ClassMerging.init
      (Examples.class_parser "/src/child.py" Examples.child_class "Child")
      "Child" = inr cm
    /\ ClassMerging.methods cm = ["own"]
    /\ ClassMerging.merge Examples.two_bases cm = (cm', inr tt)
    /\ ClassMerging.methods cm' = ["own"]
    /\ getattr (ClassMerging.cls_node cm') "body"
       = inr (VList [Examples.own_method; Examples.method1_of "Base1";
                     Examples.method1_of "Base2"]).
Proof. do 2 eexists. repeat split; vm_compute; reflexivity. Qed.

(** ** Writing the generated files *)

Lemma _generate_from_ast_writes (to_source : value -> string) filename tree g :
  _generate_from_ast to_source filename tree g
  = (set_files (<[filename := CODEGEN_PREFIX +:+ to_source tree]> (files g)) g,
     inr tt).
Proof. reflexivity. Qed.

(** C4: a run into a directory that already holds [train.py] ends
    without an exception and the file holds the generated text, in
    file-level and in segment-level mode alike: [generate] takes no force
    flag and [_generate_from_ast] opens the file for writing whatever is
    there.  [generate_init] and [copy_file] do refuse, with a
    [RuntimeError], when the file exists and [force] is not set. *)
Theorem generate_overwrites_existing_file :
  let g := Examples.train_run_existing in
  let run := generate Examples.printer FileLevelCodeGenerator None g in
  let seg := generate Examples.printer SegmentCodeGenerator None
               Examples.segment_run_existing in
  files g !! "out/train.py" = Some "precious"
  /\ snd run = inr tt
  /\ files (fst run) !! "out/train.py"
     = Some (CODEGEN_PREFIX +:+ "Module:ImportFrom,Import,FunctionDef,ClassDef")
  /\ files Examples.segment_run_existing !! "out/lib.py" = Some "precious"
  /\ snd seg = inr tt
  /\ files (fst seg) !! "out/lib.py"
     = Some (CODEGEN_PREFIX +:+ "Module:FunctionDef,ClassDef,Expr")
  /\ generate_init "out" false g = (g, inl (RuntimeError "__init__.py exists!"))
  /\ copy_file "/src/train.py" "out" false g
     = (g, inl (RuntimeError "/src/train.py exists!"))
  /\ snd (generate_init "out" true g) = inr tt.
Proof. vm_compute. repeat split; reflexivity. Qed.

(** The sample generators are what [__init__] builds. *)
Example generator_from_init :
  __init__ (fun p => p) SegmentCodeGenerator "out"
    (mkCorpus
       [("/src/lib.py", Examples.lib_parser); ("/src/main.py", Examples.main_parser)]
       [("/src/lib.py", []); ("/src/main.py", ["/src/lib.py"])])
    None None ∅
  = inr Examples.segment_run
  /\ imports_info Examples.segment_run = [("/src/lib.py", ["/src/main.py"])].
Proof. split; reflexivity. Qed.

(** A file with a [from] import stops the postprocess pass of a run in
    which no class was merged: [base_parsers] was never set. *)
Example segment_stops_at_from_import :
  let run := generate Examples.printer SegmentCodeGenerator None
               Examples.train_run in
  snd run = inl (AttributeError "base_parsers")
  /\ files (fst run) !! "out/train.py" = None.
Proof. vm_compute. split; reflexivity. Qed.

(** * Further properties of the code *)

(** ** Reverse index of the imports *)

Lemma imports_info_step file f target_file :
  forall extra_info : list (string * list string),
    default [] (assoc f
      (fold_left
         (fun extra_info f =>
            assoc_set f (default [] (assoc f extra_info) ++ [file]) extra_info)
         target_file extra_info))
    = default [] (assoc f extra_info)
      ++ map (fun _ => file) (List.filter (String.eqb f) target_file).
Proof.
  induction target_file as [| t l IH]; intros extra_info; cbn [fold_left].
  - cbn. now rewrite app_nil_r.
  - rewrite IH. cbn [List.filter].
    destruct (String.eqb f t) eqn:E.
    + apply String.eqb_eq in E. subst t. rewrite assoc_set_same.
      cbn. now rewrite <- List.app_assoc.
    + apply String.eqb_neq in E. now rewrite assoc_set_other by exact E.
Qed.

Lemma imports_info_fold f relation :
  forall extra_info : list (string * list string),
    default [] (assoc f
      (fold_left
         (fun extra_info '(file, target_file) =>
            fold_left
              (fun extra_info f =>
                 assoc_set f (default [] (assoc f extra_info) ++ [file]) extra_info)
              target_file extra_info)
         relation extra_info))
    = default [] (assoc f extra_info) ++ importers_of f relation.
Proof.
  induction relation as [| [file tf] l IH]; intros extra_info; cbn [fold_left].
  - cbn. now rewrite app_nil_r.
  - rewrite IH, imports_info_step. cbn [importers_of flat_map].
    now rewrite <- app_assoc.
Qed.

(** X1: [_get_imports_info] inverts the import relation: under a file
    [f] it lists, in the order of [relation], every file that has [f]
    among its targets, once for every time [f] occurs there, and a file
    that nobody imports from reads as the empty list.  So a file is
    listed under [f] exactly when [f] is one of its targets. *)
Theorem imports_info_is_reverse_index (relation : list (string * list string))
  (f : string) :
  default [] (assoc f (_get_imports_info relation)) = importers_of f relation
  /\ (forall file,
         In file (default [] (assoc f (_get_imports_info relation)))
         <-> exists target_file, In (file, target_file) relation /\ In f target_file).
Proof.
  assert (H : default [] (assoc f (_get_imports_info relation))
              = importers_of f relation).
  { unfold _get_imports_info. now rewrite imports_info_fold. }
  split; [exact H |]. rewrite H. intros file. unfold importers_of.
  rewrite in_flat_map. split.
  - intros ([file' tf] & Hin & Hf). apply in_map_iff in Hf as (x & <- & Hx).
    apply filter_In in Hx as [Hx Heq]. apply String.eqb_eq in Heq. subst x.
    eauto.
  - intros (tf & Hin & Hf). exists (file, tf). split; [exact Hin |].
    apply in_map_iff. exists f. split; [reflexivity |].
    apply filter_In. split; [exact Hf | apply String.eqb_refl].
Qed.

(** ** File names *)

Lemma after_last_none sep s : occurs sep s = false -> after_last sep s = s.
Proof.
  destruct s as [| c s]; cbn; [reflexivity |]. now intros ->.
Qed.

Lemma split_two sep s :
  occurs sep s = true -> exists a b l, split sep s = a :: b :: l.
Proof.
  induction s as [| c s IH]; cbn; [discriminate |].
  destruct (Ascii.eqb c sep); cbn [orb].
  - intros _. destruct s as [| c' s']; cbn; eauto.
    destruct (Ascii.eqb c' sep); eauto.
    destruct (split sep s'); eauto.
  - intros H. destruct (IH H) as (a & b & l & ->). eauto.
Qed.

Lemma split_one sep s : occurs sep s = false -> split sep s = [s].
Proof.
  induction s as [| c s IH]; cbn; [reflexivity |].
  destruct (Ascii.eqb c sep); cbn [orb]; [discriminate |].
  intros H. now rewrite (IH H).
Qed.

Lemma concat_cons_char sep c w l :
  String.concat sep (String c w :: l) = String c (String.concat sep (w :: l)).
Proof. destruct l; reflexivity. Qed.

(** [s.split(sep)[-1]] is the last item of [s.split(sep)]. *)
Lemma after_last_split sep s : List.last (split sep s) "" = after_last sep s.
Proof.
  induction s as [| c s IH]; [reflexivity |].
  cbn [split after_last]. destruct (Ascii.eqb c sep) eqn:E; cbn [orb].
  - rewrite <- IH. destruct (split sep s) eqn:Es; [| reflexivity].
    destruct s; cbn in Es; [discriminate |].
    destruct (Ascii.eqb a sep); [discriminate |]. now destruct (split sep s).
  - destruct (occurs sep s) eqn:Eo.
    + destruct (split_two _ _ Eo) as (a & b & l & Es). rewrite <- IH, Es.
      reflexivity.
    + now rewrite (split_one _ _ Eo).
Qed.

Lemma concat_cons2 sep a x l :
  String.concat sep (a :: x :: l) = a +:+ sep +:+ String.concat sep (x :: l).
Proof. reflexivity. Qed.

Lemma join_split_stem sep s :
  if occurs sep s
  then String.concat (String sep "") (removelast (split sep s))
         +:+ String sep (after_last sep s) = s
  else removelast (split sep s) = [].
Proof.
  induction s as [| c s IH]; [reflexivity |].
  cbn [occurs split after_last].
  destruct (Ascii.eqb c sep) eqn:E; cbn [orb].
  - apply Ascii.eqb_eq in E. subst c.
    destruct (occurs sep s) eqn:Eo.
    + destruct (split_two _ _ Eo) as (a & b & l & Es). rewrite Es in *.
      change (removelast ("" :: a :: b :: l)) with ("" :: a :: removelast (b :: l)).
      change (removelast (a :: b :: l)) with (a :: removelast (b :: l)) in IH.
      rewrite concat_cons2.
      remember (String.concat (String sep "") (a :: removelast (b :: l))) as stem.
      change (String sep (stem +:+ String sep (after_last sep s)) = String sep s).
      f_equal. exact IH.
    + rewrite (split_one _ _ Eo). rewrite (after_last_none _ _ Eo). reflexivity.
  - destruct (occurs sep s) eqn:Eo.
    + destruct (split_two _ _ Eo) as (a & b & l & Es). rewrite Es in *.
      change (removelast (String c a :: b :: l))
        with (String c a :: removelast (b :: l)).
      change (removelast (a :: b :: l)) with (a :: removelast (b :: l)) in IH.
      rewrite concat_cons_char.
      remember (String.concat (String sep "") (a :: removelast (b :: l))) as stem.
      change (String c (stem +:+ String sep (after_last sep s)) = String c s).
      f_equal. exact IH.
    + now rewrite (split_one _ _ Eo).
Qed.

Lemma occurs_app sep a b : occurs sep (a +:+ b) = occurs sep a || occurs sep b.
Proof.
  induction a as [| c a IH]; [reflexivity |].
  change (String c a +:+ b) with (String c (a +:+ b)). cbn [occurs].
  rewrite IH. now rewrite orb_assoc.
Qed.

(** X2: [_get_file_name] gives the base name of the path without its
    last extension: followed by a dot and the text after the last dot it
    is the base name again.  A base name without a dot gives the empty
    string, and the result never holds a slash. *)
Theorem get_file_name_drops_last_extension (file_path : string) :
  (if occurs "."%char (basename file_path)
   then _get_file_name file_path +:+ "." +:+ after_last "."%char (basename file_path)
        = basename file_path
   else _get_file_name file_path = "")
  /\ occurs "/"%char (_get_file_name file_path) = false.
Proof.
  unfold _get_file_name.
  pose proof (join_split_stem "."%char (basename file_path)) as H.
  pose proof (after_last_no_sep "/"%char file_path) as Hsl.
  fold (basename file_path) in Hsl.
  destruct (occurs "."%char (basename file_path)).
  - split; [exact H |].
    rewrite <- H in Hsl. rewrite occurs_app in Hsl.
    now apply orb_false_iff in Hsl as [Hsl _].
  - rewrite H. split; reflexivity.
Qed.

(** ** Guarded writes *)

(** X3: [generate_init], in a directory that exists, raises
    [RuntimeError] and changes nothing exactly when [force] is not set
    and the directory already holds an [__init__.py]; otherwise it
    returns normally and its only effect is that this file holds the
    banner line and nothing else.  Without [force], every file that
    existed keeps its contents. *)
Theorem generate_init_guards_existing_file (target_path : string) (force : bool)
  (g : Gen) :
  let path := osp_join target_path "__init__.py" in
  let '(g', r) := generate_init target_path force g in
  match r with
  | inl e =>
      e = RuntimeError "__init__.py exists!" /\ g' = g
      /\ force = false /\ is_Some (files g !! path)
  | inr _ =>
      g' = set_files (<[path := CODEGEN_PREFIX]> (files g)) g
      /\ (force = false ->
          files g !! path = None
          /\ forall other contents,
               files g !! other = Some contents ->
               files g' !! other = Some contents)
  end.
Proof.
  cbv zeta. unfold generate_init, bind, get, _is_file_exist.
  destruct force; cbn [negb andb].
  - cbn. split; [reflexivity | discriminate].
  - destruct (bool_decide (is_Some (files g !! osp_join target_path "__init__.py")))
      eqn:E.
    + apply bool_decide_eq_true in E. cbn. auto.
    + apply bool_decide_eq_false in E. cbn.
      split; [reflexivity |]. intros _.
      assert (Hnone : files g !! osp_join target_path "__init__.py" = None).
      { destruct (files g !! _) eqn:E'; [| reflexivity].
        exfalso. apply E. eauto. }
      split; [exact Hnone |]. intros other contents Ho.
      cbn [files set_files]. rewrite lookup_insert_ne; [exact Ho |]. congruence.
Qed.


(** ** More on the traversal *)

Section Untouched.
Context {St : Type} (rw : Rewriter St).

Lemma items_left_alone items :
  Forall (left_alone rw) items -> forallb (unregistered rw) items = true ->
  forall s, visit_items (visit rw) items s = (s, inr items).
Proof.
  induction 1 as [| x l Hx Hl IH]; intros Hall s; [reflexivity |].
  cbn [forallb] in Hall. apply andb_true_iff in Hall as [Hux Hul].
  specialize (IH Hul).
  destruct x as [| y | z | ys | cls fields attrs]; cbn [visit_items];
    try (rewrite (bind_ok _ _ _ _ _ (IH s)); reflexivity).
  rewrite (bind_ok _ _ _ _ _ (Hx eq_refl Hux s)).
  rewrite (bind_ok _ _ _ _ _ (IH s)). reflexivity.
Qed.

Lemma fields_left_alone kind fields :
  Forall (at_children (left_alone rw)) fields ->
  forallb
    (fun fv =>
       match snd fv with
       | VList items => forallb (unregistered rw) items
       | VAst _ _ _ => unregistered rw (snd fv)
       | _ => true
       end) fields = true ->
  forall s, visit_fields (visit rw) kind fields s = (s, inr fields).
Proof.
  induction 1 as [| [f x] l [Hx Hitems] Hl IH]; intros Hall s; [reflexivity |].
  cbn [forallb snd] in Hall, Hx, Hitems.
  apply andb_true_iff in Hall as [Hux Hul]. specialize (IH Hul).
  destruct x as [| y | z | ys | cls fs attrs]; cbn [visit_fields];
    try (rewrite (bind_ok _ _ _ _ _ (IH s)); reflexivity).
  - rewrite (bind_ok _ _ _ _ _ (items_left_alone _ Hitems Hux s)).
    rewrite (bind_ok _ _ _ _ _ (IH s)). reflexivity.
  - rewrite (bind_ok _ _ _ _ _ (Hx eq_refl Hux s)).
    rewrite (bind_ok _ _ _ _ _ (IH s)). reflexivity.
Qed.

Lemma all_left_alone v : left_alone rw v.
Proof.
  induction v as [| y | z | items | cls fields attrs IH] using traversal_ind;
    intros Hast; try discriminate Hast.
  intros Hun s. cbn [unregistered] in Hun.
  apply andb_true_iff in Hun as [Hreg Hfields].
  apply negb_true_iff in Hreg. unfold registered in Hreg.
  apply orb_false_iff in Hreg as [Hreg Hpost].
  apply orb_false_iff in Hreg as [Htgt Hpre].
  assert (Hnone : forall (m : gmap string (value -> M St value)),
             bool_decide (is_Some (m !! cls)) = false -> m !! cls = None).
  { intros m H. apply bool_decide_eq_false in H.
    destruct (m !! cls) eqn:E; [| reflexivity]. exfalso. apply H. eauto. }
  apply Hnone in Htgt, Hpre, Hpost.
  assert (Hp : run_pre_hook rw (VAst cls fields attrs) s = (s, inr tt))
    by (rewrite run_pre_hook_none by exact Hpre; reflexivity).
  assert (Hd : dispatch rw (VAst cls fields attrs) s
               = (s, inr (VAst cls fields attrs))).
  { unfold dispatch. cbn [class_name]. rewrite Htgt.
    unfold generic_visit, generic_visit_with.
    now rewrite (bind_ok _ _ _ _ _ (fields_left_alone _ _ IH Hfields s)). }
  rewrite visit_unfold.
  rewrite (bind_ok _ _ _ _ _ Hp), (bind_ok _ _ _ _ _ Hd).
  now rewrite run_post_hook_none by exact Hpost.
Qed.

End Untouched.

Lemma at_children_all (P : value -> Prop) :
  (forall v, P v) -> forall fields, Forall (at_children P) fields.
Proof.
  intros HP fields. apply List.Forall_forall. intros [f x] _. split; [apply HP |].
  cbn [snd]. destruct x; try exact I. apply List.Forall_forall. auto.
Qed.

(** X5: a tree in which no node is of a kind that a handler or a hook
    is registered for comes back from [Rewriter.visit], and from
    [generic_visit], as it was, and the state is untouched: the traversal
    by itself changes nothing.  This holds for a rewriter that has no
    handler under one of the former names of the constant kinds, which
    [visit_Constant] of [ast.NodeVisitor] would run on a [Constant] node
    whatever is registered for [Constant], and for a tree whose
    [Constant] nodes hold the value that this method reads. *)
Theorem visit_leaves_unregistered_kinds_alone {St : Type} (rw : Rewriter St)
  (node : value) (s : St) :
  is_ast node = true -> unregistered rw node = true ->
  no_former_constant_handler rw = true ->
  constants_hold_values node = true ->
  visit rw node s = (s, inr node) /\ generic_visit rw node s = (s, inr node).
Proof.
  intros Hast Hun _ _. split; [now apply all_left_alone |].
  destruct node as [| | | | cls fields attrs]; try discriminate Hast.
  cbn [unregistered] in Hun. apply andb_true_iff in Hun as [_ Hfields].
  unfold generic_visit, generic_visit_with.
  rewrite (bind_ok _ _ _ _ _
             (fields_left_alone rw cls fields
                (at_children_all _ (all_left_alone rw) fields) Hfields s)).
  reflexivity.
Qed.

(** X6: when the visit of a node that sits in a list field returns a
    list, the items of that list take the place of the node, in order,
    between the results of its neighbours; they are not visited
    themselves. *)
Theorem list_result_is_spliced {St : Type} (rw : Rewriter St) (c : value)
  (before after replacement : list value) (s0 s1 s2 s3 : St)
  (new1 new2 : list value) :
  is_ast c = true ->
  visit_items (visit rw) before s0 = (s1, inr new1) ->
  visit rw c s1 = (s2, inr (VList replacement)) ->
  visit_items (visit rw) after s2 = (s3, inr new2) ->
  visit_items (visit rw) (before ++ c :: after) s0
  = (s3, inr (new1 ++ replacement ++ new2)).
Proof.
  intros Hast Hb Hc Ha. rewrite visit_items_app, Hb. cbn [then_items].
  destruct c as [| | | | cls fields attrs]; try discriminate Hast.
  cbn [visit_items]. rewrite (bind_ok _ _ _ _ _ Hc).
  unfold lift, extend_with. unfold bind at 1.
  now rewrite (bind_ok _ _ _ _ _ Ha).
Qed.

Section Fields.
Context {St : Type} (vis : value -> M St value) (kind : string).

Lemma visit_fields_app fields1 fields2 :
  forall s s' r,
    visit_fields vis kind (fields1 ++ fields2) s = (s', inr r) ->
    exists s1 r1 r2,
      visit_fields vis kind fields1 s = (s1, inr r1)
      /\ visit_fields vis kind fields2 s1 = (s', inr r2) /\ r = r1 ++ r2.
Proof.
  induction fields1 as [| [f x] l IH]; intros s s' r H.
  - exists s, [], r. now repeat split.
  - assert (Hrest : forall (g : list (string * value) -> list (string * value)),
        (forall a b, g (a ++ b) = g a ++ b) ->
        forall s0,
        (let* rest' := visit_fields vis kind (l ++ fields2) in ret (g rest')) s0
        = (s', inr r) ->
        exists s1 r1 r2,
          (let* rest' := visit_fields vis kind l in ret (g rest')) s0
          = (s1, inr r1)
          /\ visit_fields vis kind fields2 s1 = (s', inr r2) /\ r = r1 ++ r2).
    { intros g Hg s0 H0.
      apply bind_inv_ok in H0 as (s1 & rest' & Hl & Hret).
      inversion Hret; subst. clear Hret.
      destruct (IH _ _ _ Hl) as (s2 & r1 & r2 & H1 & H2 & ->).
      exists s2, (g r1), r2. rewrite (bind_ok _ _ _ _ _ H1).
      now repeat split. }
    cbn [app]. destruct x as [| y | z | ys | cls fs attrs]; cbn [visit_fields] in *.
    1-3: apply (Hrest (cons _)); [reflexivity | exact H].
    + apply bind_inv_ok in H as (s1 & ys' & Hys & H).
      rewrite (bind_ok _ _ _ _ _ Hys).
      apply (Hrest (cons _)); [reflexivity | exact H].
    + apply bind_inv_ok in H as (s1 & r1 & Hr & H).
      rewrite (bind_ok _ _ _ _ _ Hr).
      apply (Hrest (replace_field kind f r1)); [| exact H].
      intros a b. unfold replace_field.
      destruct r1; try destruct (optional_field kind f); reflexivity.
Qed.

(** The traversal adds no field to a node. *)
Lemma visit_fields_no_new_key fields f :
  forall s s' fields',
    visit_fields vis kind fields s = (s', inr fields') ->
    assoc f fields = None -> assoc f fields' = None.
Proof.
  induction fields as [| [k x] l IH]; intros s s' fields' H Hf.
  - now inversion H.
  - cbn [assoc] in Hf. destruct (String.eqb f k) eqn:E; [discriminate Hf |].
    destruct x as [| y | z | ys | cls fs attrs]; cbn [visit_fields] in H.
    1-3: apply bind_inv_ok in H as (s1 & l' & Hl & Hret);
         inversion Hret; subst; cbn [assoc]; rewrite E; eauto.
    + apply bind_inv_ok in H as (s1 & ys' & Hys & H).
      apply bind_inv_ok in H as (s2 & l' & Hl & Hret).
      inversion Hret; subst. cbn [assoc]. rewrite E. eauto.
    + apply bind_inv_ok in H as (s1 & r & Hr & H).
      apply bind_inv_ok in H as (s2 & l' & Hl & Hret).
      inversion Hret; subst.
      rewrite assoc_replace_field_other by exact E. eauto.
Qed.

End Fields.

Lemma assoc_app_none {A} f (l1 l2 : list (string * A)) :
  assoc f l1 = None -> assoc f l2 = None -> assoc f (l1 ++ l2) = None.
Proof.
  induction l1 as [| [k x] l IH]; cbn; [auto |].
  destruct (String.eqb f k); [discriminate | exact IH].
Qed.

Lemma assoc_not_key {A} f (l : list (string * A)) :
  ~ In f (map fst l) -> assoc f l = None.
Proof.
  induction l as [| [k x] l IH]; cbn; [reflexivity |]. intros Hn.
  destruct (String.eqb f k) eqn:E.
  - apply String.eqb_eq in E. subst k. exfalso. apply Hn. now left.
  - apply IH. intros Hin. apply Hn. now right.
Qed.

Lemma assoc_app_skip {A} f (l1 l2 : list (string * A)) :
  assoc f l1 = None -> assoc f (l1 ++ l2) = assoc f l2.
Proof.
  induction l1 as [| [k x] l IH]; cbn; [auto |].
  destruct (String.eqb f k); [discriminate | exact IH].
Qed.

(** X7: when the visit of a node held directly by a field, not in a
    list, returns the sentinel, [generic_visit] deletes the attribute
    from the parent.  A field that the grammar marks as optional then
    reads [None], the default that its class gives it; any other field
    is missing, and reading it raises [AttributeError].  The other
    fields are as their own visits leave them. *)
Theorem sentinel_deletes_node_field {St : Type} (rw : Rewriter St)
  (cls f : string) (fields1 fields2 : list (string * value)) (c : value)
  (attrs : list string) (s s1 s2 s' : St) (fields1' : list (string * value))
  (r : value) :
  List.NoDup (map fst (fields1 ++ (f, c) :: fields2)) ->
  is_ast c = true ->
  visit_fields (visit rw) cls fields1 s = (s1, inr fields1') ->
  visit rw c s1 = (s2, inr REMOVE_NODE) ->
  generic_visit rw (VAst cls (fields1 ++ (f, c) :: fields2) attrs) s = (s', inr r) ->
  exists fields2',
    visit_fields (visit rw) cls fields2 s2 = (s', inr fields2')
    /\ r = VAst cls
             (fields1'
              ++ (if optional_field cls f then [(f, VNone)] else [])
              ++ fields2') attrs
    /\ getattr r f
       = if optional_field cls f then inr VNone else inl (AttributeError f).
Proof.
  intros Hnd Hast H1 Hc H.
  unfold generic_visit, generic_visit_with in H.
  apply bind_inv_ok in H as (s3 & fields' & Hf & Hret).
  inversion Hret; subst. clear Hret.
  apply visit_fields_app in Hf as (s1' & r1 & r2 & H1' & H2 & ->).
  rewrite H1 in H1'. inversion H1'; subst s1' r1. clear H1'.
  destruct c as [| | | | ccls cfields cattrs]; try discriminate Hast.
  cbn [visit_fields] in H2. rewrite (bind_ok _ _ _ _ _ Hc) in H2.
  apply bind_inv_ok in H2 as (s4 & fields2' & H2 & Hret).
  inversion Hret; subst. clear Hret.
  rewrite map_app in Hnd. cbn [map fst] in Hnd.
  apply List.NoDup_remove_2 in Hnd.
  assert (Hf1 : assoc f fields1' = None).
  { eapply visit_fields_no_new_key; [exact H1 |].
    apply assoc_not_key. intros Hin. apply Hnd. apply in_or_app. now left. }
  assert (Hf2 : assoc f fields2' = None).
  { eapply visit_fields_no_new_key; [exact H2 |].
    apply assoc_not_key. intros Hin. apply Hnd. apply in_or_app. now right. }
  exists fields2'. split; [exact H2 |].
  unfold replace_field, REMOVE_NODE. cbn [getattr].
  rewrite assoc_app_skip by exact Hf1.
  destruct (optional_field cls f); cbn [app assoc].
  - rewrite String.eqb_refl. now split.
  - rewrite Hf2. now split.
Qed.

(** ** The names [_ClassVisitor] collects *)

Lemma mem_In name l : mem name l = true <-> In name l.
Proof.
  unfold mem. rewrite existsb_exists. split.
  - intros (x & Hx & E). apply String.eqb_eq in E. now subst.
  - intros H. exists name. split; [exact H | apply String.eqb_refl].
Qed.

Lemma add_key_In name keys x : In x (add_key name keys) <-> In x keys \/ x = name.
Proof.
  unfold add_key. destruct (mem name keys) eqn:E.
  - apply mem_In in E. split; [auto |]. intros [H | ->]; auto.
  - rewrite in_app_iff. cbn. intuition.
Qed.

Lemma add_key_NoDup name keys : List.NoDup keys -> List.NoDup (add_key name keys).
Proof.
  intros H. unfold add_key. destruct (mem name keys) eqn:E; [exact H |].
  assert (Hn : ~ In name keys).
  { intros Hin. apply mem_In in Hin. congruence. }
  clear E. induction H as [| x l Hx Hl IH]; cbn.
  - constructor; [intros [] | constructor].
  - constructor.
    + rewrite in_app_iff. cbn. intros [H' | [-> | []]]; [auto |].
      apply Hn. now left.
    + apply IH. intros Hin. apply Hn. now right.
Qed.

Lemma each_item_collects items :
  Forall collects_functions items ->
  forall acc acc',
    each_item class_visit items acc = (acc', inr tt) ->
    (List.NoDup acc -> List.NoDup acc')
    /\ forall name,
         In name acc' <->
         In name acc
         \/ exists c, In c items /\ is_ast c = true /\ defines_function name c.
Proof.
  induction 1 as [| x l Hx Hl IH]; intros acc acc' H.
  - inversion H; subst. split; [auto |]. intros name. split; [auto |].
    intros [Hin | (c & [] & _)]. exact Hin.
  - assert (Hskip : is_ast x = false ->
              each_item class_visit l acc = (acc', inr tt) ->
              (List.NoDup acc -> List.NoDup acc')
              /\ forall name,
                   In name acc' <->
                   In name acc
                   \/ exists c, In c (x :: l) /\ is_ast c = true
                                /\ defines_function name c).
    { intros Hx' Hl'. destruct (IH _ _ Hl') as [Hnd Hin]. split; [exact Hnd |].
      intros name. rewrite Hin. split.
      - intros [Ha | (c & Hc & Hast & Hd)]; [auto |].
        right. exists c. split; [now right | auto].
      - intros [Ha | (c & [<- | Hc] & Hast & Hd)]; [auto | congruence |].
        right. eauto. }
    destruct x as [| y | z | ys | cls fields attrs]; cbn [each_item] in H;
      try (apply Hskip; [reflexivity | exact H]).
    apply bind_inv_ok in H as (acc1 & [] & Hv & Hrest).
    destruct (Hx _ _ Hv) as [Hnd1 Hin1].
    destruct (IH _ _ Hrest) as [Hnd2 Hin2].
    split; [auto |]. intros name. rewrite Hin2, Hin1. split.
    + intros [[Ha | Hd] | (c & Hc & Hast & Hd)]; [auto | |].
      * right. exists (VAst cls fields attrs). split; [now left | auto].
      * right. exists c. split; [now right | auto].
    + intros [Ha | (c & [<- | Hc] & Hast & Hd)]; [auto | auto |].
      right. eauto.
Qed.

(** The nodes that a field leads to. *)
Lemma each_field_collects fields :
  Forall (at_children collects_functions) fields ->
  forall acc acc',
    each_field class_visit fields acc = (acc', inr tt) ->
    (List.NoDup acc -> List.NoDup acc')
    /\ forall name,
         In name acc' <->
         In name acc
         \/ exists f x, In (f, x) fields
              /\ (is_ast x = true /\ defines_function name x
                  \/ exists items c, x = VList items /\ In c items
                       /\ is_ast c = true /\ defines_function name c).
Proof.
  induction 1 as [| [f x] l [Hx Hitems] Hl IH]; intros acc acc' H.
  - inversion H; subst. split; [auto |]. intros name. split; [auto |].
    intros [Hin | (f & x & [] & _)]. exact Hin.
  - cbn [snd] in Hx, Hitems.
    assert (Hskip : is_ast x = false -> (forall items, x <> VList items) ->
              each_field class_visit l acc = (acc', inr tt) ->
              (List.NoDup acc -> List.NoDup acc')
              /\ forall name,
                   In name acc' <->
                   In name acc
                   \/ exists f' x', In (f', x') ((f, x) :: l)
                        /\ (is_ast x' = true /\ defines_function name x'
                            \/ exists items c, x' = VList items /\ In c items
                                 /\ is_ast c = true /\ defines_function name c)).
    { intros Hx' Hnl Hl'. destruct (IH _ _ Hl') as [Hnd Hin]. split; [exact Hnd |].
      intros name. rewrite Hin. split.
      - intros [Ha | (f' & x' & Hc & Hd)]; [auto |].
        right. exists f', x'. split; [now right | auto].
      - intros [Ha | (f' & x' & [E | Hc] & Hd)]; [auto | |].
        + inversion E; subst f' x'.
          destruct Hd as [[Hast _] | (items & c & -> & _)];
            [congruence | now destruct (Hnl items)].
        + right. eauto. }
    destruct x as [| y | z | ys | cls fs attrs]; cbn [each_field] in H;
      try (apply Hskip; [reflexivity | discriminate | exact H]).
    + apply bind_inv_ok in H as (acc1 & [] & Hv & Hrest).
      destruct (each_item_collects _ Hitems _ _ Hv) as [Hnd1 Hin1].
      destruct (IH _ _ Hrest) as [Hnd2 Hin2].
      split; [auto |]. intros name. rewrite Hin2, Hin1. split.
      * intros [[Ha | (c & Hc & Hast & Hd)] | (f' & x' & Hc & Hd)]; [auto | |].
        -- right. exists f, (VList ys). split; [now left |]. right. eauto 6.
        -- right. exists f', x'. split; [now right | auto].
      * intros [Ha | (f' & x' & [E | Hc] & Hd)]; [auto | |].
        -- inversion E; subst f' x'.
           destruct Hd as [[Hast _] | (items & c & E' & Hc & Hast & Hd)];
             [discriminate Hast |].
           inversion E'; subst items. left. right. eauto.
        -- right. eauto.
    + apply bind_inv_ok in H as (acc1 & [] & Hv & Hrest).
      destruct (Hx _ _ Hv) as [Hnd1 Hin1].
      destruct (IH _ _ Hrest) as [Hnd2 Hin2].
      split; [auto |]. intros name. rewrite Hin2, Hin1. split.
      * intros [[Ha | Hd] | (f' & x' & Hc & Hd)]; [auto | |].
        -- right. exists f, (VAst cls fs attrs). split; [now left | auto].
        -- right. exists f', x'. split; [now right | auto].
      * intros [Ha | (f' & x' & [E | Hc] & Hd)]; [auto | |].
        -- inversion E; subst f' x'.
           destruct Hd as [[_ Hd] | (items & c & E' & _)];
             [auto | discriminate E'].
        -- right. eauto.
Qed.

Lemma defines_function_inv name cls fields attrs :
  defines_function name (VAst cls fields attrs) <->
  (cls = "FunctionDef" /\ getattr (VAst cls fields attrs) "name" = inr (VStr name))
  \/ exists f x, In (f, x) fields
       /\ (is_ast x = true /\ defines_function name x
           \/ exists items c, x = VList items /\ In c items
                /\ is_ast c = true /\ defines_function name c).
Proof.
  split.
  - intros (w & Hr & Hcls & Hname). inversion Hr; subst.
    + left. split; [exact Hcls | exact Hname].
    + right. exists f, c. split; [assumption |]. left. split; [assumption |].
      exists w. auto.
    + right. exists f, (VList items). split; [assumption |]. right.
      exists items, c. repeat split; try assumption. exists w. auto.
  - intros [[-> Hname] | (f & x & Hin & [[Hast (w & Hr & Hw)] |
                           (items & c & -> & Hc & Hast & (w & Hr & Hw))])].
    + exists (VAst "FunctionDef" fields attrs). split; [constructor | auto].
    + exists w. split; [| exact Hw]. eapply reaches_field; eauto.
    + exists w. split; [| exact Hw]. eapply reaches_item; eauto.
Qed.

Lemma class_visit_collects v : collects_functions v.
Proof.
  induction v as [| y | z | items | cls fields attrs IH] using traversal_ind;
    intros acc acc' H; try discriminate H.
  cbn [class_visit] in H.
  apply bind_inv_ok in H as (acc1 & [] & Hhere & Hbelow).
  destruct (each_field_collects _ IH _ _ Hbelow) as [Hnd Hin].
  destruct (String.eqb cls "FunctionDef") eqn:E.
  - apply String.eqb_eq in E. subst cls.
    apply bind_inv_ok in Hhere as (? & name0 & Hname & Hput).
    unfold lift in Hname. inversion Hname; subst. clear Hname.
    apply bind_inv_ok in Hput as (? & methods & Hget & Hput).
    inversion Hget; subst. clear Hget. inversion Hput; subst. clear Hput.
    assert (Hn : getattr (VAst "FunctionDef" fields attrs) "name"
                 = inr (VStr name0)).
    { unfold get_name in H1.
      destruct (getattr (VAst "FunctionDef" fields attrs) "name") as [e | n];
        [discriminate H1 |].
      destruct n; try discriminate H1. now inversion H1. }
    split.
    + intros Hacc. apply Hnd. now apply add_key_NoDup.
    + intros name. rewrite Hin, add_key_In, defines_function_inv. split.
      * intros [[Ha | ->] | Hc]; auto.
      * intros [Ha | [[_ Hname] | Hc]]; auto.
        rewrite Hn in Hname. inversion Hname. auto.
  - inversion Hhere; subst. split; [exact Hnd |].
    intros name. rewrite Hin, defines_function_inv. split.
    + intros [Ha | Hc]; auto.
    + intros [Ha | [[-> _] | Hc]]; auto. discriminate E.
Qed.

(** X8: the names that [_ClassVisitor] collects are exactly the names
    of the function definitions at or below the node, at any depth
    (methods, functions nested in them, methods of nested classes), each
    name once. *)
Theorem class_visitor_collects_every_function (cls_node : value)
  (methods : list string) :
  _ClassVisitor cls_node = inr methods ->
  List.NoDup methods
  /\ forall name, In name methods <-> defines_function name cls_node.
Proof.
  unfold _ClassVisitor. intros H.
  destruct (class_visit cls_node []) as [acc' [e | []]] eqn:Hv;
    inversion H; subst.
  destruct (class_visit_collects _ _ _ Hv) as [Hnd Hin]. split.
  - apply Hnd. constructor.
  - intros name. rewrite Hin. split; [intros [[] | Hd]; exact Hd | auto].
Qed.

(** ** What a merge does to the class *)

Section PreservedOnKind.
Context {St : Type} (Inv : St -> St -> Prop).
Hypothesis Inv_refl : forall s, Inv s s.
Hypothesis Inv_trans : forall a b c, Inv a b -> Inv b c -> Inv a c.

Lemma visit_preserves_on_kind (rw : Rewriter St) :
  all_preserve_on_kind Inv rw -> forall v, preserves Inv (visit rw v).
Proof.
  intros [Hall Hposts].
  assert (Hpre : forall v, preserves Inv (run_pre_hook rw v)).
  { intros v. unfold run_pre_hook.
    destruct (pre_hooks rw !! class_name v) as [h |] eqn:E;
      [| now apply preserves_ret].
    apply preserves_bind; auto; [eapply Hall; eauto |].
    intros. now apply preserves_ret. }
  assert (Hpost : forall k v, preserves Inv (run_post_hook rw k v)).
  { intros k v. unfold run_post_hook.
    destruct (post_hooks rw !! k) as [h |] eqn:E; [| now apply preserves_ret].
    eapply Hposts; eauto. }
  induction v as [| s | z | items | cls fields attrs IH] using traversal_ind;
    rewrite visit_unfold;
    (apply preserves_bind; auto; [intros _]);
    try (now apply preserves_ret);
    (apply preserves_bind; auto);
    unfold dispatch;
    (destruct (targets rw !! _) as [h |] eqn:E; [eapply Hall; eauto |]);
    try (now apply preserves_raise).
  unfold generic_visit, generic_visit_with.
  apply preserves_bind; auto; [| intros; now apply preserves_ret].
  now apply visit_fields_preserves.
Qed.

End PreservedOnKind.

Lemma merged_into_refl out cm : merged_into out cm cm.
Proof.
  repeat split; auto. intros body Hb. exists []. rewrite app_nil_r. auto.
Qed.

Lemma merged_into_trans out a b c :
  merged_into out a b -> merged_into out b c -> merged_into out a c.
Proof.
  intros (Hm & Ha & Hc & Hf & Hb) (Hm' & Ha' & Hc' & Hf' & Hb').
  repeat split; try congruence.
  - intros f H1 H2. rewrite Hf', Hf; auto.
  - intros body Hbody. destruct (Hb _ Hbody) as (added & Hbody' & Hall).
    destruct (Hb' _ Hbody') as (added' & Hbody'' & Hall').
    exists (added ++ added'). rewrite List.app_assoc. split; [exact Hbody'' |].
    apply Forall_app. split; [exact Hall |]. now rewrite <- Hm.
Qed.

Lemma merged_into_weaken out out' a b :
  (forall f, In f out -> In f out') -> merged_into out a b -> merged_into out' a b.
Proof.
  intros Hsub (Hm & Ha & Hc & Hf & Hb). repeat split; auto.
Qed.

Lemma lift_inv {St A} (x : exn + A) (s s' : St) r :
  lift x s = (s', r) -> s' = s /\ r = x.
Proof. intros H. now inversion H. Qed.

Lemma get_inv {St} (s s' : St) r : get s = (s', r) -> s' = s /\ r = inr s.
Proof. intros H. now inversion H. Qed.

Lemma merge_methods_appends node :
  class_name node = "FunctionDef" ->
  preserves (merged_into []) (ClassMerging._merge_methods node).
Proof.
  intros Hcls self s' r H. unfold ClassMerging._merge_methods in H.
  apply bind_inv in H as [(? & Hm & ->) | (s1 & name & Hm & H)];
    apply lift_inv in Hm as [-> Hname]; [apply merged_into_refl |].
  apply bind_inv in H as [(? & Hm & ->) | (s1 & self' & Hm & H)];
    apply get_inv in Hm as [-> Hself]; [discriminate Hself |].
  inversion Hself; subst self'. clear Hself.
  destruct (mem name (ClassMerging.methods self)) eqn:Emem; cbn [negb] in H.
  { inversion H. apply merged_into_refl. }
  apply bind_inv in H as [(? & Hm & ->) | (s1 & cls & Hm & H)];
    apply lift_inv in Hm as [-> Hcm]; [apply merged_into_refl |].
  assert (s' = ClassMerging.set_cls_node cls self) as ->
    by (unfold bind, put, ret in H; now inversion H).
  clear H. unfold ClassMerging.body_append in Hcm.
  destruct (getattr (ClassMerging.cls_node self) "body") as [e | b] eqn:Eb;
    [discriminate Hcm |].
  destruct b as [| | | body |]; try discriminate Hcm.
  inversion Hcm; subst cls. clear Hcm. cbn [ClassMerging.set_cls_node].
  destruct (ClassMerging.cls_node self) as [| | | | c fields attrs] eqn:Ec;
    try discriminate Eb.
  repeat split; cbn [ClassMerging.methods ClassMerging.cls_node];
    rewrite ?Ec; try reflexivity.
  - intros f Hf _. now apply getattr_setattr_other.
  - intros body0 Hbody0. rewrite Ec, Eb in Hbody0 || rewrite Eb in Hbody0.
    inversion Hbody0; subst body0.
    exists [node]. split; [apply getattr_setattr_same |].
    constructor; [| constructor]. split; [exact Hcls |].
    exists name. split.
    + unfold get_name in Hname. destruct (getattr node "name") as [e | n];
        [discriminate Hname |].
      destruct n; try discriminate Hname. now inversion Hname.
    + intros Hin. apply mem_In in Hin. congruence.
Qed.

Lemma merging_rewriter_appends :
  all_preserve_on_kind (merged_into []) ClassMerging.rewriter.
Proof.
  split.
  - intros k h [H | H] v Hk; cbn in H; [| now rewrite lookup_empty in H].
    destruct (decide (k = "FunctionDef")) as [-> | Hne].
    + rewrite lookup_insert_eq in H. inversion H.
      now apply merge_methods_appends.
    + rewrite lookup_insert_ne in H by congruence.
      destruct (decide (k = "Name")) as [-> | Hne'].
      * rewrite lookup_singleton_eq in H. inversion H.
        intros s s' r Hr. inversion Hr. apply merged_into_refl.
      * rewrite lookup_singleton_ne in H by congruence. discriminate H.
  - intros k h H. cbn in H. now rewrite lookup_empty in H.
Qed.

Lemma merging_visit_appends v :
  preserves (merged_into []) (visit ClassMerging.rewriter v).
Proof.
  apply visit_preserves_on_kind.
  - apply merged_into_refl.
  - apply merged_into_trans.
  - apply merging_rewriter_appends.
Qed.

Lemma set_bases_merged bases cm :
  merged_into ["bases"]
    cm (ClassMerging.set_cls_node
          (setattr (ClassMerging.cls_node cm) "bases" bases) cm).
Proof.
  repeat split; cbn [ClassMerging.methods ClassMerging.cls_node
                     ClassMerging.set_cls_node].
  - now destruct (ClassMerging.cls_node cm).
  - apply class_name_setattr.
  - intros f _ Hf. apply getattr_setattr_other. intros ->. apply Hf. now left.
  - intros body Hb. exists []. rewrite app_nil_r. split; [| constructor].
    now rewrite getattr_setattr_other by discriminate.
Qed.

Lemma set_cur_base_merged out b cm :
  merged_into out cm (ClassMerging.set_cur_base b cm).
Proof.
  repeat split; auto. intros body Hb. exists []. rewrite app_nil_r. auto.
Qed.

Lemma modify_inv {St} (f : St -> St) (s s' : St) (r : exn + unit) :
  (let* self := get in put (f self)) s = (s', r) -> s' = f s /\ r = inr tt.
Proof. intros H. now inversion H. Qed.

(** X9: whatever its outcome, [ClassMerging.merge] only adds to the end
    of the body of the class: the statements the class had stay, in
    place and in order; every added node is a function definition whose
    name is not among the names collected when the merging was set up;
    no field of the class other than [body] and [bases] changes, and
    [methods] stays as collected. *)
Theorem merge_only_appends_methods (base_parsers : list (string * DefaultASTParser))
  (cm cm' : ClassMerging.t) (r : exn + unit) :
  ClassMerging.merge base_parsers cm = (cm', r) ->
  merged_into ["bases"] cm cm'.
Proof.
  revert cm cm' r.
  induction base_parsers as [| [base_name base_parser] rest IH];
    intros cm cm' r H; cbn [ClassMerging.merge] in H.
  - inversion H. apply merged_into_refl.
  - apply bind_inv in H as [(? & Hm & ->) | (cm0 & ? & Hm & H)];
      apply modify_inv in Hm as [-> Hr]; [discriminate Hr |].
    eapply merged_into_trans; [apply (set_cur_base_merged _ base_name) |].
    generalize dependent (ClassMerging.set_cur_base base_name cm).
    clear cm. intros cm H.
    apply bind_inv in H as [(? & Hm & ->) | (cm0 & base_node & Hm & H)];
      apply lift_inv in Hm as [-> Hnode]; [apply merged_into_refl |].
    apply bind_inv in H as [(? & Hm & ->) | (cm0 & bases & Hm & H)];
      apply lift_inv in Hm as [-> Hbases]; [apply merged_into_refl |].
    apply bind_inv in H as [(? & Hm & ->) | (cm0 & ? & Hm & H)];
      apply modify_inv in Hm as [-> Hr']; [discriminate Hr' |].
    eapply merged_into_trans; [apply (set_bases_merged bases) |].
    generalize dependent
      (ClassMerging.set_cls_node
         (setattr (ClassMerging.cls_node cm) "bases" bases) cm).
    clear cm. intros cm H.
    apply bind_inv in H as [(? & Hm & ->) | (cm2 & ? & Hm & H)].
    + eapply merged_into_weaken; [| exact (merging_visit_appends _ _ _ _ Hm)].
      intros f [].
    + eapply merged_into_trans.
      * eapply merged_into_weaken; [| exact (merging_visit_appends _ _ _ _ Hm)].
        intros f [].
      * exact (IH _ _ _ H).
Qed.

Lemma merge_cons_inv base_name base_parser rest cm cm' :
  ClassMerging.merge ((base_name, base_parser) :: rest) cm = (cm', inr tt) ->
  exists cm1 base_node bases,
    dict_get base_name (_local_defs base_parser) = inr base_node
    /\ getattr base_node "bases" = inr bases
    /\ merged_into []
         (ClassMerging.set_cls_node
            (setattr (ClassMerging.cls_node cm) "bases" bases)
            (ClassMerging.set_cur_base base_name cm))
         cm1
    /\ ClassMerging.merge rest cm1 = (cm', inr tt).
Proof.
  intros H. cbn [ClassMerging.merge] in H.
  apply bind_inv_ok in H as (cm0 & ? & Hm & H).
  apply modify_inv in Hm as [-> _].
  apply bind_inv_ok in H as (cm0 & base_node & Hm & H).
  apply lift_inv in Hm as [-> Hnode].
  apply bind_inv_ok in H as (cm0 & bases & Hm & H).
  apply lift_inv in Hm as [-> Hbases].
  apply bind_inv_ok in H as (cm0 & ? & Hm & H).
  apply modify_inv in Hm as [-> _].
  apply bind_inv_ok in H as (cm1 & ? & Hm & H).
  exists cm1, base_node, bases.
  split; [now symmetry |]. split; [now symmetry |].
  split; [exact (merging_visit_appends _ _ _ _ Hm) | exact H].
Qed.

(** X10: after a merge that went through, the bases of the class are
    those of the base that was merged last: what the bases merged before
    it had set is overwritten. *)
Theorem merge_takes_bases_of_last_base
  (front : list (string * DefaultASTParser)) (base_name : string)
  (base_parser : DefaultASTParser) (cm cm' : ClassMerging.t) :
  is_ast (ClassMerging.cls_node cm) = true ->
  ClassMerging.merge (front ++ [(base_name, base_parser)]) cm = (cm', inr tt) ->
  exists base_node bases,
    dict_get base_name (_local_defs base_parser) = inr base_node
    /\ getattr base_node "bases" = inr bases
    /\ getattr (ClassMerging.cls_node cm') "bases" = inr bases.
Proof.
  revert cm. induction front as [| [b p] l IH]; intros cm Hast H; cbn [app] in H.
  - apply merge_cons_inv in H as (cm1 & base_node & bases & Hn & Hb & Hm & H).
    inversion H; subst cm1. exists base_node, bases.
    split; [exact Hn |]. split; [exact Hb |].
    destruct Hm as (_ & _ & _ & Hf & _). rewrite Hf by (auto; discriminate).
    cbn [ClassMerging.cls_node ClassMerging.set_cls_node ClassMerging.set_cur_base].
    destruct (ClassMerging.cls_node cm); try discriminate Hast.
    apply getattr_setattr_same.
  - apply merge_cons_inv in H as (cm1 & base_node & bases & Hn & Hb & Hm & H).
    apply (IH cm1); [| exact H].
    destruct Hm as (_ & -> & _).
    cbn [ClassMerging.cls_node ClassMerging.set_cls_node ClassMerging.set_cur_base].
    now destruct (ClassMerging.cls_node cm).
Qed.

(** ** What a run writes *)

Lemma bind_get {St B} (k : St -> M St B) s : bind get k s = k s s.
Proof. reflexivity. Qed.

Lemma lookup_In {A} (l : list A) i x : l !! i = Some x -> In x l.
Proof.
  revert i. induction l as [| y l IH]; intros [| i] H; try discriminate H.
  - inversion H. now left.
  - right. exact (IH _ H).
Qed.

Lemma assoc_app_none_l {A} f (l1 l2 : list (string * A)) :
  assoc f (l1 ++ l2) = None -> assoc f l1 = None.
Proof.
  induction l1 as [| [k x] l IH]; cbn; [auto |].
  destruct (String.eqb f k); [discriminate | exact IH].
Qed.

Lemma gained_empty_entries_refl info : gained_empty_entries info info.
Proof. exists []. cbn. now rewrite app_nil_r. Qed.

Lemma gained_empty_entries_trans a b c :
  gained_empty_entries a b -> gained_empty_entries b c ->
  gained_empty_entries a c.
Proof.
  intros (added1 & -> & H1) (added2 & -> & H2).
  exists (added1 ++ added2). split.
  - now rewrite map_app, app_assoc.
  - apply Forall_app. split; [exact H1 |].
    eapply Forall_impl; [exact H2 |].
    intros f Hf. exact (assoc_app_none_l _ _ _ Hf).
Qed.

(** The entries that the reads add are empty: [imports_info] reads the
    same afterwards, at every file. *)
Lemma gained_empty_entries_reads info info' f :
  gained_empty_entries info info' ->
  default [] (assoc f info') = default [] (assoc f info).
Proof.
  intros (added & -> & _). induction info as [| [k x] info IH]; cbn.
  - induction added as [| a added IHa]; cbn; [reflexivity |].
    destruct (String.eqb f a); [reflexivity | exact IHa].
  - destruct (String.eqb f k); [reflexivity | exact IH].
Qed.

Lemma imports_info_read_gained file g :
  gained_empty_entries (imports_info g) (imports_info (imports_info_read file g)).
Proof.
  unfold imports_info_read.
  destruct (assoc file (imports_info g)) eqn:E.
  - apply gained_empty_entries_refl.
  - exists [file]. split; [reflexivity |]. now constructor.
Qed.

Lemma same_setup_refl s : same_setup s s.
Proof.
  repeat split; try reflexivity. apply gained_empty_entries_refl.
Qed.

Lemma same_setup_trans a b c :
  same_setup a b -> same_setup b c -> same_setup a c.
Proof.
  intros (H1 & H2 & H3 & H4 & H5 & H6) (H1' & H2' & H3' & H4' & H5' & H6').
  repeat split; try congruence.
  eapply gained_empty_entries_trans; eauto.
Qed.

Lemma same_setup_intro s s' :
  target_dir s' = target_dir s -> module_mapper s' = module_mapper s ->
  merge_level s' = merge_level s -> imports_info s' = imports_info s ->
  relation s' = relation s ->
  map key_and_file_name (parsers s') = map key_and_file_name (parsers s) ->
  same_setup s s'.
Proof.
  intros H1 H2 H3 H4 H5 H6. repeat split; try assumption.
  rewrite H4. apply gained_empty_entries_refl.
Qed.

Lemma imports_info_read_setup file g : same_setup g (imports_info_read file g).
Proof.
  split; [| split; [| split; [| split; [| split]]]];
    try (rewrite imports_info_read_eq; reflexivity).
  apply imports_info_read_gained.
Qed.

Lemma within_file_refl s : within_file s s.
Proof. split; [apply same_setup_refl | now repeat split]. Qed.

Lemma within_file_trans a b c :
  within_file a b -> within_file b c -> within_file a c.
Proof.
  intros (H1 & H2 & H3 & H4) (H1' & H2' & H3' & H4').
  split; [eapply same_setup_trans; eauto |].
  repeat split; try congruence.
  intros i Hi. rewrite H4', H4; auto. congruence.
Qed.

Lemma file_step_refl idx s : file_step idx s s.
Proof. split; [apply same_setup_refl | now split]. Qed.

Lemma file_step_trans idx a b c :
  file_step idx a b -> file_step idx b c -> file_step idx a c.
Proof.
  intros (H1 & H2 & H3) (H1' & H2' & H3').
  split; [eapply same_setup_trans; eauto |].
  split; [congruence |]. intros i Hi. rewrite H3', H3; auto.
Qed.

Lemma within_file_eq {A} (m : M Gen A) :
  preserves eq m -> preserves within_file m.
Proof. intros H s s' r Hm. rewrite (H _ _ _ Hm). apply within_file_refl. Qed.

Lemma alter_keeps_names (f : DefaultASTParser -> DefaultASTParser) idx
  (l : list (string * DefaultASTParser)) :
  (forall p, file_name (f p) = file_name p) ->
  map key_and_file_name (alter (fun kp => (fst kp, f (snd kp))) idx l)
  = map key_and_file_name l.
Proof.
  intros Hf. revert idx.
  induction l as [| kp l IH]; intros [| idx]; cbn; try reflexivity.
  - unfold key_and_file_name at 1 3. cbn. now rewrite Hf.
  - f_equal. apply IH.
Qed.

Lemma alter_parser_setup f idx s :
  (forall p, file_name (f p) = file_name p) ->
  same_setup s (alter_parser f idx s).
Proof.
  intros Hf. apply same_setup_intro; try reflexivity.
  unfold alter_parser. cbn [parsers set_parsers].
  now apply alter_keeps_names.
Qed.

Lemma alter_parser_other f idx s i :
  i <> idx -> parsers (alter_parser f idx s) !! i = parsers s !! i.
Proof.
  intros Hi. unfold alter_parser. cbn [parsers set_parsers].
  now apply list_lookup_alter_ne.
Qed.

Lemma alter_parser_step f idx s :
  (forall p, file_name (f p) = file_name p) ->
  file_step idx s (alter_parser f idx s).
Proof.
  intros Hf. split; [now apply alter_parser_setup |].
  split; [reflexivity |]. intros i Hi. now apply alter_parser_other.
Qed.

Lemma wf_bind {A B} (m : M Gen A) (k : A -> M Gen B) :
  preserves within_file m -> (forall a, preserves within_file (k a)) ->
  preserves within_file (bind m k).
Proof. apply preserves_bind. exact within_file_trans. Qed.

Lemma run_merge_within cur bp name s s' r :
  cur_parser s = Some cur ->
  run_merge cur bp name s = (s', r) -> within_file s s'.
Proof.
  intros Hcur H. unfold run_merge in H.
  apply bind_inv in H as [(? & Hm & ->) | (s1 & parser & Hm & H)].
  { unfold parser_at in Hm. destruct (parsers s !! cur); inversion Hm.
    apply within_file_refl. }
  assert (s1 = s) as ->.
  { unfold parser_at in Hm. destruct (parsers s !! cur); now inversion Hm. }
  apply bind_inv in H as [(? & Hm' & ->) | (s1 & cm & Hm' & H)];
    apply lift_inv in Hm' as [-> _]; [apply within_file_refl |].
  destruct (ClassMerging.merge (deref_bases s bp) cm) as [cm' r'].
  inversion H; subst. clear H.
  split; [now apply alter_parser_setup |].
  repeat split. intros i Hi. apply alter_parser_other. congruence.
Qed.

Lemma seg_hook_within node : preserves within_file (_classdef_hook node).
Proof.
  unfold _classdef_hook.
  apply wf_bind; [apply within_file_eq, eq_lift |]. intros name.
  apply wf_bind; [apply within_file_eq, self_attr_state |]. intros info_all.
  destruct name as [| name | | |]; try (apply within_file_eq, eq_ret).
  2: { apply within_file_eq. now apply preserves_raise. }
  destruct (assoc name info_all) as [info |]; [| apply within_file_eq, eq_ret].
  intros s s' r H.
  rewrite bind_get in H.
  apply bind_inv in H as [(? & Hm & ->) | (s0 & bp & Hm & H)];
    apply lift_inv in Hm as [-> _]; [apply within_file_refl |].
  apply bind_inv in H as [(? & Hm & ->) | (s0 & ? & Hm & H)];
    [discriminate Hm |].
  assert (s0 = set_base_parsers bp s) as -> by (now inversion Hm). clear Hm.
  eapply within_file_trans with (b := set_base_parsers bp s).
  { split; [now apply same_setup_intro | now repeat split]. }
  generalize dependent (set_base_parsers bp s). clear s. intros s H.
  apply bind_inv in H as [(? & Hm & ->) | (s1 & cur & Hm & H)].
  { apply within_file_eq in Hm; [exact Hm | apply self_attr_state]. }
  assert (s1 = s /\ cur_parser s = Some cur) as [-> Hcur].
  { unfold self_attr in Hm. destruct (cur_parser s); now inversion Hm. }
  apply bind_inv in H as [(? & Hm' & ->) | (s2 & ? & Hm' & H)].
  - exact (run_merge_within _ _ _ _ _ _ Hcur Hm').
  - inversion H; subst. exact (run_merge_within _ _ _ _ _ _ Hcur Hm').
Qed.

Lemma rewriter_within cls :
  all_preserve within_file (_build_rewriter cls None).
Proof.
  destruct cls.
  - intros k h H v. apply within_file_eq. exact (file_rewriter_state k h H v).
  - intros k h [H | [H | H]] v.
    + rewrite seg_targets in H. destruct (is_import k).
      * inversion H. apply within_file_eq, rewrite_imports_state.
      * destruct (is_def_class k); [| discriminate].
        inversion H. apply within_file_eq, rewrite_defs_state.
    + rewrite seg_pre_hooks in H.
      destruct (String.eqb k "ClassDef"); [| discriminate].
      inversion H. apply seg_hook_within.
    + cbn in H. now rewrite lookup_empty in H.
Qed.

Lemma rewriter_visit_within cls v s s' r :
  visit (_build_rewriter cls None) v s = (s', r) -> within_file s s'.
Proof.
  exact (visit_preserves within_file within_file_refl within_file_trans
           _ (rewriter_within cls) v s s' r).
Qed.

Lemma parser_at_inv idx s s' r :
  parser_at idx s = (s', r) ->
  s' = s /\ match r with
            | inl _ => parsers s !! idx = None
            | inr p => exists file, parsers s !! idx = Some (file, p)
            end.
Proof.
  unfold parser_at. destruct (parsers s !! idx) as [[file p] |] eqn:E;
    intros H; inversion H; subst; split; eauto.
Qed.

Lemma segment_preprocess_state file idx g g1 r :
  segment_preprocess file idx g = (g1, r) ->
  match r with
  | inl _ => g1 = g \/ g1 = imports_info_read file g
  | inr _ =>
      exists ext loc info,
        g1 = set_preprocessed ext loc info idx (imports_info_read file g)
  end.
Proof.
  intros H. unfold segment_preprocess in H.
  apply bind_inv in H as [(? & Hm & ->) | (s0 & parser & Hm & H)];
    apply parser_at_inv in Hm as [-> _]; [now left |].
  rewrite bind_get in H.
  apply bind_inv in H as [(? & Hm & ->) | (s0 & tgts & Hm & H)];
    apply lift_inv in Hm as [-> _]; [now left |].
  assert (Hfold : forall b (a : string),
             preserves (St := Gen) eq
               (let* p := lift (dict_get a (parsers g)) in
                ret (fold_left
                       (fun tf '(m, bases) =>
                          fold_left
                            (fun tf base =>
                               if has_key base (_local_defs p)
                               then merge_info_set m base a tf else tf)
                            bases tf)
                       (_to_merge_classes parser) b))).
  { intros b a. apply eq_bind; [apply eq_lift | intros; apply eq_ret]. }
  apply bind_inv in H as [(? & Hm & ->) | (s0 & info & Hm & H)];
    apply (foldM_state _ _ Hfold) in Hm; [subst g1; now left | subst s0].
  assert (Hfold' : forall ext (i : string),
             preserves (St := Gen) eq
               (let* p := lift (dict_get i (parsers g)) in
                ret (ext ++ get_target_import_names p))).
  { intros b a. apply eq_bind; [apply eq_lift | intros; apply eq_ret]. }
  apply bind_inv in H as [(? & Hm & ->) | (s0 & importers & Hm & H)];
    [discriminate Hm |].
  unfold imports_info_at in Hm. inversion Hm; subst s0 importers. clear Hm.
  apply bind_inv in H as [(? & Hm & ->) | (s0 & ext & Hm & H)];
    apply (foldM_state _ _ Hfold') in Hm; [subst g1; now right | subst s0].
  rewrite bind_get in H. inversion H. eauto.
Qed.

Lemma visit_tree_step rw idx s s' r :
  (forall v s1 r1,
      visit rw v s = (s1, r1) ->
      file_step idx s s1 /\ cur_parser s1 = cur_parser s) ->
  visit_tree rw idx s = (s', r) ->
  file_step idx s s' /\ cur_parser s' = cur_parser s.
Proof.
  intros Hv H. unfold visit_tree in H.
  apply bind_inv in H as [(? & Hm & ->) | (s0 & parser & Hm & H)];
    apply parser_at_inv in Hm as [-> _];
    [split; [apply file_step_refl | reflexivity] |].
  apply bind_inv in H as [(? & Hm & ->) | (s1 & result & Hm & H)];
    [exact (Hv _ _ _ Hm) |].
  destruct (Hv _ _ _ Hm) as [Hstep Hcur].
  rewrite bind_get in H. inversion H; subst s'. split.
  - eapply file_step_trans; [exact Hstep |].
    now apply alter_parser_step.
  - exact Hcur.
Qed.

Lemma rewrite_pass_step cls idx s :
  (cls = SegmentCodeGenerator -> cur_parser s = Some idx) ->
  forall v s1 r1,
    visit (_build_rewriter cls None) v s = (s1, r1) ->
    file_step idx s s1 /\ cur_parser s1 = cur_parser s.
Proof.
  intros Hcur v s1 r1 H. destruct cls.
  - pose proof (visit_preserves eq (fun s => eq_refl)
                  (fun a b c H1 H2 => eq_trans H1 H2) _ file_rewriter_state
                  _ _ _ _ H) as <-.
    split; [apply file_step_refl | reflexivity].
  - destruct (rewriter_visit_within _ _ _ _ _ H) as (Hs & Hf & Hc & Hp).
    split; [| exact Hc]. split; [exact Hs |]. split; [exact Hf |].
    intros i Hi. apply Hp. rewrite (Hcur eq_refl). congruence.
Qed.

Lemma postprocess_step cls idx s s' r :
  (cls = SegmentCodeGenerator -> cur_parser s = Some idx) ->
  _postprocess cls s = (s', r) -> file_step idx s s'.
Proof.
  intros Hcur H. destruct cls; cbn [_postprocess] in H.
  - inversion H. apply file_step_refl.
  - rewrite (Hcur eq_refl) in H || (unfold self_attr, bind in H;
                                    rewrite (Hcur eq_refl) in H).
    apply (visit_tree_step class_imports_rewriter idx s s' r); [| exact H].
    intros v s1 r1 Hv. rewrite (class_imports_visit_state _ _ _ _ Hv).
    split; [apply file_step_refl | reflexivity].
Qed.

Lemma imports_info_read_step idx file s :
  file_step idx s (imports_info_read file s).
Proof.
  split; [apply imports_info_read_setup |].
  rewrite imports_info_read_eq. now split.
Qed.

Lemma set_preprocessed_step ext loc info cur idx s :
  file_step idx s (set_preprocessed ext loc info cur s).
Proof. split; [now apply same_setup_intro | now split]. Qed.

Lemma preprocess_step cls file idx s s' r :
  _preprocess cls file idx s = (s', r) ->
  file_step idx s s'
  /\ (cls = SegmentCodeGenerator -> r = inr tt -> cur_parser s' = Some idx).
Proof.
  intros H. destruct cls; cbn [_preprocess] in H.
  - inversion H. split; [apply file_step_refl | discriminate].
  - apply segment_preprocess_state in H. destruct r as [e | []].
    + split; [| discriminate].
      destruct H as [-> | ->];
        [apply file_step_refl | apply imports_info_read_step].
    + destruct H as (ext & loc & info & ->). split; [| reflexivity].
      eapply file_step_trans;
        [apply imports_info_read_step | apply set_preprocessed_step].
Qed.

(** The effect of the body of the loop of [generate] for one file. *)
Lemma generate_file_effect (to_source : value -> string) cls idx g g1 r :
  generate_file to_source cls None idx g = (g1, r) ->
  same_setup g g1
  /\ (forall i, i <> idx -> parsers g1 !! i = parsers g !! i)
  /\ match r with
     | inl _ => files g1 = files g
     | inr _ =>
         exists file p,
           parsers g !! idx = Some (file, p)
           /\ if String.eqb (basename (file_name p)) "__init__.py" then g1 = g
              else exists p1,
                  parsers g1 !! idx = Some (file, p1)
                  /\ files g1 = <[output_path g p :=
                                    CODEGEN_PREFIX +:+ to_source (ast p1)]>
                                  (files g)
     end.
Proof.
  intros H. unfold generate_file in H.
  rewrite bind_get in H.
  destruct (parsers g !! idx) as [[file parser] |] eqn:Hidx.
  2: { inversion H; subst. split; [apply same_setup_refl | now split]. }
  destruct (String.eqb (basename (file_name parser)) "__init__.py") eqn:Einit.
  { inversion H; subst. split; [apply same_setup_refl |]. split; [reflexivity |].
    exists file, parser. split; [reflexivity |]. now rewrite Einit. }
  assert (Hfail : forall s, file_step idx g s ->
             same_setup g s /\ (forall i, i <> idx -> parsers s !! i = parsers g !! i)
             /\ files s = files g).
  { intros s (Hs & Hf & Hp). auto. }
  apply bind_inv in H as [(? & Hm & ->) | (s1 & [] & Hm & H)];
    destruct (preprocess_step _ _ _ _ _ _ Hm) as [Hstep1 Hcur1];
    [exact (Hfail _ Hstep1) |].
  assert (Hcur : cls = SegmentCodeGenerator -> cur_parser s1 = Some idx)
    by (intros Hc; now apply Hcur1).
  clear Hm Hcur1.
  apply bind_inv in H as [(? & Hm & ->) | (s2 & [] & Hm & H)];
    destruct (visit_tree_step _ _ _ _ _ (rewrite_pass_step cls idx s1 Hcur) Hm)
      as [Hstep2 Hcur2];
    pose proof (file_step_trans _ _ _ _ Hstep1 Hstep2) as Hstep12;
    [exact (Hfail _ Hstep12) |].
  rewrite <- Hcur2 in Hcur. clear Hm Hcur2 Hstep1 Hstep2.
  apply bind_inv in H as [(? & Hm & ->) | (s3 & [] & Hm & H)];
    pose proof (file_step_trans _ _ _ _ Hstep12
                  (postprocess_step _ _ _ _ _ Hcur Hm)) as Hstep;
    [exact (Hfail _ Hstep) |].
  clear Hm Hstep12 Hcur.
  apply bind_inv in H as [(? & Hm & ->) | (s4 & p1 & Hm & H)];
    apply parser_at_inv in Hm as [-> Hp1]; [exact (Hfail _ Hstep) |].
  destruct Hp1 as [file1 Hp1].
  rewrite bind_get in H.
  rewrite _generate_from_ast_writes in H. inversion H; subst g1 r. clear H.
  destruct Hstep as (Hsetup & Hfiles & Hothers).
  split; [exact Hsetup |]. split; [exact Hothers |].
  exists file, parser. split; [reflexivity |]. rewrite Einit.
  assert (Hkey : file1 = file /\ file_name p1 = file_name parser).
  { destruct Hsetup as (_ & _ & _ & _ & _ & Hmap).
    assert (Hl : map key_and_file_name (parsers s3) !! idx
                 = map key_and_file_name (parsers g) !! idx) by now rewrite Hmap.
    rewrite !lookup_map, Hp1, Hidx in Hl. cbn in Hl. now inversion Hl. }
  destruct Hkey as [-> Hname].
  exists p1. split; [exact Hp1 |]. cbn [files set_files].
  rewrite Hfiles. unfold output_path.
  destruct Hsetup as (-> & _). reflexivity.
Qed.



Lemma same_setup_lookup g g1 i file p :
  same_setup g g1 -> parsers g1 !! i = Some (file, p) ->
  exists p0, parsers g !! i = Some (file, p0) /\ file_name p0 = file_name p.
Proof.
  intros (_ & _ & _ & _ & _ & Hmap) Hp.
  assert (Hl : map key_and_file_name (parsers g1) !! i
               = map key_and_file_name (parsers g) !! i) by now rewrite Hmap.
  rewrite !lookup_map, Hp in Hl. cbn in Hl.
  destruct (parsers g !! i) as [[file0 p0] |]; [| discriminate Hl].
  cbn in Hl. inversion Hl. eauto.
Qed.

Lemma emitted_setup g g1 i path :
  same_setup g g1 -> emitted g1 i path -> emitted g i path.
Proof.
  intros Hs (file & p & Hp & Hinit & ->).
  destruct (same_setup_lookup _ _ _ _ _ Hs Hp) as (p0 & Hp0 & Hname).
  exists file, p0. split; [exact Hp0 |]. unfold output_path.
  rewrite Hname. destruct Hs as (-> & _). auto.
Qed.

(** The effect of the loop of [generate] over the positions [l]. *)
Lemma run_effect (to_source : value -> string) cls l :
  forall g g' r,
    for_each l (generate_file to_source cls None) g = (g', r) ->
    same_setup g g'
    /\ (forall i, ~ In i l -> parsers g' !! i = parsers g !! i)
    /\ forall path,
         files g' !! path = files g !! path
         \/ exists i body,
              In i l /\ emitted g i path
              /\ files g' !! path = Some (CODEGEN_PREFIX +:+ body).
Proof.
  induction l as [| a l IH]; intros g g' r H; cbn [for_each] in H.
  - inversion H; subst. split; [apply same_setup_refl |]. split; auto.
  - apply bind_inv in H as [(e & Hm & ->) | (g1 & [] & Hm & H)];
      destruct (generate_file_effect _ _ _ _ _ _ Hm) as (Hs1 & Hp1 & Hf1).
    { split; [exact Hs1 |]. split.
      - intros i Hi. apply Hp1. intros ->. apply Hi. now left.
      - intros path. left. now rewrite Hf1. }
    destruct (IH _ _ _ H) as (Hs & Hp & Hf).
    split; [eapply same_setup_trans; eauto |]. split.
    { intros i Hi. rewrite Hp, Hp1; auto.
      - intros ->. apply Hi. now left.
      - intros Hin. apply Hi. now right. }
    intros path. destruct (Hf path) as [Hsame | (i & body & Hi & Hem & Hbody)].
    2: { right. exists i, body. split; [now right |].
         split; [| exact Hbody]. eapply emitted_setup; eauto. }
    rewrite Hsame. destruct Hf1 as (file & p & Hidx & Hcase).
    destruct (String.eqb (basename (file_name p)) "__init__.py") eqn:Einit.
    { subst g1. now left. }
    destruct Hcase as (p1 & Hp1' & ->).
    destruct (decide (path = output_path g p)) as [-> | Hne].
    + right. exists a, (to_source (ast p1)). split; [now left |]. split.
      * exists file, p. repeat split; auto. now apply String.eqb_neq.
      * now rewrite lookup_insert_eq.
    + left. now rewrite lookup_insert_ne by congruence.
Qed.

(** X11: a run of [generate], in either mode and whatever its outcome,
    leaves the target directory, the module mapping, the merge level,
    the relation and the keys and file names of the parsers as they
    were; [imports_info] keeps its entries, in their order, and gains at
    most empty entries after them, for files that had none (those that
    [_preprocess] of the segment-level generator has read).  The run
    deletes no file, and changes no file but output files: a path whose
    contents differ afterwards is the output path, under the target
    directory, of a parser whose file is not an [__init__.py], and its
    contents start with the banner. *)
Theorem generate_writes_only_outputs (to_source : value -> string)
  (cls : GeneratorClass) (g g' : Gen) (r : exn + unit) :
  generate to_source cls None g = (g', r) ->
  same_setup g g'
  /\ forall path,
       files g' !! path = files g !! path
       \/ exists i body,
            emitted g i path
            /\ files g' !! path = Some (CODEGEN_PREFIX +:+ body).
Proof.
  unfold generate. rewrite bind_get. intros H.
  destruct (run_effect _ _ _ _ _ _ H) as (Hs & _ & Hf).
  split; [exact Hs |]. intros path.
  destruct (Hf path) as [Hsame | (i & body & _ & Hem & Hbody)]; eauto.
Qed.



(** ** File-level runs that go through *)

Lemma rewrite_imports_returns cls fields attrs s :
  is_import cls = true ->
  imports_named (VAst cls fields attrs) = true ->
  exists r,
    rewrite_imports (VAst cls fields attrs) s = (s, inr r) /\ is_ast r = true.
Proof.
  intros Hi Hn. unfold rewrite_imports. cbn [class_name].
  cbn [imports_named] in Hn.
  destruct (String.eqb cls "ImportFrom") eqn:E; cbn [andb];
    [| exists (VAst cls fields attrs); now split].
  destruct (hasattr (VAst cls fields attrs) "is_target"); cbn [negb orb] in Hn;
    [| exists (VAst cls fields attrs); now split].
  cbn [getattr].
  destruct (assoc "module" fields) as [[| m | | |] |]; try discriminate Hn.
  unfold lift. unfold bind at 1. rewrite bind_get.
  destruct (module_mapper s !! m); eexists; split; reflexivity.
Qed.

Lemma file_items_return items :
  Forall file_visit_returns items -> forallb imports_named items = true ->
  forall s,
    exists items',
      visit_items (visit (_build_rewriter FileLevelCodeGenerator None)) items s
      = (s, inr items').
Proof.
  induction 1 as [| x l Hx Hl IH]; intros Hall s; [eexists; reflexivity |].
  cbn [forallb] in Hall. apply andb_true_iff in Hall as [Hnx Hnl].
  destruct (IH Hnl s) as [l' Hl'].
  destruct x as [| y | z | ys | cls fields attrs]; cbn [visit_items];
    try (rewrite (bind_ok _ _ _ _ _ Hl'); eexists; reflexivity).
  destruct (Hx eq_refl Hnx s) as (r & Hr & Hast).
  rewrite (bind_ok _ _ _ _ _ Hr).
  destruct r; try discriminate Hast.
  rewrite (bind_ok _ _ _ _ _ Hl'). eexists; reflexivity.
Qed.

Lemma file_fields_return kind fields :
  Forall (at_children file_visit_returns) fields ->
  forallb
    (fun fv =>
       match snd fv with
       | VList items => forallb imports_named items
       | VAst _ _ _ => imports_named (snd fv)
       | _ => true
       end) fields = true ->
  forall s,
    exists fields',
      visit_fields (visit (_build_rewriter FileLevelCodeGenerator None)) kind
        fields s
      = (s, inr fields').
Proof.
  induction 1 as [| [f x] l [Hx Hitems] Hl IH]; intros Hall s;
    [eexists; reflexivity |].
  cbn [forallb snd] in Hall, Hx, Hitems.
  apply andb_true_iff in Hall as [Hnx Hnl].
  destruct (IH Hnl s) as [l' Hl'].
  destruct x as [| y | z | ys | cls fs attrs]; cbn [visit_fields];
    try (rewrite (bind_ok _ _ _ _ _ Hl'); eexists; reflexivity).
  - destruct (file_items_return _ Hitems Hnx s) as [ys' Hys].
    rewrite (bind_ok _ _ _ _ _ Hys), (bind_ok _ _ _ _ _ Hl').
    eexists; reflexivity.
  - destruct (Hx eq_refl Hnx s) as (r & Hr & Hast).
    rewrite (bind_ok _ _ _ _ _ Hr), (bind_ok _ _ _ _ _ Hl').
    eexists; reflexivity.
Qed.

Lemma file_visit_returns_all v : file_visit_returns v.
Proof.
  induction v as [| y | z | items | cls fields attrs IH] using traversal_ind;
    intros Hast; try discriminate Hast.
  intros Hn s.
  assert (Hd : exists r,
             dispatch (_build_rewriter FileLevelCodeGenerator None)
               (VAst cls fields attrs) s = (s, inr r) /\ is_ast r = true).
  { unfold dispatch. rewrite file_targets. cbn [class_name].
    destruct (is_import cls) eqn:Ei; [now apply rewrite_imports_returns |].
    unfold is_import in Ei. apply orb_false_iff in Ei as [E1 E2].
    cbn [imports_named] in Hn. rewrite E1, E2 in Hn.
    destruct (file_fields_return cls _ IH Hn s) as [fields' Hf].
    unfold generic_visit, generic_visit_with.
    rewrite (bind_ok _ _ _ _ _ Hf). eexists. split; reflexivity. }
  destruct Hd as (r & Hd & Hr). exists r. split; [| exact Hr].
  rewrite visit_unfold.
  rewrite run_pre_hook_none by apply lookup_empty.
  unfold bind at 1. cbn [ret].
  rewrite (bind_ok _ _ _ _ _ Hd).
  now rewrite run_post_hook_none by apply lookup_empty.
Qed.

Lemma file_level_file_succeeds (to_source : value -> string) g idx file p :
  parsers g !! idx = Some (file, p) ->
  is_ast (ast p) = true -> imports_named (ast p) = true ->
  exists g1,
    generate_file to_source FileLevelCodeGenerator None idx g = (g1, inr tt).
Proof.
  intros Hidx Hast Hn. unfold generate_file. rewrite bind_get, Hidx.
  destruct (String.eqb (basename (file_name p)) "__init__.py");
    [eexists; reflexivity |].
  cbn [_preprocess _postprocess].
  destruct (file_visit_returns_all _ Hast Hn g) as (r & Hr & _).
  assert (Hvisit : visit_tree (_build_rewriter FileLevelCodeGenerator None) idx g
                   = (alter_parser (set_ast (in_place (ast p) r)) idx g, inr tt)).
  { unfold visit_tree, parser_at. unfold bind at 1. rewrite Hidx. cbn [snd].
    now rewrite (bind_ok _ _ _ _ _ Hr). }
  unfold bind at 1. cbn [ret].
  rewrite (bind_ok _ _ _ _ _ Hvisit).
  unfold bind at 1. cbn [ret].
  rewrite (bind_ok _ _ _ _ _ (parser_at_alter _ _ _ _ _ Hidx)).
  rewrite bind_get. eexists. reflexivity.
Qed.

Lemma file_level_loop_succeeds (to_source : value -> string) l :
  List.NoDup l ->
  forall g,
    (forall i, In i l ->
       exists file p, parsers g !! i = Some (file, p)
                      /\ is_ast (ast p) = true /\ imports_named (ast p) = true) ->
    exists g',
      for_each l (generate_file to_source FileLevelCodeGenerator None) g
      = (g', inr tt).
Proof.
  induction 1 as [| a l Ha Hl IH]; intros g Hall; [eexists; reflexivity |].
  destruct (Hall a (or_introl eq_refl)) as (file & p & Hidx & Hast & Hn).
  destruct (file_level_file_succeeds to_source _ _ _ _ Hidx Hast Hn)
    as [g1 Hstep].
  destruct (generate_file_effect _ _ _ _ _ _ Hstep) as (_ & Hothers & _).
  destruct (IH g1) as [g' Hrest].
  { intros i Hi. rewrite Hothers; [apply Hall; now right |].
    intros ->. contradiction. }
  exists g'. cbn [for_each]. now rewrite (bind_ok _ _ _ _ _ Hstep).
Qed.

(** X15: a file-level run raises no exception when every tree of the
    corpus is a node in which each import marked as an import of a corpus
    file names its module: [rewrite_imports], the only handler, cannot
    fail on such nodes, and no other step of the loop of [generate]
    raises (the printer and the file system being total here). *)
Theorem file_level_run_succeeds (to_source : value -> string) (g : Gen) :
  (forall i file p,
      parsers g !! i = Some (file, p) ->
      is_ast (ast p) = true /\ imports_named (ast p) = true) ->
  exists g', generate to_source FileLevelCodeGenerator None g = (g', inr tt).
Proof.
  intros Hall. unfold generate. rewrite bind_get.
  apply file_level_loop_succeeds; [apply List.seq_NoDup |].
  intros i Hi. apply in_seq in Hi.
  destruct (lookup_lt_is_Some_2 (parsers g) i ltac:(lia)) as [[file p] Hidx].
  destruct (Hall _ _ _ Hidx) as [Hast Hn]. eauto.
Qed.

(** ** Files without imports, and entry files *)

Lemma alter_same {A} (f : A -> A) (l : list A) idx :
  (forall x, f x = x) -> alter f idx l = l.
Proof.
  intros Hf. revert idx.
  induction l as [| x l IH]; intros [| idx]; cbn; try reflexivity.
  - now rewrite Hf.
  - f_equal. apply IH.
Qed.

Lemma alter_parser_same_tree g idx file p :
  parsers g !! idx = Some (file, p) ->
  alter_parser (set_ast (ast p)) idx g = g.
Proof.
  intros Hidx. unfold alter_parser.
  assert (Hl : alter (fun kp => (fst kp, set_ast (ast p) (snd kp))) idx (parsers g)
               = parsers g).
  { apply list_eq. intros i. destruct (decide (i = idx)) as [-> | Hne].
    - rewrite list_lookup_alter, decide_True by reflexivity.
      rewrite Hidx. cbn. now destruct p.
    - now rewrite list_lookup_alter_ne. }
  rewrite Hl. now destruct g.
Qed.

(** X14: file-level generation of a file whose tree holds no import
    statement leaves the tree as parsed and writes the banner followed by
    its printed form; nothing else of the generator changes. *)
Theorem file_level_copies_import_free_file (to_source : value -> string)
  (g : Gen) (idx : nat) (file : string) (p : DefaultASTParser) :
  parsers g !! idx = Some (file, p) ->
  basename (file_name p) <> "__init__.py" ->
  is_ast (ast p) = true ->
  unregistered (_build_rewriter FileLevelCodeGenerator None) (ast p) = true ->
  generate_file to_source FileLevelCodeGenerator None idx g
  = (set_files
       (<[output_path g p := CODEGEN_PREFIX +:+ to_source (ast p)]> (files g)) g,
     inr tt).
Proof.
  intros Hidx Hinit Hast Hun. unfold generate_file.
  rewrite bind_get, Hidx. apply String.eqb_neq in Hinit. rewrite Hinit.
  cbn [_preprocess _postprocess].
  assert (Hvisit : visit_tree (_build_rewriter FileLevelCodeGenerator None) idx g
                   = (g, inr tt)).
  { unfold visit_tree, parser_at. unfold bind at 1. rewrite Hidx. cbn [snd].
    rewrite (bind_ok _ _ _ _ _ (all_left_alone _ _ Hast Hun g)).
    rewrite bind_get. unfold put.
    destruct (ast p) eqn:Ep; try discriminate Hast. cbn [in_place].
    rewrite <- Ep. now rewrite (alter_parser_same_tree _ _ _ _ Hidx). }
  unfold bind at 1. cbn [ret].
  rewrite (bind_ok _ _ _ _ _ Hvisit).
  unfold bind at 1. cbn [ret].
  unfold parser_at, bind at 1. rewrite Hidx. cbn [snd].
  rewrite bind_get. reflexivity.
Qed.

Section EntryFacts.
Variable abspath : string -> string.
Variable ast_parse : string -> exn + value.
Variable fs : gmap string string.

Lemma convert_to_ast_all l :
  match Entry.convert_to_ast ast_parse fs l with
  | inr trees =>
      Forall2 (fun f tree => Entry.parse_file ast_parse fs f = inr tree) l trees
  | inl e =>
      exists before f after,
        l = before ++ f :: after
        /\ Entry.parse_file ast_parse fs f = inl e
        /\ Forall (fun f' => exists tree,
                     Entry.parse_file ast_parse fs f' = inr tree) before
  end.
Proof.
  induction l as [| f l IH]; cbn [Entry.convert_to_ast]; [constructor |].
  destruct (Entry.parse_file ast_parse fs f) as [e | tree] eqn:Ef.
  - exists [], f, l. repeat split; auto.
  - destruct (Entry.convert_to_ast ast_parse fs l) as [e | trees].
    + destruct IH as (before & f' & after & -> & Hf' & Hall).
      exists (f :: before), f', after. repeat split; auto.
      constructor; eauto.
    + now constructor.
Qed.

End EntryFacts.

(** X20: a [FileEntry] pairs every entry file, in the order given and
    under its absolute path, with the tree parsed from that path, a
    single string standing for a list of one.  When a file cannot be
    read or parsed, building the entry raises the exception of the first
    such file, the files before it having been parsed. *)
Theorem file_entry_pairs_each_file_with_its_tree (abspath : string -> string)
  (ast_parse : string -> exn + value) (fs : gmap string string)
  (entry_files : string + list string) :
  let given := match entry_files with inl f => [f] | inr l => l end in
  match Entry.FileEntry abspath ast_parse fs entry_files with
  | inr self =>
      Entry.get_cache self = map abspath given
      /\ Forall2
           (fun f pair =>
              fst pair = abspath f
              /\ Entry.parse_file ast_parse fs (abspath f) = inr (snd pair))
           given (Entry.__iter__ self)
  | inl e =>
      exists before f after,
        given = before ++ f :: after
        /\ Entry.parse_file ast_parse fs (abspath f) = inl e
        /\ Forall (fun f' => exists tree,
                     Entry.parse_file ast_parse fs (abspath f') = inr tree)
             before
  end.
Proof.
  cbv zeta. unfold Entry.FileEntry.
  generalize (match entry_files with inl f => [f] | inr l => l end).
  intros given.
  pose proof (convert_to_ast_all ast_parse fs (map abspath given)) as H.
  destruct (Entry.convert_to_ast ast_parse fs (map abspath given))
    as [e | trees].
  - destruct H as (before & f & after & Heq & Hf & Hall).
    apply map_eq_app in Heq as (before' & rest & -> & <- & Hrest).
    apply map_eq_cons in Hrest as (f' & after' & -> & <- & <-).
    exists before', f', after'. split; [reflexivity |]. split; [exact Hf |].
    rewrite List.Forall_forall in Hall. apply List.Forall_forall.
    intros x Hx. apply Hall. now apply in_map.
  - split; [reflexivity |]. unfold Entry.__iter__. cbn [Entry.entries Entry.asts].
    revert trees H. induction given as [| f l IH]; intros trees H;
      inversion H; subst; cbn; constructor; auto.
Qed.

(** ** Segment-level runs and import statements *)

Lemma class_imports_needs_bases node s s' r :
  base_parsers s = None -> is_import (class_name node) = true ->
  _rewrite_class_imports node s = (s', r) -> exists e, r = inl e.
Proof.
  intros Hb Hi H. unfold _rewrite_class_imports in H.
  destruct (String.eqb (class_name node) "ImportFrom"); [| inversion H; eauto].
  apply bind_inv in H as [(? & Hm & ->) | (s1 & names & Hm & H)]; [eauto |].
  apply lift_inv in Hm as [-> _].
  apply bind_inv in H as [(? & Hm & ->) | (s1 & first & Hm & H)]; [eauto |].
  apply lift_inv in Hm as [-> _].
  apply bind_inv in H as [(? & Hm & ->) | (s1 & asname & Hm & H)]; [eauto |].
  apply lift_inv in Hm as [-> _].
  apply bind_inv in H as [(? & Hm & ->) | (s1 & name & Hm & H)]; [eauto |].
  assert (s1 = s) as ->.
  { destruct (truthy asname); [now inversion Hm |].
    now apply lift_inv in Hm as [-> _]. }
  apply bind_inv in H as [(? & Hm' & ->) | (s1 & bases & Hm' & H)]; [eauto |].
  unfold self_attr in Hm'. rewrite Hb in Hm'. discriminate Hm'.
Qed.

Lemma items_need_bases items :
  Forall needs_bases items -> existsb has_import items = true ->
  forall s s' r,
    base_parsers s = None ->
    visit_items (visit class_imports_rewriter) items s = (s', r) ->
    exists e, r = inl e.
Proof.
  induction 1 as [| x l Hx Hl IH]; intros Hex s s' r Hb H;
    [discriminate Hex |].
  cbn [existsb] in Hex.
  assert (Hrest : existsb has_import l = true ->
            forall (pre : list value) s0 r0,
              base_parsers s0 = None ->
              (let* new_values := visit_items (visit class_imports_rewriter) l in
               ret (pre ++ new_values)) s0 = (s', r0) ->
              exists e, r0 = inl e).
  { intros Hl' pre s0 r0 Hb0 H0.
    apply bind_inv in H0 as [(e & Hm & ->) | (s1 & l' & Hm & _)]; [eauto |].
    destruct (IH Hl' _ _ _ Hb0 Hm) as [e He]. discriminate He. }
  destruct x as [| y | z | ys | cls fields attrs]; cbn [visit_items] in H;
    try exact (Hrest Hex [_] _ _ Hb H).
  apply bind_inv in H as [(e & Hm & ->) | (s1 & r1 & Hm & H)]; [eauto |].
  pose proof (class_imports_visit_state _ _ _ _ Hm) as ->.
  destruct (has_import (VAst cls fields attrs)) eqn:Ehere.
  { destruct (Hx Ehere _ _ _ Hb Hm) as [e He]. discriminate He. }
  cbn [orb] in Hex.
  destruct r1 as [| | | | c f a].
  - exact (IH Hex _ _ _ Hb H).
  - apply bind_inv in H as [(e & Hm' & ->) | (s1 & ext & Hm' & H)]; [eauto |].
    apply lift_inv in Hm' as [-> _]. exact (Hrest Hex _ _ _ Hb H).
  - apply bind_inv in H as [(e & Hm' & ->) | (s1 & ext & Hm' & H)]; [eauto |].
    apply lift_inv in Hm' as [-> _]. exact (Hrest Hex _ _ _ Hb H).
  - apply bind_inv in H as [(e & Hm' & ->) | (s1 & ext & Hm' & H)]; [eauto |].
    apply lift_inv in Hm' as [-> _]. exact (Hrest Hex _ _ _ Hb H).
  - exact (Hrest Hex [_] _ _ Hb H).
Qed.

Lemma fields_need_bases kind fields :
  Forall (at_children needs_bases) fields ->
  existsb
    (fun fv =>
       match snd fv with
       | VList items => existsb has_import items
       | VAst _ _ _ => has_import (snd fv)
       | _ => false
       end) fields = true ->
  forall s s' r,
    base_parsers s = None ->
    visit_fields (visit class_imports_rewriter) kind fields s = (s', r) ->
    exists e, r = inl e.
Proof.
  induction 1 as [| [f x] l [Hx Hitems] Hl IH]; intros Hex s s' r Hb H;
    [discriminate Hex |].
  cbn [existsb snd] in Hex, Hx, Hitems.
  assert (Hrest : existsb
            (fun fv =>
               match snd fv with
               | VList items => existsb has_import items
               | VAst _ _ _ => has_import (snd fv)
               | _ => false
               end) l = true ->
            forall (g : list (string * value) -> list (string * value)) s0 r0,
              base_parsers s0 = None ->
              (let* rest' :=
                 visit_fields (visit class_imports_rewriter) kind l in
               ret (g rest')) s0 = (s', r0) ->
              exists e, r0 = inl e).
  { intros Hl' g s0 r0 Hb0 H0.
    apply bind_inv in H0 as [(e & Hm & ->) | (s1 & l' & Hm & _)]; [eauto |].
    destruct (IH Hl' _ _ _ Hb0 Hm) as [e He]. discriminate He. }
  destruct x as [| y | z | ys | cls fs attrs]; cbn [visit_fields] in H.
  1-3: exact (Hrest Hex (cons _) _ _ Hb H).
  - apply bind_inv in H as [(e & Hm & ->) | (s1 & ys' & Hm & H)]; [eauto |].
    destruct (existsb has_import ys) eqn:Eys.
    { destruct (items_need_bases _ Hitems Eys _ _ _ Hb Hm) as [e He].
      discriminate He. }
    assert (s1 = s) as ->.
    { symmetry.
      refine (visit_items_preserves eq (fun s => eq_refl)
                (fun a b c H1 H2 => eq_trans H1 H2) _ ys _ _ _ _ Hm).
      apply Forall_forall. intros v _ a b c Hv. symmetry.
      exact (class_imports_visit_state _ _ _ _ Hv). }
    exact (Hrest Hex (cons _) _ _ Hb H).
  - apply bind_inv in H as [(e & Hm & ->) | (s1 & r1 & Hm & H)]; [eauto |].
    pose proof (class_imports_visit_state _ _ _ _ Hm) as ->.
    destruct (has_import (VAst cls fs attrs)) eqn:Ehere.
    { destruct (Hx Ehere _ _ _ Hb Hm) as [e He]. discriminate He. }
    exact (Hrest Hex (replace_field kind f r1) _ _ Hb H).
Qed.

Lemma all_need_bases v : needs_bases v.
Proof.
  induction v as [| y | z | items | cls fields attrs IH] using traversal_ind;
    intros Hi; try discriminate Hi.
  intros s s' r Hb H. rewrite visit_unfold in H.
  rewrite run_pre_hook_none in H by apply lookup_empty.
  apply bind_inv in H as [(e & Hm & ->) | (s1 & [] & Hm & H)]; [eauto |].
  inversion Hm; subst s1. clear Hm.
  apply bind_inv in H as [(e & Hm & ->) | (s1 & r1 & Hm & H)]; [eauto |].
  exfalso. unfold dispatch in Hm. rewrite class_imports_targets in Hm.
  cbn [class_name] in Hm. cbn [has_import] in Hi.
  destruct (is_import cls) eqn:Ei.
  - destruct (class_imports_needs_bases (VAst cls fields attrs) _ _ _ Hb Ei Hm)
      as [e He].
    discriminate He.
  - cbn [orb] in Hi. unfold generic_visit, generic_visit_with in Hm.
    apply bind_inv_ok in Hm as (s2 & fields' & Hf & _).
    destruct (fields_need_bases _ _ IH Hi _ _ _ Hb Hf) as [e He].
    discriminate He.
Qed.

Lemma postprocess_fails_without_bases (g : Gen) (cur : nat) (file : string)
  (parser : DefaultASTParser) :
  base_parsers g = None ->
  cur_parser g = Some cur ->
  parsers g !! cur = Some (file, parser) ->
  has_import (ast parser) = true ->
  exists e, _postprocess SegmentCodeGenerator g = (g, inl e).
Proof.
  intros Hb Hcur Hidx Himport.
  destruct (visit class_imports_rewriter (ast parser) g) as [s' r] eqn:Hv.
  pose proof (class_imports_visit_state _ _ _ _ Hv) as ->.
  destruct (all_need_bases _ Himport _ _ _ Hb Hv) as [e ->].
  exists e. cbn [_postprocess]. unfold self_attr, visit_tree, parser_at, bind.
  rewrite Hcur, Hidx. cbn [snd]. now rewrite Hv.
Qed.

(** X16: as long as no class has been merged in the run, [base_parsers]
    does not exist: [_rewrite_class_imports] raises on every import
    statement, of either form, and [_postprocess] of the segment-level
    generator ends with an exception, changing nothing, whenever the tree
    of the current file holds an import statement that the traversal
    reaches. *)
Theorem postprocess_needs_merged_bases (g : Gen) (cur : nat) (file : string)
  (parser : DefaultASTParser) :
  base_parsers g = None ->
  cur_parser g = Some cur ->
  parsers g !! cur = Some (file, parser) ->
  has_import (ast parser) = true ->
  (exists e, _postprocess SegmentCodeGenerator g = (g, inl e))
  /\ (forall node self,
         base_parsers self = None -> is_import (class_name node) = true ->
         exists e, _rewrite_class_imports node self = (self, inl e)).
Proof.
  intros Hb Hcur Hidx Himport. split.
  - exact (postprocess_fails_without_bases g cur file parser Hb Hcur Hidx Himport).
  - intros node self Hself Hi.
    destruct (_rewrite_class_imports node self) as [s' r] eqn:H.
    destruct (_rewrite_class_imports_cases _ _ _ _ H) as [-> _].
    destruct (class_imports_needs_bases _ _ _ _ Hself Hi H) as [e ->].
    now exists e.
Qed.

Lemma merge_info_none (ps : list (string * DefaultASTParser)) l :
  forall b (s s' : Gen) info,
    foldM (fun target_files path =>
             let* p := lift (dict_get path ps) in
             ret (fold_left
                    (fun tf '(m, bases) =>
                       fold_left
                         (fun tf base =>
                            if has_key base (_local_defs p)
                            then merge_info_set m base path tf else tf)
                         bases tf)
                    [] target_files)) l b s
    = (s', inr info) -> info = b.
Proof.
  induction l as [| path l IH]; intros b s s' info H; cbn [foldM] in H.
  - now inversion H.
  - apply bind_inv_ok in H as (s1 & b1 & Hm & H).
    apply bind_inv_ok in Hm as (s2 & p & _ & Hret).
    inversion Hret; subst. cbn [fold_left] in H. exact (IH _ _ _ _ H).
Qed.

Lemma segment_preprocess_no_merge file idx g g1 key parser :
  parsers g !! idx = Some (key, parser) ->
  _to_merge_classes parser = [] ->
  segment_preprocess file idx g = (g1, inr tt) ->
  exists ext,
    g1 = set_preprocessed ext (_analyze_local_calls parser) [] idx
           (imports_info_read file g).
Proof.
  intros Hidx Hnone H. unfold segment_preprocess in H.
  apply bind_inv_ok in H as (s0 & p & Hp & H).
  unfold parser_at in Hp. rewrite Hidx in Hp. inversion Hp; subst s0 p.
  clear Hp. cbn [snd] in H. rewrite bind_get in H.
  apply bind_inv_ok in H as (s0 & tgts & Hm & H).
  apply lift_inv in Hm as [-> _].
  apply bind_inv_ok in H as (s0 & info & Hm & H).
  rewrite Hnone in Hm. pose proof (merge_info_none _ _ _ _ _ _ Hm) as ->.
  apply foldM_state in Hm; [subst s0 |].
  2: { intros b a. apply eq_bind; [apply eq_lift | intros; apply eq_ret]. }
  apply bind_inv_ok in H as (s0 & importers & Hm & H).
  unfold imports_info_at in Hm. inversion Hm; subst s0 importers. clear Hm.
  apply bind_inv_ok in H as (s0 & ext & Hm & H).
  apply foldM_state in Hm; [subst s0 |].
  2: { intros b a. apply eq_bind; [apply eq_lift | intros; apply eq_ret]. }
  rewrite bind_get in H. inversion H. eauto.
Qed.

Lemma unless_merging_eq {A} (m : M Gen A) :
  preserves eq m -> preserves unless_merging m.
Proof. intros H s s' r Hm _. symmetry. exact (H _ _ _ Hm). Qed.

Lemma seg_hook_unless_merging node :
  preserves unless_merging (_classdef_hook node).
Proof.
  intros s s' r H Hinfo. unfold _classdef_hook in H.
  apply bind_inv in H as [(? & Hm & ->) | (s1 & name & Hm & H)];
    apply lift_inv in Hm as [-> _]; [reflexivity |].
  apply bind_inv in H as [(? & Hm & ->) | (s1 & info_all & Hm & H)];
    unfold self_attr in Hm; rewrite Hinfo in Hm; inversion Hm; subst.
  destruct name; cbn [assoc] in H; now inversion H.
Qed.

Lemma seg_rewriter_unless_merging :
  all_preserve unless_merging (_build_rewriter SegmentCodeGenerator None).
Proof.
  intros k h [H | [H | H]] v.
  - rewrite seg_targets in H. destruct (is_import k).
    + inversion H. apply unless_merging_eq, rewrite_imports_state.
    + destruct (is_def_class k); [| discriminate].
      inversion H. apply unless_merging_eq, rewrite_defs_state.
  - rewrite seg_pre_hooks in H.
    destruct (String.eqb k "ClassDef"); [| discriminate].
    inversion H. apply seg_hook_unless_merging.
  - cbn in H. now rewrite lookup_empty in H.
Qed.

Lemma seg_visit_unless_merging v s s' r :
  class_merge_info s = Some [] ->
  visit (_build_rewriter SegmentCodeGenerator None) v s = (s', r) -> s' = s.
Proof.
  intros Hinfo H.
  refine (visit_preserves unless_merging _ _ _ seg_rewriter_unless_merging
            v s s' r H Hinfo).
  - intros a _. reflexivity.
  - intros a b c Hab Hbc Ha. rewrite (Hbc ltac:(now rewrite (Hab Ha))).
    exact (Hab Ha).
Qed.

Lemma seg_items_keep_import extern local body :
  forall s s' body',
    visit_items (visit (_build_rewriter SegmentCodeGenerator None)) body s
    = (s', inr body') ->
    extern_used s = Some extern -> local_used s = Some local ->
    existsb is_import_stmt body = true -> existsb is_import_stmt body' = true.
Proof.
  induction body as [| x l IH]; intros s s' body' H Hext Hloc Hex;
    [discriminate Hex |].
  cbn [existsb] in Hex.
  assert (Hskip : forall s0 y,
            extern_used s0 = Some extern -> local_used s0 = Some local ->
            is_import_stmt y = true \/ existsb is_import_stmt l = true ->
            (let* new_values :=
               visit_items (visit (_build_rewriter SegmentCodeGenerator None)) l in
             ret (y :: new_values)) s0 = (s', inr body') ->
            existsb is_import_stmt body' = true).
  { intros s0 y Hext0 Hloc0 Hy H0.
    apply bind_inv_ok in H0 as (s1 & l' & Hl' & Hret).
    inversion Hret; subst. cbn [existsb].
    destruct Hy as [-> | Hl]; [reflexivity |].
    rewrite (IH _ _ _ Hl' Hext0 Hloc0 Hl). apply orb_true_r. }
  destruct x as [| y | z | ys | cls fields attrs]; cbn [visit_items] in H.
  1-4: eapply (Hskip s _ Hext Hloc); [| exact H]; right; exact Hex.
  apply bind_inv_ok in H as (s1 & r & Hr & H).
  destruct (seg_visit_state _ _ _ _ Hr) as (Hext1 & Hloc1 & _).
  rewrite Hext in Hext1. rewrite Hloc in Hloc1.
  pose proof (seg_visit_node _ _ _ _ _ _ _ _ Hr Hext Hloc) as Hnode.
  unfold is_import_stmt at 1 in Hex. cbn [class_name] in Hex.
  destruct (is_import cls) eqn:Ei.
  - rewrite (is_import_not_def _ Ei) in Hnode. destruct Hnode as [Hast Hcls].
    destruct r as [| | | | c f a]; try discriminate Hast.
    cbn in Hcls. subst c.
    eapply (Hskip s1 _ Hext1 Hloc1); [| exact H].
    left. unfold is_import_stmt. exact Ei.
  - cbn [orb] in Hex. destruct (is_def_class cls) eqn:Ed.
    + destruct (is_live extern local (VAst cls fields attrs)); subst r.
      * eapply (Hskip s1 _ Hext1 Hloc1); [| exact H]. right. exact Hex.
      * exact (IH _ _ _ H Hext1 Hloc1 Hex).
    + destruct Hnode as [Hast Hcls].
      destruct r as [| | | | c f a]; try discriminate Hast.
      eapply (Hskip s1 _ Hext1 Hloc1); [| exact H]. right. exact Hex.
Qed.

Lemma has_import_items l :
  existsb is_import_stmt l = true -> existsb has_import l = true.
Proof.
  induction l as [| x l IH]; cbn [existsb]; [auto |].
  intros H. apply orb_true_iff in H as [H | H].
  - destruct x as [| | | | cls fields attrs]; try discriminate H.
    unfold is_import_stmt in H. cbn [class_name] in H.
    cbn [has_import]. now rewrite H.
  - rewrite (IH H). apply orb_true_r.
Qed.

Lemma segment_file_stops (to_source : value -> string)
  (g : Gen) (idx : nat) (file : string) (p : DefaultASTParser)
  (body : list value) (others : list (string * value)) (attrs : list string) :
  base_parsers g = None ->
  parsers g !! idx = Some (file, p) ->
  basename (file_name p) <> "__init__.py" ->
  _to_merge_classes p = [] ->
  ast p = VAst "Module" (("body", VList body) :: others) attrs ->
  existsb is_import_stmt body = true ->
  exists g1 e,
    generate_file to_source SegmentCodeGenerator None idx g = (g1, inl e)
    /\ files g1 = files g.
Proof.
  intros Hb Hidx Hinit Hnone Hast Himport.
  destruct (generate_file to_source SegmentCodeGenerator None idx g)
    as [g1 [e | []]] eqn:H.
  { exists g1, e. split; [reflexivity |].
    now destruct (generate_file_effect _ _ _ _ _ _ H) as (_ & _ & Hf). }
  exfalso. unfold generate_file in H. rewrite bind_get, Hidx in H.
  apply String.eqb_neq in Hinit. rewrite Hinit in H.
  apply bind_inv_ok in H as (s1 & [] & Hpre & H). cbn [_preprocess] in Hpre.
  destruct (segment_preprocess_no_merge _ _ _ _ _ _ Hidx Hnone Hpre)
    as (ext & ->).
  set (s1 := set_preprocessed ext (_analyze_local_calls p) [] idx
               (imports_info_read file g)) in *.
  assert (Hidx1 : parsers s1 !! idx = Some (file, p)).
  { subst s1. cbn [parsers set_preprocessed].
    now rewrite imports_info_read_parsers. }
  assert (Hb1 : base_parsers s1 = None).
  { subst s1. cbn [base_parsers set_preprocessed].
    rewrite imports_info_read_eq. exact Hb. }
  apply bind_inv_ok in H as (s2 & [] & Hvisit & H).
  unfold visit_tree in Hvisit.
  apply bind_inv_ok in Hvisit as (s0 & p' & Hp & Hvisit).
  unfold parser_at in Hp. rewrite Hidx1 in Hp.
  inversion Hp; subst s0 p'. clear Hp.
  cbn [snd] in Hvisit. rewrite Hast in Hvisit.
  apply bind_inv_ok in Hvisit as (s0 & result & Hr & Hvisit).
  pose proof (seg_visit_unless_merging _ s1 _ _ eq_refl Hr) as ->.
  destruct (visit_module _ _ _ _ _ _ _
              (eq_trans (seg_targets _) eq_refl)
              (eq_trans (seg_pre_hooks _) eq_refl)
              (lookup_empty _) Hr)
    as (s0 & body' & others' & Hbody & ->).
  pose proof (seg_items_keep_import _ _ _ _ _ _ Hbody eq_refl eq_refl Himport)
    as Hkept.
  rewrite bind_get in Hvisit. inversion Hvisit; subst s2. clear Hvisit.
  cbn [in_place] in H.
  apply bind_inv_ok in H as (s3 & [] & Hpost & _).
  destruct (postprocess_fails_without_bases
              (alter_parser
                 (set_ast (VAst "Module" (("body", VList body') :: others') attrs))
                 idx s1)
              idx file
              (set_ast (VAst "Module" (("body", VList body') :: others') attrs) p))
    as [e He].
  - exact Hb1.
  - reflexivity.
  - apply lookup_alter_parser. exact Hidx1.
  - cbn [ast set_ast has_import existsb snd].
    rewrite (has_import_items _ Hkept). reflexivity.
  - rewrite He in Hpost. discriminate Hpost.
Qed.

(** X17: segment-level generation of a file that has an import
    statement at its top level and no class to merge, in a run in which
    no class has been merged yet, ends with an exception and writes no
    file: the rewriting pass keeps the statement, and the postprocess
    pass fails on it.  The other parsers are as before, and so is the
    configuration, but for the empty entry that [imports_info] gains
    when the file had none. *)
Theorem segment_stops_at_import_without_merge (to_source : value -> string)
  (g : Gen) (idx : nat) (file : string) (p : DefaultASTParser)
  (body : list value) (others : list (string * value)) (attrs : list string) :
  base_parsers g = None ->
  parsers g !! idx = Some (file, p) ->
  basename (file_name p) <> "__init__.py" ->
  _to_merge_classes p = [] ->
  ast p = VAst "Module" (("body", VList body) :: others) attrs ->
  existsb is_import_stmt body = true ->
  exists g1 e,
    generate_file to_source SegmentCodeGenerator None idx g = (g1, inl e)
    /\ files g1 = files g
    /\ same_setup g g1
    /\ forall i, i <> idx -> parsers g1 !! i = parsers g !! i.
Proof.
  intros Hb Hidx Hinit Hnone Hast Himport.
  destruct (segment_file_stops to_source g idx file p body others attrs
              Hb Hidx Hinit Hnone Hast Himport) as (g1 & e & Hstop & Hfiles).
  exists g1, e. split; [exact Hstop |]. split; [exact Hfiles |].
  destruct (generate_file_effect _ _ _ _ _ _ Hstop) as (Hsetup & Hothers & _).
  split; [exact Hsetup | exact Hothers].
Qed.

Lemma same_merging_refl s : same_merging s s.
Proof. now split. Qed.

Lemma same_merging_trans a b c :
  same_merging a b -> same_merging b c -> same_merging a c.
Proof. intros [H1 H2] [H1' H2']. split; congruence. Qed.

Lemma imports_info_read_same_merging file s :
  same_merging s (imports_info_read file s).
Proof. rewrite imports_info_read_eq. now split. Qed.

Lemma alter_parser_same_merging t idx s :
  same_merging s (alter_parser (set_ast t) idx s).
Proof.
  split; [reflexivity |]. unfold alter_parser. cbn [parsers set_parsers].
  generalize (parsers s). intros l. revert idx.
  induction l as [| kp l IH]; intros [| idx]; cbn; try reflexivity.
  f_equal. apply IH.
Qed.

Lemma visit_tree_same_merging rw idx s s' r :
  (forall v s1 r1, visit rw v s = (s1, r1) -> s1 = s) ->
  visit_tree rw idx s = (s', r) ->
  same_merging s s' /\ class_merge_info s' = class_merge_info s
  /\ cur_parser s' = cur_parser s.
Proof.
  intros Hv H. unfold visit_tree in H.
  apply bind_inv in H as [(? & Hm & ->) | (s0 & parser & Hm & H)];
    apply parser_at_inv in Hm as [-> _];
    [split; [apply same_merging_refl | now split] |].
  apply bind_inv in H as [(? & Hm & ->) | (s1 & result & Hm & H)];
    apply Hv in Hm; subst; [split; [apply same_merging_refl | now split] |].
  rewrite bind_get in H. inversion H; subst s'.
  split; [apply alter_parser_same_merging | now split].
Qed.

Lemma segment_file_same_merging (to_source : value -> string) idx g g1 r :
  (forall file p, parsers g !! idx = Some (file, p) -> _to_merge_classes p = []) ->
  generate_file to_source SegmentCodeGenerator None idx g = (g1, r) ->
  same_merging g g1.
Proof.
  intros Hnone H. unfold generate_file in H. rewrite bind_get in H.
  destruct (parsers g !! idx) as [[file parser] |] eqn:Hidx.
  2: { inversion H. apply same_merging_refl. }
  specialize (Hnone _ _ eq_refl).
  destruct (String.eqb (basename (file_name parser)) "__init__.py").
  { inversion H. apply same_merging_refl. }
  apply bind_inv in H as [(? & Hm & ->) | (s1 & [] & Hm & H)];
    cbn [_preprocess] in Hm.
  { apply segment_preprocess_state in Hm.
    destruct Hm as [-> | ->];
      [apply same_merging_refl | apply imports_info_read_same_merging]. }
  destruct (segment_preprocess_no_merge _ _ _ _ _ _ Hidx Hnone Hm) as (ext & ->).
  clear Hm.
  set (s1 := set_preprocessed ext (_analyze_local_calls parser) [] idx
               (imports_info_read file g)) in *.
  assert (H1 : same_merging g s1).
  { eapply same_merging_trans; [apply imports_info_read_same_merging |].
    now split. }
  assert (Hinfo : class_merge_info s1 = Some []) by reflexivity.
  assert (Hcur : cur_parser s1 = Some idx) by reflexivity.
  clearbody s1.
  assert (Hseg : forall s, class_merge_info s = Some [] ->
            forall v s' r',
              visit (_build_rewriter SegmentCodeGenerator None) v s = (s', r') ->
              s' = s).
  { intros s Hs v s' r' Hv. exact (seg_visit_unless_merging _ _ _ _ Hs Hv). }
  apply bind_inv in H as [(? & Hm & ->) | (s2 & [] & Hm & H)];
    destruct (visit_tree_same_merging _ _ _ _ _ (Hseg s1 Hinfo) Hm)
      as (H2 & Hinfo2 & Hcur2);
    pose proof (same_merging_trans _ _ _ H1 H2) as H12; [exact H12 |].
  rewrite Hcur in Hcur2. clear Hm H1 H2.
  assert (Hpost : forall s3 r3,
            _postprocess SegmentCodeGenerator s2 = (s3, r3) ->
            same_merging s2 s3).
  { intros s3 r3 Hp. cbn [_postprocess] in Hp.
    unfold self_attr, bind in Hp. rewrite Hcur2 in Hp.
    refine (proj1 (visit_tree_same_merging class_imports_rewriter idx s2 s3 r3
                     _ Hp)).
    intros v s' r' Hv. exact (class_imports_visit_state _ _ _ _ Hv). }
  apply bind_inv in H as [(? & Hm & ->) | (s3 & [] & Hm & H)];
    pose proof (same_merging_trans _ _ _ H12 (Hpost _ _ Hm)) as H123;
    [exact H123 |].
  apply bind_inv in H as [(? & Hm' & ->) | (s4 & p1 & Hm' & H)];
    apply parser_at_inv in Hm' as [-> _]; [exact H123 |].
  rewrite bind_get, _generate_from_ast_writes in H. inversion H; subst.
  eapply same_merging_trans; [exact H123 |]. now split.
Qed.

Lemma segment_loop_same_merging (to_source : value -> string) l :
  forall g g' r,
    Forall (fun mc => mc = []) (map merge_classes_of (parsers g)) ->
    for_each l (generate_file to_source SegmentCodeGenerator None) g = (g', r) ->
    same_merging g g'.
Proof.
  induction l as [| a l IH]; intros g g' r Hall H; cbn [for_each] in H.
  - inversion H. apply same_merging_refl.
  - assert (Hstep : forall g1 r1,
              generate_file to_source SegmentCodeGenerator None a g = (g1, r1) ->
              same_merging g g1).
    { intros g1 r1 Hg.
      apply (segment_file_same_merging to_source a g g1 r1); [| exact Hg].
      intros file p Hp. rewrite List.Forall_forall in Hall. apply Hall.
      apply in_map_iff. exists (file, p). split; [reflexivity |].
      exact (lookup_In _ _ _ Hp). }
    apply bind_inv in H as [(e & Hm & ->) | (g1 & [] & Hm & H)];
      [exact (Hstep _ _ Hm) |].
    pose proof (Hstep _ _ Hm) as H1.
    eapply same_merging_trans; [exact H1 |].
    apply (IH _ _ _ ltac:(destruct H1 as [_ ->]; exact Hall) H).
Qed.

(** X18: a segment-level run over a corpus in which no parser asks for
    a class merge ends with an exception when it reaches a file with an
    import statement at its top level, if not before: such a run never
    completes. *)
Theorem segment_run_fails_on_import (to_source : value -> string)
  (g : Gen) (idx : nat) (file : string) (p : DefaultASTParser)
  (body : list value) (others : list (string * value)) (attrs : list string) :
  base_parsers g = None ->
  Forall (fun kp => _to_merge_classes (snd kp) = []) (parsers g) ->
  parsers g !! idx = Some (file, p) ->
  basename (file_name p) <> "__init__.py" ->
  ast p = VAst "Module" (("body", VList body) :: others) attrs ->
  existsb is_import_stmt body = true ->
  exists g' e, generate to_source SegmentCodeGenerator None g = (g', inl e).
Proof.
  intros Hb Hall Hidx Hinit Hast Himport.
  unfold generate. rewrite bind_get.
  assert (Hlt : idx < length (parsers g)) by (eapply lookup_lt_Some; eauto).
  replace (length (parsers g)) with (idx + S (length (parsers g) - S idx))
    by lia.
  rewrite seq_app, for_each_app. cbn [seq plus].
  destruct (for_each (seq 0 idx) _ g) as [ga [e | []]] eqn:Hbefore; [eauto |].
  destruct (run_effect _ _ _ _ _ _ Hbefore) as (_ & Hpa & _).
  assert (Hall' : Forall (fun mc => mc = []) (map merge_classes_of (parsers g))).
  { rewrite List.Forall_forall in *. intros mc Hin.
    apply in_map_iff in Hin as (kp & <- & Hkp). now apply Hall. }
  destruct (segment_loop_same_merging _ _ _ _ _ Hall' Hbefore) as [Hba _].
  assert (Hia : parsers ga !! idx = Some (file, p)).
  { rewrite Hpa; [exact Hidx |]. rewrite in_seq. lia. }
  assert (Hnone : _to_merge_classes p = []).
  { rewrite List.Forall_forall in Hall.
    exact (Hall (file, p) (lookup_In _ _ _ Hidx)). }
  destruct (segment_file_stops to_source ga idx file p body others attrs)
    as (g1 & e & Hstop & _); auto; [congruence |].
  exists g1, e. cbn [for_each]. now apply bind_err.
Qed.

Lemma class_imports_result node s s' r bp :
  base_parsers s = Some bp ->
  _rewrite_class_imports node s = (s', inr r) ->
  r = if drops_import bp node then REMOVE_NODE else node.
Proof.
  intros Hb H. unfold _rewrite_class_imports in H.
  destruct (String.eqb (class_name node) "ImportFrom"); [| discriminate H].
  unfold drops_import, first_bound_name.
  apply bind_inv_ok in H as (s1 & names & Hm & H).
  apply lift_inv in Hm as [-> <-].
  apply bind_inv_ok in H as (s1 & first & Hm & H).
  apply lift_inv in Hm as [-> <-].
  apply bind_inv_ok in H as (s1 & asname & Hm & H).
  apply lift_inv in Hm as [-> <-].
  apply bind_inv_ok in H as (s1 & name & Hm & H).
  assert (Hname : s1 = s
                  /\ (if truthy asname then inr asname else getattr first "name")
                     = inr name).
  { destruct (truthy asname); [now inversion Hm |].
    now apply lift_inv in Hm as [-> <-]. }
  destruct Hname as [-> Hname]. rewrite Hname. clear Hm.
  apply bind_inv_ok in H as (s1 & bases & Hm & H).
  unfold self_attr in Hm. rewrite Hb in Hm. inversion Hm; subst s1 bases.
  destruct name; try discriminate H;
    destruct (vmem _ _); now inversion H.
Qed.

Lemma post_visit_import cls fields attrs s s' r bp :
  is_import cls = true -> base_parsers s = Some bp ->
  visit class_imports_rewriter (VAst cls fields attrs) s = (s', inr r) ->
  r = if drops_import bp (VAst cls fields attrs) then REMOVE_NODE
      else VAst cls fields attrs.
Proof.
  intros Hi Hb H. rewrite visit_unfold in H.
  rewrite run_pre_hook_none in H by apply lookup_empty.
  apply bind_inv_ok in H as (s1 & [] & Hpre & H). inversion Hpre; subst s1.
  apply bind_inv_ok in H as (s2 & r' & Hd & Hpost).
  rewrite run_post_hook_none in Hpost by apply lookup_empty.
  inversion Hpost; subst. clear Hpost Hpre.
  unfold dispatch in Hd. rewrite class_imports_targets in Hd.
  cbn [class_name] in Hd. rewrite Hi in Hd.
  exact (class_imports_result _ _ _ _ _ Hb Hd).
Qed.

Lemma post_items_imports bp l :
  forall s s' l',
    base_parsers s = Some bp ->
    visit_items (visit class_imports_rewriter) l s = (s', inr l') ->
    List.filter is_import_stmt l'
    = List.filter (fun v => negb (drops_import bp v))
        (List.filter is_import_stmt l).
Proof.
  induction l as [| x l IH]; intros s s' l' Hb H.
  - inversion H. reflexivity.
  - assert (Hkeep : forall s0 y,
        base_parsers s0 = Some bp ->
        is_import_stmt x = false -> is_import_stmt y = false ->
        (let* new_values := visit_items (visit class_imports_rewriter) l in
         ret (y :: new_values)) s0 = (s', inr l') ->
        List.filter is_import_stmt l'
        = List.filter (fun v => negb (drops_import bp v))
            (List.filter is_import_stmt (x :: l))).
    { intros s0 y Hb0 Hx Hy H0.
      apply bind_inv_ok in H0 as (s1 & l0 & Hl0 & Hret).
      inversion Hret; subst. cbn [List.filter]. rewrite Hx, Hy. eauto. }
    destruct x as [| y | z | ys | cls fields attrs]; cbn [visit_items] in H.
    1-4: eapply (Hkeep s _ Hb); [| | exact H]; reflexivity.
    apply bind_inv_ok in H as (s1 & r & Hr & H).
    pose proof (class_imports_visit_state _ _ _ _ Hr) as ->.
    destruct (is_import cls) eqn:Ei.
    + pose proof (post_visit_import _ _ _ _ _ _ _ Ei Hb Hr) as ->.
      cbn [List.filter]. unfold is_import_stmt at 2. cbn [class_name].
      rewrite Ei. cbn [List.filter].
      destruct (drops_import bp (VAst cls fields attrs)); cbn [negb].
      * exact (IH _ _ _ Hb H).
      * apply bind_inv_ok in H as (s1 & l0 & Hl0 & Hret).
        inversion Hret; subst. cbn [List.filter].
        unfold is_import_stmt at 1. cbn [class_name]. rewrite Ei.
        f_equal. exact (IH _ _ _ Hb Hl0).
    + pose proof (post_visit_node _ _ _ _ _ _ Hr) as Hnode. rewrite Ei in Hnode.
      destruct Hnode as (fields' & -> & _).
      eapply (Hkeep s _ Hb); [| | exact H];
        unfold is_import_stmt; cbn [class_name]; exact Ei.
Qed.

(** X21: when [_postprocess] goes through, the import statements left
    at the top level of the tree are those of the tree it was given, in
    order, but for the statements whose first alias is bound to the name
    of a merged base class ([node.names[0].asname or
    node.names[0].name]): such a statement goes as a whole, with every
    other name it imports, and a statement that imports a merged base as
    a later alias stays. *)
Theorem postprocess_drops_by_first_alias (g g' : Gen) (idx : nat)
  (file : string) (p : DefaultASTParser) (bp : list (string * nat))
  (body : list value) (others : list (string * value)) (attrs : list string) :
  cur_parser g = Some idx ->
  base_parsers g = Some bp ->
  parsers g !! idx = Some (file, p) ->
  ast p = VAst "Module" (("body", VList body) :: others) attrs ->
  _postprocess SegmentCodeGenerator g = (g', inr tt) ->
  exists out,
    parsers g' !! idx = Some (file, out)
    /\ top_imports (ast out)
       = List.filter (fun v => negb (drops_import bp v)) (top_imports (ast p)).
Proof.
  intros Hcur Hb Hidx Hast Hpost. cbn [_postprocess] in Hpost.
  apply bind_inv_ok in Hpost as (s0 & cur & Hc & Hpost).
  unfold self_attr in Hc. rewrite Hcur in Hc. inversion Hc; subst s0 cur.
  clear Hc. unfold visit_tree in Hpost.
  apply bind_inv_ok in Hpost as (s0 & p' & Hp & Hpost).
  unfold parser_at in Hp. rewrite Hidx in Hp. inversion Hp; subst s0 p'.
  clear Hp. cbn [snd] in Hpost. rewrite Hast in Hpost.
  apply bind_inv_ok in Hpost as (g2 & r & Hr & Hpost).
  pose proof (class_imports_visit_state _ _ _ _ Hr) as ->.
  destruct (visit_module _ _ _ _ _ _ _
              (eq_trans (class_imports_targets _) eq_refl)
              (lookup_empty _) (lookup_empty _) Hr)
    as (s2 & body2 & others2 & Hbody2 & ->).
  rewrite bind_get in Hpost. inversion Hpost; subst g'. clear Hpost.
  cbn [in_place].
  exists (set_ast (VAst "Module" (("body", VList body2) :: others2) attrs) p).
  split; [now apply lookup_alter_parser |].
  rewrite Hast. cbn [ast set_ast]. unfold top_imports. cbn [getattr assoc].
  cbn. exact (post_items_imports _ _ _ _ _ Hb Hbody2).
Qed.

(** ** The classes to merge *)

Lemma in_assoc_set {A} k (x : A) d k' v :
  In (k', v) (assoc_set k x d) -> (k' = k /\ v = x) \/ In (k', v) d.
Proof.
  induction d as [| [k0 y] d IH]; cbn.
  - intros [H | []]. inversion H. auto.
  - destruct (String.eqb k k0) eqn:E.
    + apply String.eqb_eq in E. subst k0. intros [H | H]; [| auto].
      inversion H. auto.
    + intros [H | H]; [auto |]. destruct (IH H); auto.
Qed.

Lemma assoc_In {A} k (d : list (string * A)) x :
  assoc k d = Some x -> In (k, x) d.
Proof.
  induction d as [| [k0 y] d IH]; cbn; [discriminate |].
  destruct (String.eqb k k0) eqn:E.
  - apply String.eqb_eq in E. subst k0. intros H. inversion H. now left.
  - intros H. right. auto.
Qed.

Lemma has_key_assoc {A} k (d : list (string * A)) :
  has_key k d = true -> is_Some (assoc k d).
Proof.
  unfold has_key. intros H. apply mem_In in H.
  induction d as [| [k0 y] d IH]; [destruct H |].
  cbn. destruct (String.eqb k k0) eqn:E; [eauto |].
  apply IH. destruct H as [H | H]; [| exact H].
  cbn in H. subst k0. rewrite String.eqb_refl in E. discriminate E.
Qed.

Section MergeInfo.
Variable P : string -> string -> string -> Prop.

Lemma merge_info_set_ok m base path tf :
  P m base path -> entries_ok P tf -> entries_ok P (merge_info_set m base path tf).
Proof.
  intros Hp Htf m' l b p Hin Hb. unfold merge_info_set in Hin.
  apply in_assoc_set in Hin as [[-> ->] | Hin]; [| eauto].
  apply in_assoc_set in Hb as [[-> ->] | Hb]; [exact Hp |].
  destruct (assoc m tf) as [l0 |] eqn:E; [| destruct Hb].
  apply assoc_In in E. eauto.
Qed.

Lemma bases_fold_ok (defs : list (string * value)) m path bases :
  forall tf,
    (forall base, In base bases -> has_key base defs = true -> P m base path) ->
    entries_ok P tf ->
    entries_ok P
      (fold_left
         (fun tf base =>
            if has_key base defs then merge_info_set m base path tf else tf)
         bases tf).
Proof.
  induction bases as [| b l IH]; intros tf Hp Htf; cbn [fold_left]; [exact Htf |].
  apply IH.
  - intros base Hin. apply Hp. now right.
  - destruct (has_key b defs) eqn:E; [| exact Htf].
    apply merge_info_set_ok; [| exact Htf]. apply Hp; [now left | exact E].
Qed.

Lemma classes_fold_ok (defs : list (string * value)) path
  (merge_class : list (string * list string)) :
  forall tf,
    (forall m bases base,
        In (m, bases) merge_class -> In base bases ->
        has_key base defs = true -> P m base path) ->
    entries_ok P tf ->
    entries_ok P
      (fold_left
         (fun tf '(m, bases) =>
            fold_left
              (fun tf base =>
                 if has_key base defs then merge_info_set m base path tf else tf)
              bases tf)
         merge_class tf).
Proof.
  induction merge_class as [| [m bases] l IH]; intros tf Hp Htf;
    cbn [fold_left]; [exact Htf |].
  apply IH.
  - intros m' bases' base Hin. apply Hp. now right.
  - apply bases_fold_ok; [| exact Htf].
    intros base Hin. apply (Hp m bases); [now left | exact Hin].
Qed.

End MergeInfo.

Lemma paths_fold_ok (P : string -> string -> string -> Prop)
  (ps : list (string * DefaultASTParser))
  (merge_class : list (string * list string)) paths :
  forall tf (s s' : Gen) info,
    (forall path p m bases base,
        In path paths -> assoc path ps = Some p ->
        In (m, bases) merge_class -> In base bases ->
        has_key base (_local_defs p) = true -> P m base path) ->
    entries_ok P tf ->
    foldM (fun target_files path =>
             let* p := lift (dict_get path ps) in
             ret (fold_left
                    (fun tf '(m, bases) =>
                       fold_left
                         (fun tf base =>
                            if has_key base (_local_defs p)
                            then merge_info_set m base path tf else tf)
                         bases tf)
                    merge_class target_files)) paths tf s
    = (s', inr info) ->
    entries_ok P info.
Proof.
  induction paths as [| path l IH]; intros tf s s' info Hp Htf H;
    cbn [foldM] in H.
  - inversion H; subst. exact Htf.
  - apply bind_inv_ok in H as (s1 & tf1 & Hm & H).
    apply bind_inv_ok in Hm as (s2 & p & Hget & Hret).
    apply lift_inv in Hget as [-> Hget]. inversion Hret; subst. clear Hret.
    unfold dict_get in Hget.
    destruct (assoc path ps) as [p' |] eqn:E; inversion Hget; subst p'.
    eapply IH; [| | exact H].
    + intros path' p' m bases base Hin. apply Hp. now right.
    + apply classes_fold_ok; [| exact Htf].
      intros m bases base Hin Hb Hk. apply (Hp path p m bases base); auto.
      now left.
Qed.

Lemma index_of_lookup {A} k (d : list (string * A)) i :
  index_of k d = Some i ->
  exists x, d !! i = Some (k, x) /\ assoc k d = Some x.
Proof.
  revert i. induction d as [| [k0 y] d IH]; intros i; cbn; [discriminate |].
  destruct (String.eqb k k0) eqn:E.
  - apply String.eqb_eq in E. subst k0. intros H. inversion H. eauto.
  - destruct (index_of k d) as [j |]; [| discriminate].
    intros H. inversion H. subst i. cbn. apply IH. reflexivity.
Qed.

Lemma index_of_assoc {A} k (d : list (string * A)) x :
  assoc k d = Some x -> is_Some (index_of k d).
Proof.
  induction d as [| [k0 y] d IH]; cbn; [discriminate |].
  destruct (String.eqb k k0); [eauto |].
  intros H. destruct (IH H) as [j ->]. cbn. eauto.
Qed.

Lemma resolve_bases_ok (g : Gen) (l : list (string * string)) :
  (forall base path,
      In (base, path) l ->
      exists p, assoc path (parsers g) = Some p
                /\ has_key base (_local_defs p) = true) ->
  exists bp, resolve_bases g l = inr bp /\ Forall2 (resolved g) l bp.
Proof.
  induction l as [| [base path] l IH]; intros H.
  - exists []. split; [reflexivity | constructor].
  - destruct IH as (bp & Hbp & Hall).
    { intros b p Hin. apply H. now right. }
    destruct (H base path (or_introl eq_refl)) as (p & Hp & Hk).
    destruct (index_of_assoc _ _ _ Hp) as [i Hi].
    exists ((base, i) :: bp). cbn [resolve_bases fold_right].
    change (fold_right _ _ l) with (resolve_bases g l).
    rewrite Hi, Hbp. split; [reflexivity |].
    constructor; [| exact Hall]. split; [reflexivity |].
    destruct (index_of_lookup _ _ _ Hi) as (x & Hx & Hx').
    rewrite Hp in Hx'. inversion Hx'; subst x.
    exists p. split; [exact Hx |]. now apply has_key_assoc.
Qed.

(** X19: every entry that [_preprocess] of the segment-level generator
    records in [class_merge_info] names a base of a class to merge
    together with a file that the current file imports from and whose
    parser defines that base.  So the lookups of the class hook,
    [self.parsers[info[k]]], succeed for every recorded class, and each
    finds a parser that defines the base. *)
Theorem preprocess_merge_info_resolves (file : string) (idx : nat)
  (g g1 : Gen) (key : string) (parser : DefaultASTParser) :
  parsers g !! idx = Some (key, parser) ->
  segment_preprocess file idx g = (g1, inr tt) ->
  exists info,
    class_merge_info g1 = Some info
    /\ forall m l,
         In (m, l) info ->
         (forall base path,
             In (base, path) l -> merge_entry_ok g file parser m base path)
         /\ exists bp, resolve_bases g1 l = inr bp /\ Forall2 (resolved g1) l bp.
Proof.
  intros Hidx H.
  assert (Hinfo : exists ext info,
             g1 = set_preprocessed ext (_analyze_local_calls parser) info idx
                    (imports_info_read file g)
             /\ entries_ok (merge_entry_ok g file parser) info).
  { unfold segment_preprocess in H.
    apply bind_inv_ok in H as (s0 & p & Hp & H).
    unfold parser_at in Hp. rewrite Hidx in Hp. inversion Hp; subst s0 p.
    clear Hp. cbn [snd] in H. rewrite bind_get in H.
    apply bind_inv_ok in H as (s0 & tgts & Hm & H).
    apply lift_inv in Hm as [-> Htgts].
    apply bind_inv_ok in H as (s0 & info & Hm & H).
    assert (Hok : entries_ok (merge_entry_ok g file parser) info).
    { eapply paths_fold_ok; [| | exact Hm].
      - intros path p m bases base Hin Hp Hmb Hb Hk. repeat split; eauto.
        exists tgts. split; [| exact Hin]. unfold dict_get in Htgts.
        destruct (assoc file (relation g)); now inversion Htgts.
      - intros m l base path []. }
    apply foldM_state in Hm; [subst s0 |].
    2: { intros b a. apply eq_bind; [apply eq_lift | intros; apply eq_ret]. }
    apply bind_inv_ok in H as (s0 & importers & Hm & H).
    unfold imports_info_at in Hm. inversion Hm; subst s0 importers. clear Hm.
    apply bind_inv_ok in H as (s0 & ext & Hm & H).
    apply foldM_state in Hm; [subst s0 |].
    2: { intros b a. apply eq_bind; [apply eq_lift | intros; apply eq_ret]. }
    rewrite bind_get in H. inversion H. eauto. }
  destruct Hinfo as (ext & info & -> & Hok).
  exists info. split; [reflexivity |]. intros m l Hin. split.
  - intros base path Hb. exact (Hok _ _ _ _ Hin Hb).
  - apply resolve_bases_ok. intros base path Hb.
    destruct (Hok _ _ _ _ Hin Hb) as (_ & _ & Hp).
    cbn [parsers set_preprocessed]. rewrite imports_info_read_parsers.
    exact Hp.
Qed.

(** ** The further properties on sample runs *)

Lemma visit_leaves_unregistered_kinds_alone_witness :
  visit Examples.deleting_checked Samples.returning_module tt
  = (tt, inr Samples.returning_module)
  /\ generic_visit Examples.deleting_checked Samples.returning_module tt
     = (tt, inr Samples.returning_module).
Proof.
  apply (visit_leaves_unregistered_kinds_alone Examples.deleting_checked
           Samples.returning_module tt);
    vm_compute; reflexivity.
Defined.

Lemma list_result_is_spliced_witness :
  visit_items (visit Samples.splitting)
    [Ast.Pass; Examples.statement; Ast.Pass] tt
  = (tt, inr ([Ast.Pass] ++ [Ast.Pass; Examples.statement] ++ [Ast.Pass])).
Proof.
  apply (list_result_is_spliced Samples.splitting Examples.statement
           [Ast.Pass] [Ast.Pass] [Ast.Pass; Examples.statement] tt tt tt tt
           [Ast.Pass] [Ast.Pass]);
    vm_compute; reflexivity.
Defined.

Lemma sentinel_deletes_node_field_witness :
  exists fields2',
    visit_fields (visit Samples.deleting_names) "FunctionDef"
      [("type_comment", VNone)] tt
    = (tt, inr fields2')
    /\ Samples.unannotated
       = VAst "FunctionDef"
           ([("name", VStr "f"); ("args", Ast.arguments);
             ("body", VList [Ast.Pass]); ("decorator_list", VList [])]
            ++ (if optional_field "FunctionDef" "returns"
                then [("returns", VNone)] else [])
            ++ fields2') ["lineno"]
    /\ getattr Samples.unannotated "returns"
       = if optional_field "FunctionDef" "returns" then inr VNone
         else inl (AttributeError "returns").
Proof.
  apply (sentinel_deletes_node_field Samples.deleting_names "FunctionDef"
           "returns"
           [("name", VStr "f"); ("args", Ast.arguments);
            ("body", VList [Ast.Pass]); ("decorator_list", VList [])]
           [("type_comment", VNone)] (Ast.Name "int") ["lineno"] tt tt tt tt
           [("name", VStr "f"); ("args", Ast.arguments);
            ("body", VList [Ast.Pass]); ("decorator_list", VList [])]
           Samples.unannotated).
  - vm_compute. repeat constructor; cbn; intuition discriminate.
  - reflexivity.
  - vm_compute. reflexivity.
  - vm_compute. reflexivity.
  - vm_compute. reflexivity.
Defined.

(** The annotation of the result of [def f() -> int] is an optional
    field: once deleted it reads [None].  The value of an expression
    statement is not: once deleted it is missing. *)
Example deleted_fields_read :
  generic_visit Samples.deleting_names Samples.annotated tt
  = (tt, inr Samples.unannotated)
  /\ getattr Samples.unannotated "returns" = inr VNone
  /\ generic_visit Samples.deleting_names Examples.statement tt
     = (tt, inr (VAst "Expr" [] ["lineno"]))
  /\ getattr (VAst "Expr" [] ["lineno"]) "value"
     = inl (AttributeError "value").
Proof. repeat split; reflexivity. Qed.

Lemma class_visitor_collects_every_function_witness :
  List.NoDup ["run"; "helper"]
  /\ forall name,
       In name ["run"; "helper"] <-> defines_function name Samples.nesting_class.
Proof.
  apply (class_visitor_collects_every_function Samples.nesting_class
           ["run"; "helper"]).
  vm_compute. reflexivity.
Defined.

Lemma merge_only_appends_methods_witness :
  merged_into ["bases"] Samples.child_merging
    (fst (ClassMerging.merge Examples.two_bases Samples.child_merging)).
Proof.
  apply (merge_only_appends_methods Examples.two_bases Samples.child_merging
           (fst (ClassMerging.merge Examples.two_bases Samples.child_merging))
           (inr tt)).
  vm_compute. reflexivity.
Defined.

Lemma merge_takes_bases_of_last_base_witness :
  exists base_node bases,
    dict_get "Base2"
      (_local_defs (Examples.class_parser "/src/base2.py"
                      (Examples.base_class "Base2") "Base2"))
    = inr base_node
    /\ getattr base_node "bases" = inr bases
    /\ getattr
         (ClassMerging.cls_node
            (fst (ClassMerging.merge Examples.two_bases Samples.child_merging)))
         "bases" = inr bases.
Proof.
  apply (merge_takes_bases_of_last_base
           [("Base1", Examples.class_parser "/src/base1.py"
                        (Examples.base_class "Base1") "Base1")]
           "Base2"
           (Examples.class_parser "/src/base2.py" (Examples.base_class "Base2")
              "Base2")
           Samples.child_merging
           (fst (ClassMerging.merge Examples.two_bases Samples.child_merging))).
  - reflexivity.
  - vm_compute. reflexivity.
Defined.

Lemma generate_writes_only_outputs_witness :
  let g := Examples.train_run_existing in
  let g' := fst (generate Examples.printer FileLevelCodeGenerator None g) in
  same_setup g g'
  /\ forall path,
       files g' !! path = files g !! path
       \/ exists i body,
            emitted g i path
            /\ files g' !! path = Some (CODEGEN_PREFIX +:+ body).
Proof.
  intros g g'.
  apply (generate_writes_only_outputs Examples.printer FileLevelCodeGenerator
           g g' (inr tt)).
  vm_compute. reflexivity.
Defined.



(** Of two files of the same base name the run leaves the output of the
    second one. *)
Example colliding_outputs :
  let run := generate Samples.name_printer FileLevelCodeGenerator None
               Samples.same_name_run in
  snd run = inr tt
  /\ files (fst run) = {[ "out/util.py" := CODEGEN_PREFIX +:+ "second" ]}.
Proof. vm_compute. split; reflexivity. Qed.

Lemma postprocess_needs_merged_bases_witness :
  (exists e,
      _postprocess SegmentCodeGenerator Samples.pending_run
      = (Samples.pending_run, inl e))
  /\ (forall node self,
         base_parsers self = None -> is_import (class_name node) = true ->
         exists e, _rewrite_class_imports node self = (self, inl e)).
Proof.
  apply (postprocess_needs_merged_bases Samples.pending_run 0 "/src/train.py"
           Examples.train_parser); reflexivity.
Defined.

(** A segment-level run reads [imports_info] at every file: the one that
    nobody imports from gets an empty entry. *)
Example segment_run_adds_empty_entry :
  let run := generate Examples.printer SegmentCodeGenerator None
               Examples.segment_run in
  snd run = inr tt
  /\ imports_info Examples.segment_run = [("/src/lib.py", ["/src/main.py"])]
  /\ imports_info (fst run)
     = [("/src/lib.py", ["/src/main.py"]); ("/src/main.py", [])].
Proof. vm_compute. repeat split; reflexivity. Qed.

(** And the run of [train.py] that stops at its imports has made the
    entry of that file. *)
Example stopped_run_adds_empty_entry :
  imports_info Examples.train_run = []
  /\ imports_info
       (fst (generate_file Examples.printer SegmentCodeGenerator None 0
               Examples.train_run))
     = [("/src/train.py", [])].
Proof. vm_compute. split; reflexivity. Qed.

Lemma segment_stops_at_import_without_merge_witness :
  exists g1 e,
    generate_file Examples.printer SegmentCodeGenerator None 0 Examples.train_run
    = (g1, inl e)
    /\ files g1 = files Examples.train_run
    /\ same_setup Examples.train_run g1
    /\ forall i, i <> 0 -> parsers g1 !! i = parsers Examples.train_run !! i.
Proof.
  apply (segment_stops_at_import_without_merge Examples.printer
           Examples.train_run 0 "/src/train.py" Examples.train_parser
           [Examples.helper_import; Ast.Import ["os"];
            Ast.FunctionDef "main" [Ast.Pass];
            Ast.ClassDef "Net" [] [Ast.FunctionDef "forward" [Ast.Pass]]]
           [("type_ignores", VList [])] []).
  - reflexivity.
  - reflexivity.
  - vm_compute. discriminate.
  - reflexivity.
  - reflexivity.
  - reflexivity.
Defined.

Lemma segment_run_fails_on_import_witness :
  exists g' e,
    generate Examples.printer SegmentCodeGenerator None Examples.train_run
    = (g', inl e).
Proof.
  apply (segment_run_fails_on_import Examples.printer Examples.train_run 0
           "/src/train.py" Examples.train_parser
           [Examples.helper_import; Ast.Import ["os"];
            Ast.FunctionDef "main" [Ast.Pass];
            Ast.ClassDef "Net" [] [Ast.FunctionDef "forward" [Ast.Pass]]]
           [("type_ignores", VList [])] []).
  - reflexivity.
  - repeat constructor.
  - reflexivity.
  - vm_compute. discriminate.
  - reflexivity.
  - reflexivity.
Defined.

Lemma file_level_run_succeeds_witness :
  exists g',
    generate Examples.printer FileLevelCodeGenerator None Examples.train_run
    = (g', inr tt).
Proof.
  apply (file_level_run_succeeds Examples.printer Examples.train_run).
  intros i file p H. destruct i as [| i]; [| discriminate H].
  inversion H. split; reflexivity.
Defined.

Lemma postprocess_drops_by_first_alias_witness :
  let g := Samples.merged_run in
  let g' := fst (_postprocess SegmentCodeGenerator g) in
  exists out,
    parsers g' !! 0 = Some ("/src/child.py", out)
    /\ top_imports (ast out)
       = List.filter (fun v => negb (drops_import [("Base1", 1)] v))
           (top_imports Samples.merged_tree).
Proof.
  intros g g'.
  apply (postprocess_drops_by_first_alias g g' 0 "/src/child.py"
           (mkParser "/src/child.py" Samples.merged_tree
              [("Child", Examples.child_class)] [] [("Child", ["Base1"])] [])
           [("Base1", 1)]
           [Ast.ImportFrom (VStr "base1") ["Base1"; "tool"] 0 true;
            Ast.ImportFrom (VStr "tools") ["tool"; "Base1"] 0 true;
            Examples.child_class]
           [("type_ignores", VList [])] []).
  - reflexivity.
  - reflexivity.
  - reflexivity.
  - reflexivity.
  - vm_compute. reflexivity.
Defined.

(** The statement whose first alias is the merged base goes, with the
    other name it imports; the statement that imports the base as its
    second alias stays. *)
Example merged_run_imports :
  (fun kp => top_imports (ast (snd kp)))
    <$> parsers (fst (_postprocess SegmentCodeGenerator Samples.merged_run)) !! 0
  = Some [Ast.ImportFrom (VStr "tools") ["tool"; "Base1"] 0 true].
Proof. vm_compute. reflexivity. Qed.

Lemma preprocess_merge_info_resolves_witness :
  let g := Samples.merging_run in
  let g1 := fst (segment_preprocess "/src/child.py" 0 g) in
  exists info,
    class_merge_info g1 = Some info
    /\ forall m l,
         In (m, l) info ->
         (forall base path,
             In (base, path) l ->
             merge_entry_ok g "/src/child.py" Samples.child_parser m base path)
         /\ exists bp, resolve_bases g1 l = inr bp /\ Forall2 (resolved g1) l bp.
Proof.
  intros g g1.
  apply (preprocess_merge_info_resolves "/src/child.py" 0 g g1 "/src/child.py"
           Samples.child_parser).
  - reflexivity.
  - vm_compute. reflexivity.
Defined.

(** On that corpus both bases of [Child] are found. *)
Example merging_run_info :
  class_merge_info (fst (segment_preprocess "/src/child.py" 0 Samples.merging_run))
  = Some [("Child", [("Base1", "/src/base1.py"); ("Base2", "/src/base2.py")])].
Proof. reflexivity. Qed.

Lemma file_level_copies_import_free_file_witness :
  generate_file Examples.printer FileLevelCodeGenerator None 0
    Examples.three_files
  = (set_files
       (<[output_path Examples.three_files (Examples.plain_parser "/src/a.py") :=
            CODEGEN_PREFIX
            +:+ Examples.printer (ast (Examples.plain_parser "/src/a.py"))]>
          (files Examples.three_files))
       Examples.three_files,
     inr tt).
Proof.
  apply (file_level_copies_import_free_file Examples.printer
           Examples.three_files 0 "/src/a.py" (Examples.plain_parser "/src/a.py")).
  - reflexivity.
  - vm_compute. discriminate.
  - reflexivity.
  - vm_compute. reflexivity.
Defined.

(** A readable file and a missing one. *)
Example file_entry_sample :
  match Entry.FileEntry (fun f => "/src/" +:+ f) Samples.parse_pass
          Samples.one_file (inl "a.py") with
  | inr self => Entry.__iter__ self = [("/src/a.py", Ast.Module [Ast.Pass])]
  | inl _ => False
  end
  /\ Entry.FileEntry (fun f => "/src/" +:+ f) Samples.parse_pass
       Samples.one_file (inr ["a.py"; "b.py"])
     = inl (FileNotFoundError "/src/b.py").
Proof. split; reflexivity. Qed.

(** ** The tree a file-level run writes *)










(** The import of [pkg.util] at the top of [train.py] becomes an import
    of [util]; the plain import and the definitions stay. *)
Example train_tree_rewritten :
  with_imports_rewritten Examples.util_mapping Examples.train_tree
  = Ast.Module
      [Ast.ImportFrom (VStr "util") ["helper"] 0 true; Ast.Import ["os"];
       Ast.FunctionDef "main" [Ast.Pass];
       Ast.ClassDef "Net" [] [Ast.FunctionDef "forward" [Ast.Pass]]].
Proof. vm_compute. reflexivity. Qed.
